(** * pytype/matcher.py: the abstract matcher, as a shallow embedding

    The matcher is a Python class [AbstractMatcher] whose methods thread three
    kinds of mutable state: the matcher's own fields (two recursion caches and
    the recorded error details), the program's variables (cfg.Variable objects,
    updated by pasting bindings) and the substitution dictionaries (Python
    dicts, copied before they are written).  All three are explicit here: a
    method is a function [Heap -> result A * Heap].

    The modules the matcher imports (pytype.abstract, abstract_utils, cfg,
    datatypes, function, the convert and annotation services of the context)
    are not part of the sources at hand; their values and operations form the
    interface [Abstract] below, and everything is stated for an arbitrary
    implementation of it.

    Conventions.  Python's [is] and [==] on abstract values are both the
    equality of [Value], which is decidable.  The [node] arguments, the
    provenance of bindings and the logging calls have no effect on the
    results of the matcher and are left out.  A variable is the list of the
    values bound in it, in the order of binding; a substitution is an index
    into the store of dicts, so that two names for one dict are one index.
    A dict keeps the order in which its keys were inserted, and is iterated
    in this order.
    The generator [get_views] is the tree [Views] of what it yields for each
    value sent back.  The mutual recursion of the methods goes through the
    record [Rec], closed by [methods] with a bound on the depth of the
    recursion; a method out of depth returns [OutOfFuel], never a result. *)
From stdpp Require Import gmap strings list sorting.

(** ** Python classes the matcher tests against with [isinstance] *)
Inductive PyClass :=
| abstract_BaseValue
| abstract_Class
| abstract_ParameterizedClass
| abstract_TupleClass
| abstract_CallableClass
| abstract_LiteralClass
| abstract_PyTDClass
| abstract_InterpreterClass
| typed_dict_TypedDictClass
| abstract_Instance
| abstract_SimpleValue
| abstract_Dict
| abstract_Tuple
| abstract_ConcreteValue
| abstract_TypeParameter
| abstract_TypeParameterInstance
| abstract_Union
| abstract_Unknown
| abstract_Unsolvable
| abstract_Empty
| abstract_Module
| abstract_BoundFunction
| abstract_Function
| abstract_NativeFunction
| abstract_ClassMethod
| abstract_StaticMethod
| abstract_FinalAnnotation
| dataclass_overlay_FieldInstance
| special_builtins_SuperInstance
| special_builtins_PropertyInstance
| typing_overlay_NoReturn.

#[global] Instance PyClass_eq_dec : EqDecision PyClass.
Proof. solve_decision. Defined.

(** Python exceptions the matcher can raise by itself (assertions, missing
    keys, failed unpacking, [get_atomic_value] on a non-atomic variable). *)
Inductive exn :=
| AssertionError
| NotImplementedError
| KeyError
| ValueError
| AttributeError
| ConversionError.

(** The outcome of running a method: a returned value, a raised exception, or
    the recursion budget of the model spent. *)
Inductive result (A : Type) :=
| Ret (a : A)
| Raise (e : exn)
| OutOfFuel.
Arguments Ret {A} a.
Arguments Raise {A} e.
Arguments OutOfFuel {A}.

(** The body of a [for] loop goes on with the next element, leaves the loop
    with [break], or leaves the enclosing function with [return]. *)
Inductive flow (S R : Type) :=
| Next (s : S)
| Break (s : S)
| Return (r : R).
Arguments Next {S R} s.
Arguments Break {S R} s.
Arguments Return {S R} r.

(** What a TypeParameterInstance is attached to, and the [container] argument
    of [instantiate]: an abstract value, a function.Signature, the sentinel
    abstract_utils.DUMMY_CONTAINER, or None. *)
Inductive Container (V S : Type) :=
| container_value (v : V)
| container_signature (s : S)
| DUMMY_CONTAINER
| container_None.
Arguments container_value {V S} v.
Arguments container_signature {V S} s.
Arguments DUMMY_CONTAINER {V S}.
Arguments container_None {V S}.

(** cfg.Binding: one value of a variable.  A variable holds at most one binding
    per value, so a binding is its variable and its data. *)
Record Binding (V : Type) := mkBinding { variable : nat; data : V }.
Arguments mkBinding {V} variable data.
Arguments variable {V} b.
Arguments data {V} b.

(** Modelled from the spec: cfg.Program is missing from the sources; "Variable:
    a program-wide object carrying multiple bindings".  A variable is its index
    in the program's table, its contents the data of its bindings, in order. *)
Abbreviation Program V := (list (list V)) (only parsing).

(** ** Variables of the program (cfg) *)
Section Cfg.
Context {V : Type} `{EqDecision V}.

(** var.data: the data of the bindings of a variable. *)
Definition var_data (var : nat) (p : Program V) : list V :=
  default [] (p !! var).

(** var.bindings *)
Definition var_bindings (var : nat) (p : Program V) : list (Binding V) :=
  mkBinding var <$> var_data var p.

(** Modelled from the spec: cfg.Variable.AddBinding is missing from the sources;
    a variable holds one binding per value ("set union over bindings").  The
    sources of a binding (its provenance) are left out. *)
Definition AddBinding (var : nat) (d : V) (p : Program V) : Program V :=
  alter (λ l, if bool_decide (d ∈ l) then l else l ++ [d]) var p.

(** Modelled from the spec: cfg.Variable.PasteVariable, "paste all bindings
    into the existing variable (set union over bindings)". *)
Definition PasteVariable (var other : nat) (p : Program V) : Program V :=
  foldl (λ q d, AddBinding var d q) p (var_data other p).

(** Modelled from the spec: cfg.Program.NewVariable, a fresh variable holding
    a binding for each of the given values. *)
Definition NewVariable (values : list V) (p : Program V) : nat * Program V :=
  (length p, foldl (λ q d, AddBinding (length p) d q) (p ++ [[]]) values).

(** Modelled from the spec: cfg.Variable.AssignToNewVariable, a fresh variable
    with the values of this one. *)
Definition AssignToNewVariable (var : nat) (p : Program V) : nat * Program V :=
  NewVariable (var_data var p) p.

End Cfg.

(** The generator returned by abstract_utils.get_views: each view it yields
    comes with the continuation that [send] resumes with the skip hint. *)
Inductive Views (V : Type) :=
| StopIteration
| Yield (view : gmap nat V) (send : option bool -> Views V).
Arguments StopIteration {V}.
Arguments Yield {V} view send.

(** Modelled from the spec: datatypes.UnionFind is missing from the sources;
    "a union-find alias map for renamed type parameters".  It is kept as the
    table from a name to its representative. *)
Definition UnionFind := list (string * string).

Definition find_by_name (uf : UnionFind) (name : string) : string :=
  match list_find (λ p, bool_decide (p.1 = name)) uf with
  | Some (_, p) => p.2
  | None => name
  end.

(** A substitution dictionary: a plain dict has an empty alias table, a
    datatypes.AliasingDict resolves every key through [uf].  A Python dict
    iterates over its keys in the order of their insertion: [order] lists the
    keys as they were inserted. *)
Record DictObj := mkDict {
  uf : UnionFind;
  items : gmap string nat;
  order : list string
}.

(** ** The interface of the imported modules *)
Class Abstract := {
  Value : Type;
  Value_eq_dec :: EqDecision Value;
  Signature : Type;
  TypeKey : Type;
  TypeKey_eq_dec :: EqDecision TypeKey;
  PyVal : Type;
  PyVal_eq_dec :: EqDecision PyVal;
  (* class tests and attributes of abstract values *)
  isinstance : Value -> PyClass -> bool;
  formal : Value -> bool;
  full_name : Value -> string;
  name : Value -> string;
  cls : Value -> Value;
  mro : Value -> list Value;
  base_cls : Value -> Value;
  options : Value -> list Value;
  constraints : Value -> list Value;
  bound : Value -> option Value;
  annotation : Value -> Value;
  param : Value -> Value;
  instance : Value -> Container Value Signature;
  is_protocol : Value -> bool;
  protocol_attributes : Value -> gset string;
  has_protocol_base : Value -> bool;
  is_dynamic : Value -> bool;
  is_enum : Value -> bool;
  get_own_attributes : Value -> gset string;
  members : Value -> gset string;
  template : Value -> list Value;
  assert_classes_match : Value -> Value -> bool;
  get_formal_type_parameter : Value -> string -> Value;
  formal_type_parameters : Value -> nat -> option Value;
  get_formal_type_parameters : Value -> list (string * Value);
  all_formal_type_parameters_uf : Value -> UnionFind;
  set_formal_type_parameter : Value -> nat -> Value -> Value;
  num_args : Value -> nat;
  tuple_length : Value -> nat;
  tuple_pyval : Value -> list nat;
  dict_pyval : Value -> list (string * nat);
  pyval : Value -> PyVal;
  value : Value -> Value;
  FieldInstance_default : Value -> option nat;
  super_obj : Value -> option Value;
  super_cls : Value -> Value;
  to_bound_function : Value -> Value;
  method : Value -> Value;
  fget : Value -> Value;
  get_type_key : Value -> TypeKey;
  check_keys : Value -> list string -> gset string * gset string;
  fields : Value -> gmap string nat;
  (* operations of abstract values that create variables *)
  get_instance_type_parameter : Value -> string -> Program Value -> nat * Program Value;
  instantiate : Value -> Container Value Signature -> Program Value -> nat * Program Value;
  (* function.Signature *)
  annotations : Signature -> gmap string Value;
  param_names : Signature -> list string;
  mandatory_param_count : Signature -> nat;
  maximum_param_count : Signature -> option nat;
  drop_first_parameter : Signature -> Signature;
  get_signatures : Value -> list Signature;
  (* the context: convert, pytd_convert, annotation_utils, attribute_handler, vm *)
  convert_unsolvable : Value;
  convert_empty : Value;
  convert_object_type : Value;
  object_instance : Value;
  get_maybe_abstract_instance : Value -> Value;
  merge_values : list Value -> Value;
  new_Instance : Value -> Value;
  new_ParameterizedClass : Value -> list (string * Value) -> Value;
  signature_to_callable : Signature -> Value;
  get_type_parameters : Value -> list Value;
  sub_one_annotation : Value -> list DictObj -> Program Value -> Value;
  get_attribute : Value -> string -> option (Binding Value) -> Program Value -> option nat * Program Value;
  bind_method : Value -> nat -> Program Value -> Value * Program Value;
  call_function : Value -> Program Value -> nat * Program Value;
  DummyMethod_iter_to_var : Program Value -> nat * Program Value;
  (* abstract_utils and the control-flow graph *)
  get_views : list nat -> Program Value -> Views Value;
  is_recursive_annotation : Value -> bool;
  is_callable : Value -> bool;
  HasCombination : list (Binding Value) -> bool;
  Filter : nat -> Program Value -> list (Binding Value);
  T : string;
  RET : string;
  ARGS : string;
  (* pep484 *)
  COMPAT_ITEMS : list (string * string)
}.

Section Matcher.
Context `{Abstract}.

(** ** Error details (matcher.py, lines 35-81) *)
Record NonIterableStrError := mkNonIterableStrError {
  nis_left_type : Value;
  nis_other_type : Value
}.

Inductive ProtocolError :=
| ProtocolMissingAttributesError (left_type other_type : Value) (missing : gset string)
| ProtocolTypeError (left_type other_type : Value) (attribute_name : string)
    (actual_type expected_type : Value).

Inductive ErrorDetails :=
| mkErrorDetails (protocol : option ProtocolError)
    (noniterable_str : option NonIterableStrError)
    (typed_dict : option TypedDictError)
with TypedDictError :=
| mkTypedDictError
    (bad : list (string * nat * Value * list (gmap nat Value * ErrorDetails)))
    (extra : gset string) (missing : gset string).

(** function.BadParam, as compute_subst builds it. *)
Record BadParam := mkBadParam {
  bp_name : string;
  bp_expected : Value;
  bp_error_details : ErrorDetails
}.

(** ** The state: the matcher's fields, the program's variables, the dicts *)
Record Matcher := mkMatcher {
  _protocol_cache : list (Value * Value);
  _recursive_annots_cache : list (Value * Value);
  _protocol_error : option ProtocolError;
  _noniterable_str_error : option NonIterableStrError;
  _typed_dict_error : option TypedDictError;
  _error_subst : option nat
}.

(** AbstractMatcher.__init__ *)
Definition __init__ : Matcher :=
  mkMatcher [] [] None None None None.

Record Heap := mkHeap {
  matcher : Matcher;
  program : Program Value;
  dicts : list DictObj
}.

Definition M (A : Type) : Type := Heap -> result A * Heap.

Definition ret {A} (a : A) : M A := λ h, (Ret a, h).

Definition bind {A B} (m : M A) (k : A -> M B) : M B :=
  λ h, match m h with
       | (Ret a, h') => k a h'
       | (Raise e, h') => (Raise e, h')
       | (OutOfFuel, h') => (OutOfFuel, h')
       end.

Definition raise {A} (e : exn) : M A := λ h, (Raise e, h).

Definition out_of_fuel {A} : M A := λ h, (OutOfFuel, h).

Local Notation "x <- m ;; k" := (bind m (λ x, k))
  (at level 100, m at next level, right associativity).
Local Notation "m ;; k" := (bind m (λ _, k))
  (at level 100, right associativity).

Definition assert (b : bool) : M unit :=
  if b then ret tt else raise AssertionError.

(** *** The matcher's fields *)
Definition get_matcher : M Matcher := λ h, (Ret (matcher h), h).

Definition set_matcher (f : Matcher -> Matcher) : M unit :=
  λ h, (Ret tt, mkHeap (f (matcher h)) (program h) (dicts h)).

Definition set_protocol_cache (c : list (Value * Value)) : M unit :=
  set_matcher (λ m, mkMatcher c (_recursive_annots_cache m) (_protocol_error m)
                      (_noniterable_str_error m) (_typed_dict_error m) (_error_subst m)).

Definition set_recursive_annots_cache (c : list (Value * Value)) : M unit :=
  set_matcher (λ m, mkMatcher (_protocol_cache m) c (_protocol_error m)
                      (_noniterable_str_error m) (_typed_dict_error m) (_error_subst m)).

Definition set_protocol_error (e : option ProtocolError) : M unit :=
  set_matcher (λ m, mkMatcher (_protocol_cache m) (_recursive_annots_cache m) e
                      (_noniterable_str_error m) (_typed_dict_error m) (_error_subst m)).

Definition set_noniterable_str_error (e : option NonIterableStrError) : M unit :=
  set_matcher (λ m, mkMatcher (_protocol_cache m) (_recursive_annots_cache m)
                      (_protocol_error m) e (_typed_dict_error m) (_error_subst m)).

Definition set_typed_dict_error (e : option TypedDictError) : M unit :=
  set_matcher (λ m, mkMatcher (_protocol_cache m) (_recursive_annots_cache m)
                      (_protocol_error m) (_noniterable_str_error m) e (_error_subst m)).

Definition set_error_subst (s : option nat) : M unit :=
  set_matcher (λ m, mkMatcher (_protocol_cache m) (_recursive_annots_cache m)
                      (_protocol_error m) (_noniterable_str_error m)
                      (_typed_dict_error m) s).

(** *** The program's variables (cfg) *)
Definition call {A} (f : Program Value -> A * Program Value) : M A :=
  λ h, let '(a, p) := f (program h) in (Ret a, mkHeap (matcher h) p (dicts h)).

Definition read {A} (f : Program Value -> A) : M A :=
  λ h, (Ret (f (program h)), h).

(** value.to_variable(node) *)
Definition to_variable (v : Value) : M nat := call (NewVariable [v]).

(** abstract_utils.get_atomic_value: the single value of a variable. *)
Definition get_atomic_value (var : nat) : M Value :=
  l <- read (var_data var) ;;
  match l with
  | [v] => ret v
  | _ => raise ConversionError
  end.

(** *** Substitution dictionaries *)
Definition empty_dict : DictObj := mkDict [] ∅ [].

Definition dict_read (d : nat) : M DictObj :=
  λ h, (Ret (default empty_dict (dicts h !! d)), h).

Definition dict_new (o : DictObj) : M nat :=
  λ h, (Ret (length (dicts h)), mkHeap (matcher h) (program h) (dicts h ++ [o])).

(** subst.copy() *)
Definition dict_copy (d : nat) : M nat :=
  o <- dict_read d ;; dict_new o.

Definition contains (o : DictObj) (k : string) : bool :=
  bool_decide (is_Some (items o !! find_by_name (uf o) k)).

(** Assigning to a key that the dict has keeps the place of the key; a new
    key comes last. *)
Definition setitem (k : string) (var : nat) (o : DictObj) : DictObj :=
  mkDict (uf o) (<[find_by_name (uf o) k := var]> (items o))
    (if bool_decide (is_Some (items o !! find_by_name (uf o) k))
     then order o else order o ++ [find_by_name (uf o) k]).

(** subst.items(): the entries in the order of insertion of their keys, that
    is by the place of the key in [order]. *)
Definition place (l : list string) (k : string) : nat :=
  match list_find (λ x, x = k) l with
  | Some (i, _) => i
  | None => length l
  end.

Definition inserted_before (l : list string) (a b : string * nat) : Prop :=
  place l a.1 ≤ place l b.1.

#[local] Instance inserted_before_dec l a b : Decision (inserted_before l a b).
Proof. unfold inserted_before. apply _. Defined.

Definition dict_items (o : DictObj) : list (string * nat) :=
  merge_sort (inserted_before (order o)) (map_to_list (items o)).

(** k in subst *)
Definition dict_contains (d : nat) (k : string) : M bool :=
  o <- dict_read d ;; ret (contains o k).

(** subst[k] *)
Definition dict_getitem (d : nat) (k : string) : M nat :=
  o <- dict_read d ;;
  match items o !! find_by_name (uf o) k with
  | Some var => ret var
  | None => raise KeyError
  end.

(** subst[k] = var *)
Definition dict_setitem (d : nat) (k : string) (var : nat) : M unit :=
  λ h, (Ret tt, mkHeap (matcher h) (program h) (alter (setitem k var) d (dicts h))).

(** A dict display or comprehension, [{k1: v1, ...}]: the entries are
    entered one after the other into a new dict. *)
Definition dict_display (kvs : list (string * nat)) : M nat :=
  dict_new (foldl (λ o kv, setitem kv.1 kv.2 o) empty_dict kvs).

(** *** Loops *)
Fixpoint for_ {X S R} (xs : list X) (s : S) (body : X -> S -> M (flow S R))
  : M (S + R) :=
  match xs with
  | [] => ret (inl s)
  | x :: xs' =>
      f <- body x s ;;
      match f with
      | Next s' => for_ xs' s' body
      | Break s' => ret (inl s')
      | Return r => ret (inr r)
      end
  end.

(** A loop whose body neither breaks nor returns. *)
Fixpoint for_each {X S} (xs : list X) (s : S) (body : X -> S -> M S) : M S :=
  match xs with
  | [] => ret s
  | x :: xs' => s' <- body x s ;; for_each xs' s' body
  end.

(** Iterating over the generator of get_views with a plain [for]. *)
Fixpoint for_views {S R} (g : Views Value) (s : S)
    (body : gmap nat Value -> S -> M (flow S R)) : M (S + R) :=
  match g with
  | StopIteration => ret (inl s)
  | Yield view send =>
      f <- body view s ;;
      match f with
      | Next s' => for_views (send None) s' body
      | Break s' => ret (inl s')
      | Return r => ret (inr r)
      end
  end.

(** ** Module-level definitions (lines 24-32) *)
Definition _COMPATIBLE_BUILTINS : list (string * string) :=
  (λ p, ("builtins." +:+ p.1, "builtins." +:+ p.2)) <$> COMPAT_ITEMS.

Definition isinstance_any (v : Value) (cs : list PyClass) : bool :=
  existsb (isinstance v) cs.

(** abstract.AMBIGUOUS, abstract.AMBIGUOUS_OR_EMPTY and abstract.FUNCTION_TYPES
    are tuples of classes declared in pytype.abstract. *)
Definition AMBIGUOUS : list PyClass := [abstract_Unknown; abstract_Unsolvable].

Definition AMBIGUOUS_OR_EMPTY : list PyClass := AMBIGUOUS ++ [abstract_Empty].

Definition FUNCTION_TYPES : list PyClass := [abstract_BoundFunction; abstract_Function].

Definition _is_callback_protocol (typ : Value) : bool :=
  isinstance typ abstract_Class && is_protocol typ
  && bool_decide ("__call__" ∈ protocol_attributes typ).

(** ** AbstractMatcher *)

(** _track_partially_matched_protocols (lines 97-111): the body of the [with]
    statement runs between the snapshot and its restoration; an exception in
    the body leaves the generator at its [yield], so nothing is restored. *)
Definition _track_partially_matched_protocols {A} (body : M A) : M A :=
  m <- get_matcher ;;
  let old_protocol_cache := _protocol_cache m in
  r <- body ;;
  set_protocol_cache old_protocol_cache ;;
  ret r.

(** _error_details (lines 113-119) *)
Definition _error_details : M ErrorDetails :=
  m <- get_matcher ;;
  ret (mkErrorDetails (_protocol_error m) (_noniterable_str_error m)
         (_typed_dict_error m)).

(** match_from_mro (lines 205-243) *)
Fixpoint match_from_mro_loop (bases : list Value) (other_type : Value)
    (allow_compat_builtins : bool) : option Value :=
  match bases with
  | [] => None
  | base :: bases' =>
      let base_cls' :=
        if isinstance base abstract_ParameterizedClass then base_cls base else base in
      if isinstance base_cls' abstract_Class then
        if bool_decide (full_name other_type = full_name base_cls')
           || (isinstance other_type abstract_ParameterizedClass
               && bool_decide (base_cls other_type = base_cls'))
           || (allow_compat_builtins
               && bool_decide ((full_name base_cls', full_name other_type)
                                 ∈ _COMPATIBLE_BUILTINS))
        then Some base
        else match_from_mro_loop bases' other_type allow_compat_builtins
      else if isinstance_any base_cls' AMBIGUOUS then Some base_cls'
      else if isinstance base_cls' abstract_Empty then
        match_from_mro_loop bases' other_type allow_compat_builtins
      else match_from_mro_loop bases' other_type allow_compat_builtins
  end.

Definition match_from_mro (left other_type : Value) (allow_compat_builtins : bool)
  : option Value :=
  match_from_mro_loop (mro left) other_type allow_compat_builtins.

(** _merge_substs (lines 739-747) *)
Definition _merge_substs (subst : nat) (new_substs : list nat) : M nat :=
  subst <- dict_copy subst ;;
  for_each new_substs tt (λ new_subst _,
    o <- dict_read new_subst ;;
    for_each (dict_items o) tt (λ '(name, var) _,
      c <- dict_contains subst name ;;
      if negb c then dict_setitem subst name var
      else
        old <- dict_getitem subst name ;;
        if negb (bool_decide (old = var))
        then call (λ p, (tt, PasteVariable old var p))
        else ret tt)) ;;
  ret subst.

(** _subst_with_type_parameters_from (lines 1268-1273) *)
Definition _subst_with_type_parameters_from (subst : nat) (typ : Value) : M nat :=
  subst <- dict_copy subst ;;
  for_each (get_type_parameters typ) tt (λ param _,
    c <- dict_contains subst (name param) ;;
    if negb c then
      var <- to_variable convert_empty ;;
      dict_setitem subst (name param) var
    else ret tt) ;;
  ret subst.

(** _mutate_type_parameters (lines 651-653) *)
Definition _mutate_type_parameters (params : list Value) (value : Value) (subst : nat)
  : M nat :=
  kvs <- for_each params [] (λ p kvs,
           var <- to_variable value ;; ret (kvs ++ [(full_name p, var)])) ;;
  new_subst <- dict_display kvs ;;
  _merge_substs subst [new_subst].

(** _get_param_matcher (lines 655-699): the counter built from the callable's
    type parameters, and the matcher closure over it. *)
Definition count_of (x : Value) (l : list Value) : Z :=
  Z.of_nat (length (filter (λ y, y = x) l)).

Definition callable_param_count (callable_type : Value) (right : Value) : Z :=
  (count_of right (get_type_parameters callable_type)
   - (if isinstance callable_type abstract_CallableClass
      then count_of right
             (get_type_parameters (get_formal_type_parameter callable_type ARGS))
      else 0))%Z.

Definition _get_param_matcher (callable_type : Value) (left right : Value) (subst : nat)
  : M (option nat) :=
  if negb (isinstance left abstract_TypeParameter)
     || negb (isinstance right abstract_TypeParameter)
     || negb (bool_decide (constraints right = []))
     || bool_decide (is_Some (bound right))
     || negb (bool_decide (callable_param_count callable_type right = 1%Z))
  then ret None
  else
    subst <- dict_copy subst ;;
    var <- call (NewVariable [convert_empty]) ;;
    dict_setitem subst (full_name right) var ;;
    ret (Some subst).

(** _discard_ambiguous_values (lines 1204-1216) *)
Definition _discard_ambiguous_values (values : list Value) : list Value :=
  filter (λ v,
    negb (isinstance_any v
            (AMBIGUOUS_OR_EMPTY ++ [abstract_Union; abstract_TypeParameterInstance]))
    && negb (isinstance_any (cls v) AMBIGUOUS_OR_EMPTY) = true) values.

(** _satisfies_single_type (lines 1218-1225) *)
Definition _satisfies_single_type (values : list Value) : bool :=
  let class_names : gset string := list_to_set ((λ v, full_name (cls v)) <$> values) in
  let class_names :=
    foldl (λ (names : gset string) p,
             if bool_decide (p.1 ∈ names) && bool_decide (p.2 ∈ names)
             then names ∖ {[p.1]} else names)
          class_names _COMPATIBLE_BUILTINS in
  bool_decide (size class_names ≤ 1).

(** _satisfies_common_superclass (lines 1227-1251) *)
Definition superclasses_of (v : Value) : gset string :=
  foldl (λ (s : gset string) p, if bool_decide (p.1 ∈ s) then s ∪ {[p.2]} else s)
        (list_to_set (full_name <$> mro (cls v))) _COMPATIBLE_BUILTINS.

Definition _satisfies_common_superclass (values : list Value) : bool :=
  let common_classes : option (gset string) :=
    foldl (λ common v,
             match common with
             | None => Some (superclasses_of v)
             | Some c => Some (c ∩ superclasses_of v)
             end) None values in
  let object_in_values :=
    existsb (λ v, bool_decide (cls v = convert_object_type)) values in
  let ignored_superclasses : gset string :=
    if object_in_values then ∅
    else {["builtins.object"; "typing.Generic"; "typing.Protocol"]} in
  match common_classes with
  | Some c => negb (bool_decide (c ⊆ ignored_superclasses))
  | None => true
  end.

(** _satisfies_noniterable_str (lines 1253-1266) *)
Definition _satisfies_noniterable_str (left other_type : Value) : bool :=
  let conflicting_iter_types :=
    ["typing.Iterable"; "typing.Sequence"; "typing.Collection"; "typing.Container"] in
  let str_types := ["builtins.str"; "builtins.unicode"] in
  if negb (bool_decide (full_name other_type ∈ conflicting_iter_types))
     || negb (bool_decide (full_name left ∈ str_types))
  then true
  else if isinstance other_type abstract_ParameterizedClass then
    let type_param := full_name (get_formal_type_parameter other_type "_T") in
    negb (bool_decide (type_param ∈ str_types))
  else true.

(** _unwrap_final (lines 292-303) *)
Definition _unwrap_final (val : Value) : M Value :=
  if isinstance val abstract_FinalAnnotation then ret (annotation val)
  else if isinstance val abstract_Instance
          && bool_decide (full_name (cls val) = "typing.Final") then
    var <- call (get_instance_type_parameter val T) ;;
    get_atomic_value var
  else ret val.

(** _get_attribute_names (lines 1013-1027): [left.items()] of a module only
    loads its members, which [members] already lists. *)
Definition _get_attribute_names (left : Value) : gset string :=
  let left_attributes : gset string := ∅ in
  let left_attributes :=
    if isinstance left abstract_SimpleValue
    then left_attributes ∪ members left else left_attributes in
  let left_attributes :=
    left_attributes
    ∪ ⋃ (get_own_attributes
           <$> filter (λ c, isinstance c abstract_Class = true) (mro (cls left))) in
  if bool_decide ("__getitem__" ∈ left_attributes)
     && negb (bool_decide ("__iter__" ∈ left_attributes))
  then left_attributes ∪ {["__iter__"]}
  else left_attributes.

(** *** The mutually recursive methods

    The methods call each other in cycles that all pass through
    match_var_against_type, _match_value_against_type,
    _match_type_against_type or _get_type.  Each method below takes these four
    as the record [R]; [methods] at the end closes the recursion with a
    budget that every such call decrements. *)
Record Rec := mkRec {
  rec_match_var_against_type :
    nat -> Value -> nat -> gmap nat Value -> M (option nat);
  rec_match_value_against_type :
    Binding Value -> Value -> nat -> gmap nat Value -> M (option nat);
  rec_match_type_against_type :
    Value -> Value -> nat -> gmap nat Value -> M (option nat);
  rec_get_type : Value -> M Value
}.

(** Leaving the enclosing function from inside a loop. *)
Definition or_return {S R} (loop : M (S + R)) (k : S -> M R) : M R :=
  r <- loop ;;
  match r with
  | inl s => k s
  | inr x => ret x
  end.

(** _match_all_bindings (lines 755-774) *)
Definition _match_all_bindings (R : Rec) (var : nat) (other_type : Value)
    (subst : nat) (view : gmap nat Value) : M (option nat) :=
  views <- read (get_views [var]) ;;
  or_return
    (for_views views [] (λ new_view new_substs,
       (* new_view.update(view) *)
       let new_view := view ∪ new_view in
       new_subst <- rec_match_var_against_type R var other_type subst new_view ;;
       match new_subst with
       | Some s => ret (Next (new_substs ++ [s]))
       | None => ret (Next new_substs)
       end))
    (λ new_substs,
       match new_substs with
       | _ :: _ => s <- _merge_substs subst new_substs ;; ret (Some s)
       | [] =>
           visible <- read (Filter var) ;;
           match visible with
           | _ :: _ => ret None
           | [] => s <- _subst_with_type_parameters_from subst other_type ;; ret (Some s)
           end
       end).

(** _instantiate_and_match (lines 749-753) *)
Definition _instantiate_and_match (R : Rec) (left other_type : Value) (subst : nat)
    (view : gmap nat Value) (container : Container Value Signature)
  : M (option nat) :=
  instance <- call (instantiate left container) ;;
  _match_all_bindings R instance other_type subst view.

(** _match_type_param_against_type_param (lines 266-290) *)
Definition _match_type_param_against_type_param (R : Rec) (t1 t2 : Value)
    (subst : nat) (view : gmap nat Value) : M (option nat) :=
  match constraints t2, bound t2 with
  | _ :: _, t2_bound =>
      (* constraints and bounds are mutually exclusive *)
      assert (bool_decide (t2_bound = None)) ;;
      match constraints t1 with
      | [] => ret None (* t1 is unconstrained, t2 has constraints *)
      | _ :: _ =>
          if bool_decide (Exists (λ c, c ∉ constraints t2) (constraints t1))
          then ret None (* t1 is more permissive than t2 *)
          else ret (Some subst)
      end
  | [], Some t2_bound =>
      r <- match bound t1 with
           | Some t1_bound =>
               _instantiate_and_match R t1_bound t2_bound subst view container_None
           | None => ret None
           end ;;
      match r with
      | Some new_subst => ret (Some new_subst)
      | None =>
          (* Even if t1 doesn't have a bound, maybe it's constrained to
             subtypes of t2's bound. *)
          match constraints t1 with
          | [] => ret None
          | _ :: _ =>
              or_return
                (for_ (constraints t1) tt (λ t _,
                   new_subst <-
                     _instantiate_and_match R t t2_bound subst view container_None ;;
                   match new_subst with
                   | None => ret (Return None)
                   | Some _ => ret (Next tt)
                   end))
                (λ _, ret (Some subst))
          end
      end
  | [], None => ret (Some subst)
  end.

(** _match_signature_against_callable (lines 701-737); first the body of its
    loop over the arguments (lines 727-736). *)
Definition _match_signature_argument (R : Rec) (sig : Signature) (other_type : Value)
    (view : gmap nat Value) (name : string) (i : nat) (subst : nat)
  : M (flow nat (option nat)) :=
  match formal_type_parameters other_type i with
  | None => raise KeyError
  | Some expected_arg =>
      let actual_arg := default convert_unsolvable (annotations sig !! name) in
      new_subst <- _get_param_matcher other_type actual_arg expected_arg subst ;;
      match new_subst with
      | None =>
          (* Flip actual and expected, since argument types are
             contravariant. *)
          s <- _instantiate_and_match R expected_arg actual_arg subst view
                 (container_value other_type) ;;
          match s with
          | None => ret (Return None)
          | Some s => ret (Next s)
          end
      | Some s => ret (Next s)
      end
  end.

Definition _match_signature_against_callable (R : Rec) (sig : Signature)
    (other_type : Value) (subst : nat) (view : gmap nat Value) : M (option nat) :=
  let param_match := _get_param_matcher other_type in
  let ret_type := default convert_unsolvable (annotations sig !! "return") in
  let other_ret_type := get_formal_type_parameter other_type RET in
  new_subst <- param_match ret_type other_ret_type subst ;;
  r <- match new_subst with
       | None =>
           _instantiate_and_match R ret_type other_ret_type subst view
             (container_signature sig)
       | Some s => ret (Some s)
       end ;;
  match r with
  | None => ret None
  | Some subst =>
      if negb (isinstance other_type abstract_CallableClass) then
        (* other_type does not specify argument types *)
        ret (Some subst)
      else if bool_decide (num_args other_type < mandatory_param_count sig) then ret None
      else if match maximum_param_count sig with
              | Some max_argcount => bool_decide (max_argcount < num_args other_type)
              | None => false
              end then ret None
      else
        or_return
          (for_ (zip (param_names sig) (seq 0 (num_args other_type))) subst
             (λ '(name, i) subst,
                _match_signature_argument R sig other_type view name i subst))
          (λ subst, ret (Some subst))
  end.

(** _match_maybe_parameterized_instance (lines 860-899) *)
Definition _match_maybe_parameterized_instance (R : Rec) (left instance other_type : Value)
    (subst : nat) (view : gmap nat Value) : M (option nat) :=
  if isinstance other_type abstract_ParameterizedClass then
    let walk (left : Value) : M (option nat) :=
      or_return
        (for_ (template left) (subst, view) (λ type_param '(subst, view),
           let class_param := get_formal_type_parameter other_type (name type_param) in
           instance_param <-
             call (get_instance_type_parameter instance (full_name type_param)) ;;
           let instance_type_param := get_formal_type_parameter left (name type_param) in
           bs <- read (var_data instance_param) ;;
           instance_param <-
             (if bool_decide (bs = [])
                 && isinstance instance_type_param abstract_TypeParameter
                 && negb (bool_decide (name instance_type_param = name type_param))
              then (* This type parameter was renamed! *)
                call (get_instance_type_parameter instance (full_name type_param))
              else ret instance_param) ;;
           bs <- read (var_data instance_param) ;;
           view <-
             (if negb (bool_decide (bs = []))
                 && negb (bool_decide (is_Some (view !! instance_param)))
              then
                match bs with
                | [binding] =>
                    assert (isinstance binding abstract_Unsolvable) ;;
                    ret (<[instance_param := binding]> view)
                | _ => raise ValueError
                end
              else ret view) ;;
           s <- rec_match_var_against_type R instance_param class_param subst view ;;
           match s with
           | None => ret (Return None)
           | Some s => ret (Next (s, view))
           end))
        (λ '(subst, _), ret (Some subst)) in
    if isinstance left abstract_ParameterizedClass then
      assert (assert_classes_match (base_cls left) (base_cls other_type)) ;;
      walk left
    else if isinstance_any left AMBIGUOUS_OR_EMPTY then
      s <- _subst_with_type_parameters_from subst other_type ;; ret (Some s)
    else
      assert (assert_classes_match left (base_cls other_type)) ;;
      walk other_type
  else ret (Some subst).

(** _match_heterogeneous_tuple_instance (lines 901-960) *)
Definition _match_heterogeneous_tuple_instance (R : Rec) (left instance other_type : Value)
    (subst : nat) (view : gmap nat Value) : M (option nat) :=
  if isinstance instance abstract_Tuple then
    r <-
      (if isinstance other_type abstract_TupleClass then
         if bool_decide (tuple_length instance = tuple_length other_type) then
           or_return
             (for_ (seq 0 (tuple_length instance)) subst (λ i subst,
                match tuple_pyval instance !! i, formal_type_parameters other_type i with
                | Some instance_param, Some class_param =>
                    s <- rec_match_var_against_type R instance_param class_param
                           subst view ;;
                    match s with
                    | None => ret (Return None)
                    | Some s => ret (Next s)
                    end
                | _, _ => raise KeyError
                end))
             (λ subst, ret (Some subst))
         else ret None
       else if isinstance other_type abstract_ParameterizedClass then
         let class_param := get_formal_type_parameter other_type T in
         let copy_params_directly :=
           bool_decide (full_name class_param = full_name left +:+ "." +:+ T) in
         or_return
           (for_ (tuple_pyval instance) [] (λ instance_param new_substs,
              bs <- read (var_data instance_param) ;;
              if copy_params_directly && negb (bool_decide (bs = [])) then
                match view !! instance_param with
                | None => raise KeyError
                | Some d =>
                    var <- call (NewVariable [d]) ;;
                    new_subst <- dict_display [(full_name class_param, var)] ;;
                    ret (Next (new_substs ++ [new_subst]))
                end
              else
                new_subst <- rec_match_var_against_type R instance_param class_param
                               subst view ;;
                match new_subst with
                | None => ret (Return None)
                | Some s => ret (Next (new_substs ++ [s]))
                end))
           (λ new_substs,
              match new_substs with
              | _ :: _ => s <- _merge_substs subst new_substs ;; ret (Some s)
              | [] => ret (Some subst)
              end)
       else ret (Some subst)) ;;
    match r with
    | None => ret None
    | Some subst =>
        match tuple_pyval instance with
        | [] =>
            (* This call puts the right param names into subst. *)
            _match_maybe_parameterized_instance R left instance other_type subst view
        | _ :: _ => ret (Some subst)
        end
    end
  else if isinstance left abstract_TupleClass then
    (* We have an instance of a subclass of tuple. *)
    _instantiate_and_match R left other_type subst view container_None
  else
    assert (isinstance other_type abstract_TupleClass) ;;
    if isinstance instance abstract_SimpleValue then
      instance_param <- call (get_instance_type_parameter instance T) ;;
      or_return
        (for_ (seq 0 (tuple_length other_type)) subst (λ i subst,
           match formal_type_parameters other_type i with
           | None => raise KeyError
           | Some class_param =>
               s <- rec_match_var_against_type R instance_param class_param subst view ;;
               match s with
               | None => ret (Return None)
               | Some s => ret (Next s)
               end
           end))
        (λ subst, ret (Some subst))
    else ret (Some subst).

(** _match_callable_instance (lines 962-991); first the body of its loop
    over the arguments (lines 980-990). *)
Definition _match_callable_argument (R : Rec) (left other_type : Value)
    (view : gmap nat Value) (i : nat) (subst : nat) : M (flow nat (option nat)) :=
  match formal_type_parameters left i, formal_type_parameters other_type i with
  | Some left_arg, Some right_arg =>
      new_subst <- _get_param_matcher other_type left_arg right_arg subst ;;
      s <- match new_subst with
           | None =>
               (* Flip actual and expected to enforce contravariance of
                  argument types. *)
               _instantiate_and_match R right_arg left_arg subst view
                 (container_value other_type)
           | Some s => ret (Some s)
           end ;;
      match s with
      | None => ret (Return None)
      | Some s => ret (Next s)
      end
  | _, _ => raise KeyError
  end.

Definition _match_callable_instance (R : Rec) (left instance other_type : Value)
    (subst : nat) (view : gmap nat Value) : M (option nat) :=
  if negb (isinstance instance abstract_SimpleValue)
     || negb (isinstance other_type abstract_ParameterizedClass)
  then ret (Some subst)
  else
    instance_ret <- call (get_instance_type_parameter instance RET) ;;
    s <- rec_match_var_against_type R instance_ret
           (get_formal_type_parameter other_type RET) subst view ;;
    match s with
    | None => ret None
    | Some subst =>
        if negb (isinstance left abstract_CallableClass)
           || negb (isinstance other_type abstract_CallableClass)
        then (* One of the types doesn't specify arg types. *)
          ret (Some subst)
        else if negb (bool_decide (num_args left = num_args other_type)) then ret None
        else
          or_return
            (for_ (seq 0 (num_args left)) subst (λ i subst,
               _match_callable_argument R left other_type view i subst))
            (λ subst, ret (Some subst))
    end.

(** _match_instance (lines 832-858) *)
Definition _match_instance (R : Rec) (left instance other_type : Value)
    (subst : nat) (view : gmap nat Value) : M (option nat) :=
  if isinstance left abstract_TupleClass
     || isinstance instance abstract_Tuple
     || isinstance other_type abstract_TupleClass
  then _match_heterogeneous_tuple_instance R left instance other_type subst view
  else if isinstance left abstract_CallableClass
          || isinstance other_type abstract_CallableClass
  then _match_callable_instance R left instance other_type subst view
  else _match_maybe_parameterized_instance R left instance other_type subst view.

(** _get_attribute_for_protocol_matching and _resolve_property_attribute
    (lines 1064-1090) *)
Definition _resolve_property_attribute (cls : Value) (attribute : nat)
    (instance : option Value) : M nat :=
  let instance := default (new_Instance cls) instance in
  resolved_attribute <- call (NewVariable []) ;;
  bs <- read (var_data attribute) ;;
  for_each bs tt (λ b _,
    if isinstance b special_builtins_PropertyInstance then
      self_var <- to_variable instance ;;
      fget' <- call (bind_method (fget b) self_var) ;;
      ret_var <- call (call_function fget') ;;
      call (λ p, (tt, PasteVariable resolved_attribute ret_var p))
    else call (λ p, (tt, AddBinding resolved_attribute b p))) ;;
  ret resolved_attribute.

Definition _get_attribute_for_protocol_matching (cls : Value) (name : string)
    (instance : option Value) : M (option nat) :=
  cls_var <- to_variable cls ;;
  attribute <- call (get_attribute cls name (Some (mkBinding cls_var cls))) ;;
  match attribute with
  | None => ret None
  | Some attribute =>
      ds <- read (var_data attribute) ;;
      if existsb (λ attr, isinstance attr special_builtins_PropertyInstance) ds then
        r <- _resolve_property_attribute cls attribute instance ;; ret (Some r)
      else ret (Some attribute)
  end.

(** _get_type (lines 1092-1109) *)
Definition _get_type (R : Rec) (value : Value) : M Value :=
  let cls := cls value in
  if negb (isinstance_any cls [abstract_PyTDClass; abstract_InterpreterClass])
     || bool_decide (template cls = [])
  then ret cls
  else
    r <- for_ (R:=unit) (template cls) [] (λ param parameters,
           param_value <- call (get_instance_type_parameter value (name param)) ;;
           ds <- read (var_data param_value) ;;
           types <- for_each ds [] (λ v types,
                      t <- rec_get_type R v ;; ret (types ++ [t])) ;;
           match types with
           | [] => ret (Return tt)
           | _ :: _ => ret (Next (parameters ++ [(name param, merge_values types)]))
           end) ;;
    match r with
    | inl parameters => ret (new_ParameterizedClass cls parameters)
    | inr _ => ret cls
    end.

(** _get_attribute_types (lines 1111-1134): the generator, run to its end. *)
Definition _get_attribute_types (R : Rec) (other_type attribute : Value)
  : M (list Value) :=
  if negb (is_callable attribute) then
    typ <- _get_type R attribute ;; ret [typ]
  else
    for_each (get_signatures attribute) [] (λ signature types,
      let callable_signature := signature_to_callable signature in
      let callable_signature :=
        if isinstance callable_signature abstract_CallableClass
        then (* Prevent the matcher from trying to enforce contravariance on
                'self'. *)
          set_formal_type_parameter callable_signature 0 convert_unsolvable
        else callable_signature in
      callable_signature <-
        (if isinstance other_type abstract_ParameterizedClass then
           annotation_subst <-
             dict_new (mkDict (if isinstance (base_cls other_type) abstract_Class
                               then all_formal_type_parameters_uf (base_cls other_type)
                               else []) ∅ []) ;;
           for_each (get_formal_type_parameters other_type) tt (λ '(param, value) _,
             var <- call (instantiate value DUMMY_CONTAINER) ;;
             dict_setitem annotation_subst param var) ;;
           o <- dict_read annotation_subst ;;
           read (sub_one_annotation callable_signature [o])
         else ret callable_signature) ;;
      ret (types ++ [callable_signature])).

(** _match_protocol_attribute (lines 1136-1202) *)
Definition _match_protocol_attribute (R : Rec) (left other_type : Value)
    (attribute : string) (subst : nat) (view : gmap nat Value) : M (option nat) :=
  left_attribute <- _get_attribute_for_protocol_matching (cls left) attribute (Some left) ;;
  left_attribute <-
    match left_attribute with
    | Some a => ret (Some a)
    | None =>
        if bool_decide (attribute = "__iter__") then
          (* left has an implicit __iter__ method implemented using
             __getitem__ under the hood. *)
          a <- call DummyMethod_iter_to_var ;; ret (Some a)
        else call (get_attribute left attribute None)
    end ;;
  match left_attribute with
  | None => raise AssertionError
  | Some left_attribute =>
      protocol_attribute_var <-
        _get_attribute_for_protocol_matching other_type attribute None ;;
      match protocol_attribute_var with
      | None => raise AttributeError
      | Some protocol_attribute_var =>
          left_data <- read (var_data left_attribute) ;;
          protocol_data <- read (var_data protocol_attribute_var) ;;
          if existsb is_callable left_data && forallb is_callable protocol_data
             && negb (isinstance other_type abstract_ParameterizedClass)
          then ret (Some subst)
          else
            (* Every binding of left_attribute needs to match at least one
               binding of protocol_attribute_var. *)
            views <- read (get_views [left_attribute]) ;;
            or_return
              (for_views views [] (λ new_view new_substs,
                 let new_view := view ∪ new_view in
                 r <- for_ protocol_data ([], new_substs)
                        (λ protocol_attribute '(bad_matches, new_substs),
                           protocol_attribute_types <-
                             _get_attribute_types R other_type protocol_attribute ;;
                           r <- for_ protocol_attribute_types new_substs
                                  (λ protocol_attribute_type new_substs,
                                     match_result <-
                                       rec_match_var_against_type R left_attribute
                                         protocol_attribute_type subst new_view ;;
                                     match match_result with
                                     | None =>
                                         match new_view !! left_attribute with
                                         | None => raise KeyError
                                         | Some d => ret (Return (d, new_substs))
                                         end
                                     | Some s => ret (Next (new_substs ++ [s]))
                                     end) ;;
                           match r with
                           | inr (d, new_substs) =>
                               ret (Next (bad_matches ++ [(d, protocol_attribute)],
                                          new_substs))
                           | inl new_substs =>
                               (* all options in protocol_attribute_types match *)
                               ret (Return new_substs)
                           end) ;;
                 match r with
                 | inr new_substs => ret (Next new_substs)
                 | inl (bad_matches, _) =>
                     (* This binding of left_attribute has not matched any
                        binding of protocol_attribute_var. *)
                     match bad_matches with
                     | [] => raise ValueError
                     | _ :: _ =>
                         set_protocol_error
                           (Some (ProtocolTypeError (cls left) other_type attribute
                                    (merge_values bad_matches.*1)
                                    (merge_values bad_matches.*2))) ;;
                         ret (Return None)
                     end
                 end))
              (λ new_substs, s <- _merge_substs subst new_substs ;; ret (Some s))
      end
  end.

(** _match_against_protocol (lines 1029-1062) *)
Definition _match_against_protocol (R : Rec) (left other_type : Value) (subst : nat)
    (view : gmap nat Value) : M (option nat) :=
  if isinstance_any (cls left) AMBIGUOUS_OR_EMPTY then ret (Some subst)
  else if is_dynamic (cls left) then
    s <- _subst_with_type_parameters_from subst other_type ;; ret (Some s)
  else
    let left_attributes := _get_attribute_names left in
    let missing := protocol_attributes other_type ∖ left_attributes in
    if negb (bool_decide (missing = ∅)) then
      (* not all protocol attributes are implemented by 'left' *)
      set_protocol_error
        (Some (ProtocolMissingAttributesError (cls left) other_type missing)) ;;
      ret None
    else
      let key := (cls left, other_type) in
      m <- get_matcher ;;
      if bool_decide (key ∈ _protocol_cache m) then ret (Some subst)
      else
        set_protocol_cache (key :: _protocol_cache m) ;;
        or_return
          (for_ (elements (protocol_attributes other_type)) [] (λ attribute new_substs,
             new_subst <- _match_protocol_attribute R left other_type attribute subst view ;;
             match new_subst with
             | None =>
                 (* _match_protocol_attribute already set _protocol_error. *)
                 ret (Return None)
             | Some s => ret (Next (new_substs ++ [s]))
             end))
          (λ new_substs, s <- _merge_substs subst new_substs ;; ret (Some s)).

(** bad_matches (lines 171-203): the [while] loop drives the generator of
    get_views with [send]. *)
Fixpoint bad_matches_loop (R : Rec) (var : nat) (other_type : Value)
    (views : Views Value) (bad : list (gmap nat Value * ErrorDetails))
  : M (list (gmap nat Value * ErrorDetails)) :=
  match views with
  | StopIteration => ret bad
  | Yield view send =>
      set_protocol_error None ;;
      set_noniterable_str_error None ;;
      subst <- dict_display [] ;;
      r <- rec_match_var_against_type R var other_type subst view ;;
      match r with
      | None =>
          bad <-
            (if HasCombination ((λ kv, mkBinding kv.1 kv.2) <$> map_to_list view) then
               details <- _error_details ;; ret (bad ++ [(view, details)])
             else ret bad) ;;
          (* To get complete error messages, we need to collect all bad
             views, so we can't skip any. *)
          bad_matches_loop R var other_type (send (Some false)) bad
      | Some _ => bad_matches_loop R var other_type (send (Some true)) bad
      end
  end.

Definition bad_matches_with (R : Rec) (var : nat) (other_type : Value)
  : M (list (gmap nat Value * ErrorDetails)) :=
  ds <- read (var_data var) ;;
  if bool_decide (ds = [convert_unsolvable])
     || bool_decide (other_type = convert_unsolvable)
  then (* An unsolvable matches everything. *)
    ret []
  else
    views <- read (get_views [var]) ;;
    bad_matches_loop R var other_type views [].

(** _match_dict_against_typed_dict (lines 993-1011); first its loop over the
    items of the dict (lines 999-1007), which collects [bad]. *)
Definition typed_dict_bad (R : Rec) (left other_type : Value)
  : M (list (string * nat * Value * list (gmap nat Value * ErrorDetails))) :=
  let fields := fields other_type in
  for_each (dict_pyval left) [] (λ '(k, v) bad,
    match fields !! k with
    | None => ret bad
    | Some field =>
        typ <- get_atomic_value field ;;
        b <- bad_matches_with R v typ ;;
        match b with
        | [] => ret bad
        | _ :: _ => ret (bad ++ [(k, v, typ, b)])
        end
    end).

Definition _match_dict_against_typed_dict (R : Rec) (left other_type : Value) : M bool :=
  assert (isinstance other_type typed_dict_TypedDictClass) ;;
  set_typed_dict_error None ;;
  if negb (isinstance left abstract_Dict) then ret false
  else
    let '(missing, extra) := check_keys other_type (dict_pyval left).*1 in
    bad <- typed_dict_bad R left other_type ;;
    if negb (bool_decide (missing = ∅)) || negb (bool_decide (extra = ∅))
       || negb (bool_decide (bad = []))
    then
      set_typed_dict_error (Some (mkTypedDictError bad extra missing)) ;;
      ret false
    else ret true.

(** _match_instance_against_type (lines 776-830) *)
Definition _match_instance_against_type (R : Rec) (left other_type : Value)
    (subst : nat) (view : gmap nat Value) : M (option nat) :=
  if isinstance other_type abstract_LiteralClass then
    let other_value := value other_type in
    if isinstance left abstract_ConcreteValue
       && isinstance other_value abstract_ConcreteValue
    then ret (if bool_decide (pyval left = pyval other_value) then Some subst else None)
    else if isinstance left abstract_Instance && is_enum (cls left)
            && isinstance other_value abstract_Instance && is_enum (cls other_value)
    then
      let names_match := bool_decide (name left = name other_value) in
      let clses_match := bool_decide (cls left = cls other_value) in
      ret (if names_match && clses_match then Some subst else None)
    else ret None
  else if isinstance other_type typed_dict_TypedDictClass then
    ok <- _match_dict_against_typed_dict R left other_type ;;
    if negb ok then ret None else ret (Some subst)
  else if isinstance other_type abstract_Class then
    if negb (_satisfies_noniterable_str (cls left) other_type) then
      set_noniterable_str_error
        (Some (mkNonIterableStrError (cls left) other_type)) ;;
      ret None
    else
      match match_from_mro (cls left) other_type true with
      | None =>
          if is_protocol other_type then
            _track_partially_matched_protocols
              (_match_against_protocol R left other_type subst view)
          else if has_protocol_base other_type then
            (* In the edge case of a protocol being completely empty,
               everything should match. *)
            ret (Some subst)
          else ret None
      | Some base =>
          if isinstance_any base AMBIGUOUS_OR_EMPTY then
            (* An ambiguous base class matches everything. *)
            _match_maybe_parameterized_instance R base left other_type subst view
          else _match_instance R base left other_type subst view
      end
  else if isinstance other_type abstract_Empty then ret None
  else raise NotImplementedError.

(** _match_type_against_callback_protocol (lines 626-649) *)
Definition _match_type_against_callback_protocol (R : Rec) (left other_type : Value)
    (subst : nat) (view : gmap nat Value) : M (option nat) :=
  method_var <- call (get_attribute other_type "__call__" None) ;;
  match method_var with
  | None => ret None
  | Some method_var =>
      ds <- read (var_data method_var) ;;
      if bool_decide (ds = [])
         || existsb (λ v, negb (isinstance v abstract_Function)) ds
      then ret None
      else
        or_return
          (for_ ds [] (λ expected_method new_substs,
             r <- for_ (get_signatures expected_method) tt (λ sig _,
                    let sig := drop_first_parameter sig in (* drop `self` *)
                    let expected_callable := signature_to_callable sig in
                    new_subst <-
                      rec_match_type_against_type R left expected_callable subst view ;;
                    match new_subst with
                    | Some s =>
                        (* For a set of overloaded signatures, only one needs
                           to match. *)
                        ret (Return s)
                    | None => ret (Next tt)
                    end) ;;
             match r with
             | inr s => ret (Next (new_substs ++ [s]))
             | inl _ =>
                 (* Every method_var binding must have a matching signature. *)
                 ret (Return None)
             end))
          (λ new_substs, s <- _merge_substs subst new_substs ;; ret (Some s))
  end.

(** _match_type_against_type (lines 506-624) *)
Definition _match_type_against_type (R : Rec) (left other_type : Value) (subst : nat)
    (view : gmap nat Value) : M (option nat) :=
  if isinstance left abstract_Empty && isinstance other_type abstract_Empty then
    ret (Some subst)
  else if isinstance_any left AMBIGUOUS_OR_EMPTY then
    let params := get_type_parameters other_type in
    let value :=
      if isinstance left abstract_Empty then convert_empty else convert_unsolvable in
    s <- _mutate_type_parameters params value subst ;; ret (Some s)
  else if isinstance left abstract_Class then
    if bool_decide (full_name other_type = "builtins.type")
       && isinstance other_type abstract_ParameterizedClass then
      let other_type := get_formal_type_parameter other_type T in
      _instantiate_and_match R left other_type subst view container_None
    else if bool_decide (full_name other_type = "typing.Callable")
            && isinstance other_type abstract_ParameterizedClass then
      let other_type := get_formal_type_parameter other_type RET in
      _instantiate_and_match R left other_type subst view container_None
    else if bool_decide (full_name other_type ∈
              ["builtins.type"; "builtins.object"; "typing.Callable"; "typing.Hashable"])
    then ret (Some subst)
    else if _is_callback_protocol other_type then
      _match_type_against_callback_protocol R left other_type subst view
    else _match_instance_against_type R left other_type subst view
  else if isinstance left abstract_Module then
    if bool_decide (full_name other_type ∈
         ["builtins.module"; "builtins.object"; "types.ModuleType"; "typing.Hashable"])
    then ret (Some subst)
    else if isinstance other_type abstract_Class && has_protocol_base other_type then
      _match_instance_against_type R left other_type subst view
    else ret None
  else if isinstance_any left FUNCTION_TYPES then
    if bool_decide (full_name other_type = "builtins.object") then ret (Some subst)
    else if bool_decide (full_name other_type = "typing.Callable") then
      if negb (isinstance other_type abstract_ParameterizedClass) then
        (* The callable has no parameters, so any function matches it. *)
        ret (Some subst)
      else if isinstance left abstract_NativeFunction then ret (Some subst)
      else
        let signatures := get_signatures left in
        new_substs <- for_each signatures [] (λ sig new_substs,
                        new_subst <-
                          _match_signature_against_callable R sig other_type subst view ;;
                        match new_subst with
                        | Some s => ret (new_substs ++ [s])
                        | None => ret new_substs
                        end) ;;
        match new_substs with
        | _ :: _ => s <- _merge_substs subst new_substs ;; ret (Some s)
        | [] => ret None
        end
    else if _is_callback_protocol other_type then
      _match_type_against_callback_protocol R left other_type subst view
    else
      rec_match_type_against_type R (new_Instance (cls left)) other_type subst view
  else if isinstance left dataclass_overlay_FieldInstance
          && bool_decide (is_Some (FieldInstance_default left)) then
    match FieldInstance_default left with
    | Some default_var => _match_all_bindings R default_var other_type subst view
    | None => ret None
    end
  else if isinstance left abstract_SimpleValue then
    _match_instance_against_type R left other_type subst view
  else if isinstance left special_builtins_SuperInstance then
    let instance := default (new_Instance (super_cls left)) (super_obj left) in
    _match_instance_against_type R instance other_type subst view
  else if isinstance left abstract_ClassMethod then
    if bool_decide (full_name other_type ∈ ["builtins.classmethod"; "builtins.object"])
    then ret (Some subst)
    else rec_match_type_against_type R (to_bound_function left) other_type subst view
  else if isinstance left abstract_StaticMethod then
    if bool_decide (full_name other_type ∈ ["builtins.staticmethod"; "builtins.object"])
    then ret (Some subst)
    else rec_match_type_against_type R (method left) other_type subst view
  else if isinstance left abstract_Union then
    or_return
      (for_ (options left) tt (λ o _,
         new_subst <- rec_match_type_against_type R o other_type subst view ;;
         match new_subst with
         | Some s => ret (Return (Some s))
         | None => ret (Next tt)
         end))
      (λ _, ret None)
  else if isinstance left abstract_TypeParameterInstance then
    r <- match instance left with
         | container_value left_instance =>
             param_var <-
               call (get_instance_type_parameter left_instance (name (param left))) ;;
             ds <- read (var_data param_var) ;;
             (* If left resolves to itself, calling _match_all_bindings would
                lead to an infinite recursion error. *)
             if negb (bool_decide (ds = []))
                && negb (existsb (λ v, bool_decide (v = left)) ds)
             then
               s <- _match_all_bindings R param_var other_type subst view ;;
               ret (Some s)
             else ret None
         | _ => ret None
         end ;;
    match r with
    | Some s => ret s
    | None =>
        _instantiate_and_match R (param left) other_type subst view container_None
    end
  else raise NotImplementedError.

(** _match_value_against_type (lines 305-504), case by case.  First the case
    of a TypeParameterInstance attached to a callable or a signature (lines
    344-375). *)
Definition attached_to_callable (left : Value) : bool :=
  match instance left with
  | container_value c => isinstance c abstract_CallableClass
  | container_signature _ => true
  | DUMMY_CONTAINER => true
  | container_None => false
  end.

Definition match_TypeParameterInstance (R : Rec) (left other_type : Value)
    (subst : nat) (view : gmap nat Value) : M (option nat) :=
  if isinstance other_type abstract_TypeParameter then
    new_subst <-
      _match_type_param_against_type_param R (param left) other_type subst view ;;
    match new_subst with
    | Some new_subst =>
        subst <- dict_copy new_subst ;;
        var <- call (NewVariable []) ;;
        dict_setitem subst (full_name other_type) var ;;
        ret (Some subst)
    | None =>
        left_dummy <- call (instantiate (param left) DUMMY_CONTAINER) ;;
        right_dummy <- call (instantiate (param left) DUMMY_CONTAINER) ;;
        d <- dict_display [(name (param left), left_dummy);
                           (name other_type, right_dummy)] ;;
        error_subst <- _merge_substs subst [d] ;;
        set_error_subst (Some error_subst) ;;
        ret None
    end
  else
    match instance left with
    | container_value c =>
        if isinstance c abstract_CallableClass then
          (* Argument-matching against a callable: the expected type goes
             on the left, the type parameter on the right. *)
          _instantiate_and_match R other_type (param left) subst view container_None
        else _instantiate_and_match R (param left) other_type subst view container_None
    | _ =>
        (* Return type matching against a callable: instantiate the
           parameter on the left to its upper bound. *)
        _instantiate_and_match R (param left) other_type subst view container_None
    end.

(** The case of a TypeParameter on the right (lines 376-451). *)
Definition match_TypeParameter (R : Rec) (value : Binding Value) (left other_type : Value)
    (subst : nat) (view : gmap nat Value) : M (option nat) :=
  broke <- for_ (R:=unit) (constraints other_type) false (λ c _,
             new_subst <- rec_match_value_against_type R value c subst view ;;
             match new_subst with
             | Some _ => ret (Break true)
             | None => ret (Next false)
             end) ;;
  if negb (bool_decide (broke = inl true))
     && negb (bool_decide (constraints other_type = []))
  then set_error_subst (Some subst) ;; ret None
  else
    bound_ok <-
      match bound other_type with
      | None => ret true
      | Some other_bound =>
          new_subst <- rec_match_value_against_type R value other_bound subst view ;;
          match new_subst with
          | Some _ => ret true
          | None =>
              var <- call (instantiate other_bound DUMMY_CONTAINER) ;;
              new_subst <- dict_display [(full_name other_type, var)] ;;
              error_subst <- _merge_substs subst [new_subst] ;;
              set_error_subst (Some error_subst) ;;
              ret false
          end
      end ;;
    if negb bound_ok then ret None
    else
      bound_in_subst <- dict_contains subst (full_name other_type) ;;
      new_var <-
        (if bound_in_subst then
           (* Merge the two variables. *)
           old_var <- dict_getitem subst (full_name other_type) ;;
           new_var <- call (AssignToNewVariable old_var) ;;
           call (λ p, (tt, AddBinding new_var left p)) ;;
           ret new_var
         else
           let new_left := get_maybe_abstract_instance left in
           new_var <- call (NewVariable []) ;;
           call (λ p, (tt, AddBinding new_var new_left p)) ;;
           ret new_var) ;;
      let type_key := get_type_key left in
      (* Every value with this type key produces the same result when
         matched against other_type. *)
      others <- read (var_data (variable value)) ;;
      for_each others tt (λ other_value _,
        if negb (bool_decide (other_value = data value))
           && bool_decide (get_type_key other_value = type_key)
        then call (λ p, (tt, AddBinding new_var other_value p))
        else ret tt) ;;
      r <-
        (if negb (bool_decide (constraints other_type = [])) then
           new_data <- read (var_data new_var) ;;
           let new_values := _discard_ambiguous_values new_data in
           let has_error := negb (_satisfies_single_type new_values) in
           if negb has_error && negb (bool_decide (new_values = []))
              && bool_decide (length new_values < length new_data)
           then
             (* We can filter out ambiguous values because we've already
                found the single concrete type allowed for this variable. *)
             new_var <- call (NewVariable new_values) ;;
             ret (has_error, subst, new_var)
           else ret (has_error, subst, new_var)
         else if bound_in_subst then
           old_var <- dict_getitem subst (full_name other_type) ;;
           old_values <- read (var_data old_var) ;;
           (* If _discard_ambiguous_values does not discard 'left', then it
              is a concrete value that we need to match. *)
           if negb (bool_decide (old_values = []))
              && negb (bool_decide (_discard_ambiguous_values [left] = []))
           then
             let old_concrete_values := _discard_ambiguous_values old_values in
             (* If any of the previous TypeVar values were ambiguous, then
                we treat the match as a success. *)
             if bool_decide (length old_values = length old_concrete_values) then
               r <- for_ (R:=unit) old_concrete_values (true, subst)
                      (λ old_value '(has_error, subst),
                         r <-
                           (if _satisfies_common_superclass [left; old_value] then
                              ret (false, subst)
                            else if is_protocol (cls old_value) then
                              _track_partially_matched_protocols
                                (new_subst <-
                                   _match_against_protocol R left (cls old_value)
                                     subst view ;;
                                 match new_subst with
                                 | Some s => ret (false, s)
                                 | None => ret (has_error, subst)
                                 end)
                            else ret (has_error, subst)) ;;
                         if negb r.1 then ret (Break r) else ret (Next r)) ;;
               match r with
               | inl (has_error, subst) => ret (has_error, subst, new_var)
               | inr _ => ret (true, subst, new_var)
               end
             else ret (false, subst, new_var)
           else ret (false, subst, new_var)
         else
           new_data <- read (var_data new_var) ;;
           ret (negb (_satisfies_common_superclass
                        (_discard_ambiguous_values new_data)),
                subst, new_var)) ;;
      let '(has_error, subst, new_var) := r in
      if has_error then set_error_subst (Some subst) ;; ret None
      else
        subst <- dict_copy subst ;;
        dict_setitem subst (full_name other_type) new_var ;;
        ret (Some subst).

(** The case of NoReturn on either side (lines 452-461). *)
Definition match_NoReturn (left other_type : Value) (subst : nat) : M (option nat) :=
  if bool_decide (left = other_type) || isinstance other_type abstract_Unsolvable
     || isinstance left abstract_Unsolvable
  then ret (Some subst)
  else ret None.

(** The case of a Union on the right (lines 465-493).  [sorted] is by the key
    (option.formal, index), False before True. *)
Definition option_key_le (a b : nat * Value) : Prop :=
  (formal a.2 = false ∧ formal b.2 = true)
  ∨ (formal a.2 = formal b.2 ∧ a.1 ≤ b.1).

#[local] Instance option_key_le_dec a b : Decision (option_key_le a b).
Proof. unfold option_key_le. apply _. Defined.

Definition sorted_options (other_type : Value) : list (nat * Value) :=
  merge_sort option_key_le (imap (λ i t, (i, t)) (options other_type)).

Definition match_Union_loop (R : Rec) (value : Binding Value) (other_type : Value)
    (view : gmap nat Value) (ts : list Value) (matched : bool) (subst : nat)
  : M (bool * nat + Empty_set) :=
  for_ ts (matched, subst) (λ t '(matched, subst),
    new_subst <- rec_match_value_against_type R value t subst view ;;
    match new_subst with
    | None => ret (Next (matched, subst))
    | Some new_subst =>
        if isinstance_any (data value) AMBIGUOUS_OR_EMPTY || formal t then
          ret (Next (true, new_subst))
        else
          (* Since options without type parameters do not modify subst, we
             can break after the first match.  We still need to fill in
             subst with *something*. *)
          subst <- _subst_with_type_parameters_from new_subst other_type ;;
          ret (Break (true, subst))
    end).

Definition match_Union (R : Rec) (value : Binding Value) (other_type : Value)
    (subst : nat) (view : gmap nat Value) : M (option nat) :=
  r <- match_Union_loop R value other_type view (sorted_options other_type).*2
         false subst ;;
  match r with
  | inl (matched, subst) => ret (if matched then Some subst else None)
  | inr e => match e with end
  end.

(** The dispatch on the unwrapped operands (lines 344-504). *)
Definition dispatch (R : Rec) (value : Binding Value) (left other_type : Value)
    (subst : nat) (view : gmap nat Value) : M (option nat) :=
  if isinstance left abstract_TypeParameterInstance && attached_to_callable left then
    match_TypeParameterInstance R left other_type subst view
  else if isinstance other_type abstract_TypeParameter then
    match_TypeParameter R value left other_type subst view
  else if isinstance other_type typing_overlay_NoReturn
          || isinstance left typing_overlay_NoReturn then
    match_NoReturn left other_type subst
  else if isinstance other_type abstract_Class then
    (* Accumulate substitutions in "subst", or break in case of error: *)
    rec_match_type_against_type R left other_type subst view
  else if isinstance other_type abstract_Union then
    match_Union R value other_type subst view
  else if isinstance_any other_type AMBIGUOUS || isinstance_any left AMBIGUOUS then
    (* We can match anything against unknown types, and unknown types
       against anything. *)
    assert (negb (isinstance other_type abstract_ParameterizedClass)) ;;
    ret (Some subst)
  else if isinstance other_type abstract_Empty then
    rec_match_type_against_type R left other_type subst view
  else ret None.

(** _match_value_against_type (lines 305-504); first its recursion breaker
    (lines 326-330), which tells whether the pair was already in the cache. *)
Definition recursive_annotation_seen (left other_type : Value) : M bool :=
  if is_recursive_annotation other_type then
    let key := (left, other_type) in
    m <- get_matcher ;;
    if bool_decide (key ∈ _recursive_annots_cache m) then ret true
    else
      set_recursive_annots_cache (key :: _recursive_annots_cache m) ;;
      ret false
  else ret false.

Definition _match_value_against_type (R : Rec) (value : Binding Value)
    (other_type : Value) (subst : nat) (view : gmap nat Value) : M (option nat) :=
  let left := data value in
  (* Unwrap Final[T] here *)
  left <- _unwrap_final left ;;
  other_type <- _unwrap_final other_type ;;
  (* Make sure we don't recurse infinitely when matching recursive types. *)
  cached <- recursive_annotation_seen left other_type ;;
  if cached then ret (Some subst)
  else
    left <-
      (if formal left then
         (* 'left' contains a TypeParameter.  We replace all type parameters
            with 'object'. *)
         let type_params := get_type_parameters left in
         obj_var <- to_variable object_instance ;;
         d <- dict_display ((λ p, (full_name p, obj_var)) <$> type_params) ;;
         o <- dict_read d ;;
         read (sub_one_annotation left [o])
       else ret left) ;;
    assert (negb (formal left)) ;;
    dispatch R value left other_type subst view.

(** match_var_against_type (lines 245-264); first the options an empty
    variable is matched against (lines 250-255). *)
Definition right_side_options (other_type : Value) : list Value :=
  let other_type :=
    if isinstance other_type abstract_TupleClass
    then get_formal_type_parameter other_type T else other_type in
  if isinstance other_type abstract_Union then options other_type else [other_type].

Definition match_var_against_type (R : Rec) (var : nat) (other_type : Value)
    (subst : nat) (view : gmap nat Value) : M (option nat) :=
  bs <- read (var_bindings var) ;;
  match bs with
  | _ :: _ =>
      match view !! var with
      | None => raise KeyError
      | Some d => rec_match_value_against_type R (mkBinding var d) other_type subst view
      end
  | [] =>
      (* Empty set of values. The "nothing" type. *)
      subst <- for_each (right_side_options other_type) subst (λ right subst,
                 if isinstance right abstract_TypeParameter then
                   (* If we have a union like "K or V" and we match both
                      against nothing, that will fill in both K and V. *)
                   c <- dict_contains subst (full_name right) ;;
                   if negb c then
                     subst <- dict_copy subst ;;
                     var <- call (NewVariable []) ;;
                     dict_setitem subst (full_name right) var ;;
                     ret subst
                   else ret subst
                 else ret subst) ;;
      (* If this type is empty, we can match it against anything. *)
      ret (Some subst)
  end.

(** The recursion closed: [methods fuel] are the four methods with [fuel]
    nested calls left. *)
Fixpoint methods (fuel : nat) : Rec :=
  match fuel with
  | 0 =>
      mkRec (λ _ _ _ _, out_of_fuel) (λ _ _ _ _, out_of_fuel)
        (λ _ _ _ _, out_of_fuel) (λ _, out_of_fuel)
  | S fuel' =>
      mkRec (match_var_against_type (methods fuel'))
        (_match_value_against_type (methods fuel'))
        (_match_type_against_type (methods fuel'))
        (_get_type (methods fuel'))
  end.

(** compute_subst (lines 121-169) *)
Definition compute_subst (fuel : nat) (formal_args : list (string * Value))
    (arg_dict : gmap string (Binding Value)) (view : gmap nat Value)
    (alias_map : option UnionFind) : M (option nat * option BadParam) :=
  if bool_decide (arg_dict = ∅) then
    (* A call with no arguments always succeeds. *)
    assert (bool_decide (formal_args = [])) ;;
    d <- dict_new (mkDict [] ∅ []) ;;
    ret (Some d, None)
  else
    subst <- dict_new (mkDict (default [] alias_map) ∅ []) ;;
    set_protocol_error None ;;
    set_noniterable_str_error None ;;
    set_error_subst None ;;
    or_return
      (for_ formal_args (subst, None) (λ '(name, formal) '(subst, self_subst),
         match arg_dict !! name with
         | None => raise KeyError
         | Some actual =>
             r <- rec_match_value_against_type (methods fuel) actual formal subst view ;;
             match r with
             | None =>
                 m <- get_matcher ;;
                 error_subst <- match _error_subst m with
                                | Some e => dict_read e
                                | None => ret empty_dict
                                end ;;
                 formal <- read (sub_one_annotation formal [error_subst]) ;;
                 details <- _error_details ;;
                 ret (Return (None, Some (mkBadParam name formal details)))
             | Some subst =>
                 ret (Next (subst, if bool_decide (name = "self")
                                   then Some subst else self_subst))
             end
         end))
      (λ '(subst, self_subst),
         match self_subst with
         | Some self_subst =>
             (* Type parameters matched from a 'self' arg are class
                parameters whose values have been declared by the user. *)
             o <- dict_read self_subst ;;
             for_each (dict_items o) tt (λ '(name, value) _,
               ds <- read (var_data value) ;;
               if existsb (λ v, negb (isinstance v abstract_Empty)) ds
               then dict_setitem subst name value
               else ret tt)
         | None => ret tt
         end ;;
         o <- dict_read subst ;;
         d <- dict_new (mkDict [] (items o) (order o)) ;;
         ret (Some d, None)).

(** bad_matches (lines 171-203) *)
Definition bad_matches (fuel : nat) (var : nat) (other_type : Value)
  : M (list (gmap nat Value * ErrorDetails)) :=
  bad_matches_with (methods fuel) var other_type.

End Matcher.

(** ** A small world of abstract values

    One implementation of the interface, on which the methods run: the builtin
    classes object, int, str, list and dict with instances of them, three
    type variables, a few annotations, a typed dict and a protocol. *)
Module Example.

Inductive obj :=
| Any                 (* convert.unsolvable *)
| Unknown_1           (* an abstract.Unknown *)
| Nothing             (* convert.empty *)
| NoReturn            (* typing.NoReturn *)
| object_cls
| int_cls
| str_cls
| list_cls
| dict_cls
| Iterable_cls        (* typing.Iterable *)
| Iterable_str        (* Iterable[str] *)
| List_T              (* list[T] *)
| List_Json           (* list[Json] *)
| Json                (* the recursive alias Json = Union[int, list[Json]] *)
| T_var               (* T = TypeVar("T"), declared in module foo *)
| S_var               (* S = TypeVar("S", str, int) *)
| B_var               (* B = TypeVar("B", bound=int) *)
| Union_NoReturn_int  (* Union[NoReturn, int] *)
| Union_T_int         (* Union[T, int] *)
| Callable_any_T      (* Callable[..., T] *)
| Callable_T_Any      (* Callable[[T], Any] *)
| Tuple_T_int         (* Tuple[T, int] *)
| Movie_cls           (* class Movie(TypedDict): x: int *)
| SupportsFoo         (* class SupportsFoo(Protocol): def foo(self): ... *)
| Generic_cls         (* typing.Generic *)
| an_object
| an_int
| a_str
| a_generic           (* an instance of typing.Generic *)
| a_callable          (* an instance of Callable[[T], Any] *)
| a_dict              (* an instance of dict, its items not known *)
| a_movie             (* the dict {"x": 1} *)
| a_bad_movie.        (* the dict {"x": "a"} *)

#[export] Instance obj_eq_dec : EqDecision obj.
Proof. solve_decision. Defined.

(** The Python class of each value. *)
Definition type_of (v : obj) : PyClass :=
  match v with
  | Any => abstract_Unsolvable
  | Unknown_1 => abstract_Unknown
  | Nothing => abstract_Empty
  | NoReturn => typing_overlay_NoReturn
  | object_cls | int_cls | str_cls | list_cls | dict_cls | Iterable_cls
  | SupportsFoo | Generic_cls => abstract_PyTDClass
  | Iterable_str | List_T | List_Json | Callable_any_T => abstract_ParameterizedClass
  | Callable_T_Any => abstract_CallableClass
  | Tuple_T_int => abstract_TupleClass
  | Json | Union_NoReturn_int | Union_T_int => abstract_Union
  | T_var | S_var | B_var => abstract_TypeParameter
  | Movie_cls => typed_dict_TypedDictClass
  | an_object | an_int | a_str | a_generic | a_callable | a_dict => abstract_Instance
  | a_movie | a_bad_movie => abstract_Dict
  end.

(** The class hierarchy of pytype.abstract, as far as these classes go. *)
Definition subclass (c d : PyClass) : bool :=
  match d, c with
  | abstract_BaseValue, _ => true
  | abstract_Class,
    (abstract_Class | abstract_PyTDClass | abstract_InterpreterClass
    | abstract_ParameterizedClass | abstract_TupleClass | abstract_CallableClass
    | abstract_LiteralClass | typed_dict_TypedDictClass) => true
  | abstract_ParameterizedClass,
    (abstract_ParameterizedClass | abstract_TupleClass | abstract_CallableClass
    | abstract_LiteralClass) => true
  | abstract_PyTDClass, (abstract_PyTDClass | typed_dict_TypedDictClass) => true
  | abstract_SimpleValue,
    (abstract_SimpleValue | abstract_Instance | abstract_Dict | abstract_Tuple
    | abstract_ConcreteValue | abstract_Module | abstract_Function
    | abstract_NativeFunction | abstract_PyTDClass | abstract_InterpreterClass
    | typed_dict_TypedDictClass | dataclass_overlay_FieldInstance
    | special_builtins_PropertyInstance) => true
  | abstract_Instance,
    (abstract_Instance | abstract_Dict | abstract_Tuple | abstract_ConcreteValue
    | abstract_Module) => true
  | abstract_Function, (abstract_Function | abstract_NativeFunction) => true
  | _, _ => bool_decide (c = d)
  end.

Definition instance_of (c : obj) : obj :=
  match c with
  | object_cls => an_object
  | int_cls => an_int
  | str_cls => a_str
  | _ => Any
  end.

Definition single_view (var : nat) (ds : list obj) : Views obj :=
  foldr (λ d rest, Yield {[var := d]} (λ _, rest)) StopIteration ds.

Inductive signature := sig_f.   (* def f(x: S) -> S *)

#[export] Instance world : Abstract := {|
  Value := obj;
  Signature := signature;
  TypeKey := PyClass;
  PyVal := nat;
  isinstance v c := subclass (type_of v) c;
  formal v :=
    match v with
    | T_var | S_var | B_var | List_T | Union_T_int | Callable_any_T
    | Callable_T_Any | Tuple_T_int => true
    | _ => false
    end;
  full_name v :=
    match v with
    | object_cls => "builtins.object"
    | int_cls => "builtins.int"
    | str_cls => "builtins.str"
    | list_cls | List_T | List_Json => "builtins.list"
    | dict_cls => "builtins.dict"
    | Iterable_cls | Iterable_str => "typing.Iterable"
    | Callable_any_T | Callable_T_Any => "typing.Callable"
    | Tuple_T_int => "builtins.tuple"
    | Generic_cls => "typing.Generic"
    | NoReturn => "typing.NoReturn"
    | T_var => "foo.T"
    | S_var => "foo.S"
    | B_var => "foo.B"
    | Movie_cls => "foo.Movie"
    | SupportsFoo => "foo.SupportsFoo"
    | _ => ""
    end;
  name v :=
    match v with
    | T_var => "T"
    | S_var => "S"
    | B_var => "B"
    | Movie_cls => "Movie"
    | SupportsFoo => "SupportsFoo"
    | _ => ""
    end;
  cls v :=
    match v with
    | an_object => object_cls
    | an_int => int_cls
    | a_str => str_cls
    | a_generic => Generic_cls
    | a_callable => Callable_T_Any
    | a_dict | a_movie | a_bad_movie => dict_cls
    | _ => Any
    end;
  mro v :=
    match v with
    | object_cls => [object_cls]
    | int_cls => [int_cls; object_cls]
    | str_cls => [str_cls; object_cls]
    | list_cls => [list_cls; object_cls]
    | dict_cls => [dict_cls; object_cls]
    | Iterable_cls => [Iterable_cls; object_cls]
    | Movie_cls => [Movie_cls; dict_cls; object_cls]
    | SupportsFoo => [SupportsFoo; object_cls]
    | Generic_cls => [Generic_cls; object_cls]
    | _ => []
    end;
  base_cls v :=
    match v with
    | Iterable_str => Iterable_cls
    | List_T | List_Json => list_cls
    | _ => Any
    end;
  options v :=
    match v with
    | Json => [int_cls; List_Json]
    | Union_NoReturn_int => [NoReturn; int_cls]
    | Union_T_int => [T_var; int_cls]
    | _ => []
    end;
  constraints v := match v with S_var => [str_cls; int_cls] | _ => [] end;
  bound v := match v with B_var => Some int_cls | _ => None end;
  annotation v := v;
  param v := v;
  instance _ := container_None;
  is_protocol v := bool_decide (v = SupportsFoo);
  protocol_attributes v := match v with SupportsFoo => {["foo"]} | _ => ∅ end;
  has_protocol_base v := bool_decide (v = SupportsFoo);
  is_dynamic _ := false;
  is_enum _ := false;
  get_own_attributes v :=
    match v with
    | object_cls => {["__init__"]}
    | int_cls => {["__add__"]}
    | str_cls => {["__getitem__"; "__len__"]}
    | SupportsFoo => {["foo"]}
    | _ => ∅
    end;
  members _ := ∅;
  template _ := [];
  assert_classes_match _ _ := true;
  get_formal_type_parameter v k :=
    match v with
    | Iterable_str => if bool_decide (k = "_T") then str_cls else Any
    | List_T => if bool_decide (k = "_T") then T_var else Any
    | List_Json => if bool_decide (k = "_T") then Json else Any
    | Callable_any_T => if bool_decide (k = "_RET") then T_var else Any
    | Callable_T_Any => if bool_decide (k = "_ARGS") then T_var else Any
    | Tuple_T_int => if bool_decide (k = "_T") then Union_T_int else Any
    | _ => Any
    end;
  formal_type_parameters v i :=
    match v, i with
    | Callable_T_Any, 0 => Some T_var
    | Tuple_T_int, 0 => Some T_var
    | Tuple_T_int, 1 => Some int_cls
    | _, _ => None
    end;
  get_formal_type_parameters _ := [];
  all_formal_type_parameters_uf _ := [];
  set_formal_type_parameter v _ _ := v;
  num_args v := match v with Callable_T_Any => 1 | _ => 0 end;
  tuple_length v := match v with Tuple_T_int => 2 | _ => 0 end;
  tuple_pyval _ := [];
  dict_pyval v :=
    match v with a_movie => [("x", 1)] | a_bad_movie => [("x", 2)] | _ => [] end;
  pyval _ := 0;
  value v := v;
  FieldInstance_default _ := None;
  super_obj _ := None;
  super_cls v := v;
  to_bound_function v := v;
  method v := v;
  fget v := v;
  get_type_key v := type_of v;
  check_keys v keys :=
    match v with
    | Movie_cls => ({["x"]} ∖ list_to_set keys, list_to_set keys ∖ {["x"]})
    | _ => (∅, ∅)
    end;
  fields v := match v with Movie_cls => {["x" := 0]} | _ => ∅ end;
  get_instance_type_parameter _ _ := NewVariable [];
  instantiate v _ := NewVariable [instance_of v];
  annotations s := {["return" := S_var; "x" := S_var]};
  param_names s := ["x"];
  mandatory_param_count s := 1;
  maximum_param_count s := Some 1;
  drop_first_parameter s := s;
  get_signatures _ := [];
  convert_unsolvable := Any;
  convert_empty := Nothing;
  convert_object_type := object_cls;
  object_instance := an_object;
  get_maybe_abstract_instance v := v;
  merge_values vs := Any;
  new_Instance := instance_of;
  new_ParameterizedClass v _ := v;
  signature_to_callable _ := Any;
  get_type_parameters v :=
    match v with
    | T_var | List_T | Union_T_int | Callable_any_T | Tuple_T_int => [T_var]
    | S_var => [S_var]
    | B_var => [B_var]
    | Callable_T_Any => [T_var; T_var]
    | _ => []
    end;
  sub_one_annotation v _ _ := v;
  get_attribute _ _ _ p := (None, p);
  bind_method v _ p := (v, p);
  call_function _ := NewVariable [];
  DummyMethod_iter_to_var := NewVariable [];
  get_views vars p :=
    match vars with
    | [var] => single_view var (default [] (p !! var))
    | _ => StopIteration
    end;
  is_recursive_annotation v := bool_decide (v = Json);
  is_callable _ := false;
  HasCombination _ := true;
  Filter var p := mkBinding var <$> default [] (p !! var);
  T := "_T";
  RET := "_RET";
  ARGS := "_ARGS";
  COMPAT_ITEMS := [("int", "float"); ("bytearray", "bytes")]
|}.

(** The program the examples run in: variable 0 holds the class int (the type
    of Movie's field x), variable 1 the int instance (the value of the dict's
    key x), variables 2 to 6 one value each, variable 7 nothing. *)
Definition program0 : Program obj :=
  [[int_cls]; [an_int]; [a_str]; [an_int]; [NoReturn]; [Unknown_1]; [Any]; []].

Definition heap0 : Heap :=
  mkHeap __init__ program0 [].

(** A heap with one dict, the empty substitution. *)
Definition heap1 : Heap := mkHeap __init__ program0 [empty_dict].

(** A heap where substitution 0 binds foo.T to variable 1 (an int) and
    substitution 1 binds it to variable 2 (a str). *)
Definition heap2 : Heap :=
  mkHeap __init__ program0
    [mkDict [] {["foo.T" := 1]} ["foo.T"]; mkDict [] {["foo.T" := 2]} ["foo.T"]].

End Example.

(** ** A second small world: numbers, tuples, callables and a protocol

    The classes object, int, float and tuple, a class with an Any base, the
    protocol SupportsAdd, three tuple classes and two callable classes, with
    an int, a float, a pair and the method int.__add__. *)
Module Example2.

Inductive obj :=
| Any                 (* convert.unsolvable *)
| Nothing             (* convert.empty *)
| object_cls
| int_cls
| float_cls
| tuple_cls
| Foo_cls             (* class Foo(Any) *)
| SupportsAdd         (* class SupportsAdd(Protocol): def __add__(self, x): ... *)
| Tuple_int           (* Tuple[int] *)
| Tuple_int_int       (* Tuple[int, int] *)
| Tuple_int_float     (* Tuple[int, float] *)
| Callable_0          (* Callable[[], Any] *)
| Callable_2          (* Callable[[int, int], Any] *)
| an_int
| a_float
| a_pair              (* the tuple (an int, a float) *)
| a_callable          (* an instance of a callable class *)
| add_method.         (* the function int.__add__ *)

#[export] Instance obj_eq_dec : EqDecision obj.
Proof. solve_decision. Defined.

Definition type_of (v : obj) : PyClass :=
  match v with
  | Any => abstract_Unsolvable
  | Nothing => abstract_Empty
  | object_cls | int_cls | float_cls | tuple_cls | Foo_cls | SupportsAdd =>
      abstract_PyTDClass
  | Tuple_int | Tuple_int_int | Tuple_int_float => abstract_TupleClass
  | Callable_0 | Callable_2 => abstract_CallableClass
  | an_int | a_float | a_callable => abstract_Instance
  | a_pair => abstract_Tuple
  | add_method => abstract_Function
  end.

Definition single_view (var : nat) (ds : list obj) : Views obj :=
  foldr (λ d rest, Yield {[var := d]} (λ _, rest)) StopIteration ds.

Inductive signature := sig_g.   (* def g(x): ... *)

#[export] Instance world : Abstract := {|
  Value := obj;
  Signature := signature;
  TypeKey := PyClass;
  PyVal := nat;
  isinstance v c := Example.subclass (type_of v) c;
  formal _ := false;
  full_name v :=
    match v with
    | object_cls => "builtins.object"
    | int_cls => "builtins.int"
    | float_cls => "builtins.float"
    | tuple_cls | Tuple_int | Tuple_int_int | Tuple_int_float => "builtins.tuple"
    | Foo_cls => "foo.Foo"
    | SupportsAdd => "foo.SupportsAdd"
    | Callable_0 | Callable_2 => "typing.Callable"
    | _ => ""
    end;
  name _ := "";
  cls v :=
    match v with
    | an_int => int_cls
    | a_float => float_cls
    | a_pair => tuple_cls
    | _ => Any
    end;
  mro v :=
    match v with
    | object_cls => [object_cls]
    | int_cls => [int_cls; object_cls]
    | float_cls => [float_cls; object_cls]
    | tuple_cls => [tuple_cls; object_cls]
    | Foo_cls => [Foo_cls; Any; object_cls]
    | SupportsAdd => [SupportsAdd; object_cls]
    | _ => []
    end;
  base_cls v :=
    match v with
    | Tuple_int | Tuple_int_int | Tuple_int_float => tuple_cls
    | _ => Any
    end;
  options _ := [];
  constraints _ := [];
  bound _ := None;
  annotation v := v;
  param v := v;
  instance _ := container_None;
  is_protocol v := bool_decide (v = SupportsAdd);
  protocol_attributes v := match v with SupportsAdd => {["__add__"]} | _ => ∅ end;
  has_protocol_base v := bool_decide (v = SupportsAdd);
  is_dynamic _ := false;
  is_enum _ := false;
  get_own_attributes v :=
    match v with
    | object_cls => {["__init__"]}
    | int_cls | float_cls | SupportsAdd => {["__add__"]}
    | _ => ∅
    end;
  members _ := ∅;
  template _ := [];
  assert_classes_match _ _ := true;
  get_formal_type_parameter _ _ := Any;
  formal_type_parameters v i :=
    match v, i with
    | (Tuple_int | Tuple_int_int | Tuple_int_float | Callable_2), 0 => Some int_cls
    | (Tuple_int_int | Callable_2), 1 => Some int_cls
    | Tuple_int_float, 1 => Some float_cls
    | _, _ => None
    end;
  get_formal_type_parameters _ := [];
  all_formal_type_parameters_uf _ := [];
  set_formal_type_parameter v _ _ := v;
  num_args v := match v with Callable_2 => 2 | _ => 0 end;
  tuple_length v :=
    match v with
    | a_pair | Tuple_int_int | Tuple_int_float => 2
    | Tuple_int => 1
    | _ => 0
    end;
  tuple_pyval v := match v with a_pair => [1; 2] | _ => [] end;
  dict_pyval _ := [];
  pyval _ := 0;
  value v := v;
  FieldInstance_default _ := None;
  super_obj _ := None;
  super_cls v := v;
  to_bound_function v := v;
  method v := v;
  fget v := v;
  get_type_key v := type_of v;
  check_keys _ _ := (∅, ∅);
  fields _ := ∅;
  get_instance_type_parameter _ _ := NewVariable [];
  instantiate _ _ := NewVariable [Any];
  annotations _ := ∅;
  param_names _ := ["x"];
  mandatory_param_count _ := 1;
  maximum_param_count _ := Some 1;
  drop_first_parameter s := s;
  get_signatures _ := [];
  convert_unsolvable := Any;
  convert_empty := Nothing;
  convert_object_type := object_cls;
  object_instance := Any;
  get_maybe_abstract_instance v := v;
  merge_values _ := Any;
  new_Instance _ := Any;
  new_ParameterizedClass v _ := v;
  signature_to_callable _ := Any;
  get_type_parameters _ := [];
  sub_one_annotation v _ _ := v;
  get_attribute _ name _ p :=
    if bool_decide (name = "__add__") then (Some 0, p) else (None, p);
  bind_method v _ p := (v, p);
  call_function _ := NewVariable [];
  DummyMethod_iter_to_var := NewVariable [];
  get_views vars p :=
    match vars with
    | [var] => single_view var (default [] (p !! var))
    | _ => StopIteration
    end;
  is_recursive_annotation _ := false;
  is_callable v := bool_decide (v = add_method);
  HasCombination _ := true;
  Filter var p := mkBinding var <$> default [] (p !! var);
  T := "_T";
  RET := "_RET";
  ARGS := "_ARGS";
  COMPAT_ITEMS := [("int", "float"); ("bytearray", "bytes")]
|}.

(** The program of the examples: variable 0 holds the method __add__,
    variables 1 and 2 the elements of the pair. *)
Definition program0 : Program obj := [[add_method]; [an_int]; [a_float]].

Definition heap1 : Heap := mkHeap __init__ program0 [empty_dict].

(** A heap where the pair of int and SupportsAdd is in the protocol cache. *)
Definition heap_cached : Heap :=
  mkHeap (mkMatcher [(int_cls, SupportsAdd)] [] None None None None) program0 [empty_dict].

End Example2.
(** * Properties of the matcher *)
Section Properties.
Context `{Abstract}.
Local Notation "x <- m ;; k" := (bind m (λ x, k))
  (at level 100, m at next level, right associativity).
Local Notation "m ;; k" := (bind m (λ _, k))
  (at level 100, right associativity).

(** ** Running the monad *)
Lemma run_bind {A B} (m : M A) (k : A → M B) (h : Heap) :
  bind m k h = match m h with
               | (Ret a, h') => k a h'
               | (Raise e, h') => (Raise e, h')
               | (OutOfFuel, h') => (OutOfFuel, h')
               end.
Proof. reflexivity. Qed.

Lemma run_bind_ret {A B} (m : M A) (k : A → M B) (h h' : Heap) a :
  m h = (Ret a, h') → bind m k h = k a h'.
Proof. intros Hm. by rewrite run_bind, Hm. Qed.

Lemma run_or_return {S R} (loop : M (S + R)) (k : S → M R) (h : Heap) :
  or_return loop k h = match loop h with
                       | (Ret (inl s), h') => k s h'
                       | (Ret (inr x), h') => (Ret x, h')
                       | (Raise e, h') => (Raise e, h')
                       | (OutOfFuel, h') => (OutOfFuel, h')
                       end.
Proof. unfold or_return. rewrite run_bind. by destruct (loop h) as [[[]| |] ?]. Qed.

Lemma run_for_nil {X S R} (s : S) (body : X → S → M (flow S R)) (h : Heap) :
  for_ [] s body h = (Ret (inl s), h).
Proof. reflexivity. Qed.

Lemma run_for_cons {X S R} x xs (s : S) (body : X → S → M (flow S R)) (h : Heap) :
  for_ (x :: xs) s body h
  = match body x s h with
    | (Ret (Next s'), h') => for_ xs s' body h'
    | (Ret (Break s'), h') => (Ret (inl s'), h')
    | (Ret (Return r), h') => (Ret (inr r), h')
    | (Raise e, h') => (Raise e, h')
    | (OutOfFuel, h') => (OutOfFuel, h')
    end.
Proof. cbn [for_]. rewrite run_bind. by destruct (body x s h) as [[[]| |] ?]. Qed.

Lemma run_for_each_cons {X S} x xs (s : S) (body : X → S → M S) (h : Heap) :
  for_each (x :: xs) s body h
  = match body x s h with
    | (Ret s', h') => for_each xs s' body h'
    | (Raise e, h') => (Raise e, h')
    | (OutOfFuel, h') => (OutOfFuel, h')
    end.
Proof. reflexivity. Qed.

(** ** Running the primitives *)
(** The dict a reference denotes in a heap. *)
Definition dict_at (h : Heap) (d : nat) : DictObj := default empty_dict (dicts h !! d).

Lemma alter_ge {A} (f : A → A) (l : list A) i : length l ≤ i → alter f i l = l.
Proof.
  revert i. induction l as [|x l IH]; intros [|i] Hi; simpl in *; try done; try lia.
  f_equal. apply IH. lia.
Qed.

Lemma alter_snoc {A} (f : A → A) (l : list A) x : alter f (length l) (l ++ [x]) = l ++ [f x].
Proof. rewrite <- (Nat.add_0_r (length l)). by rewrite alter_app_r. Qed.

Lemma NewVariable_nil (p : Program Value) : NewVariable [] p = (length p, p ++ [[]]).
Proof. reflexivity. Qed.

Lemma NewVariable_singleton (p : Program Value) v : NewVariable [v] p = (length p, p ++ [[v]]).
Proof. unfold NewVariable, AddBinding. simpl. by rewrite alter_snoc. Qed.

Lemma var_data_app_l (p q : Program Value) v : v < length p → var_data v (p ++ q) = var_data v p.
Proof. intros Hv. unfold var_data. by rewrite lookup_app_l. Qed.

Lemma var_data_snoc (p : Program Value) l : var_data (length p) (p ++ [l]) = l.
Proof. unfold var_data. by rewrite lookup_app_r, Nat.sub_diag. Qed.

Lemma var_data_prefix (p q : Program Value) v : p `prefix_of` q → v < length p → var_data v q = var_data v p.
Proof. intros [k ->] Hv. by apply var_data_app_l. Qed.

Lemma dict_at_prefix h h' d : dicts h `prefix_of` dicts h' → d < length (dicts h) → dict_at h' d = dict_at h d.
Proof. intros [k Hk] Hd. unfold dict_at. rewrite Hk. by rewrite lookup_app_l. Qed.

Lemma dict_at_snoc m p ds o : dict_at (mkHeap m p (ds ++ [o])) (length ds) = o.
Proof. unfold dict_at. simpl. by rewrite lookup_app_r, Nat.sub_diag. Qed.

(** The items of a dict are its entries, each once. *)
Lemma dict_items_Permutation (o : DictObj) : dict_items o ≡ₚ map_to_list (items o).
Proof. unfold dict_items. apply merge_sort_Permutation. Qed.

Lemma elem_of_dict_items (o : DictObj) (k : string) (v : nat) :
  (k, v) ∈ dict_items o ↔ items o !! k = Some v.
Proof. rewrite dict_items_Permutation. apply elem_of_map_to_list. Qed.

Lemma run_ret {A} (a : A) (h : Heap) : ret a h = (Ret a, h).
Proof. reflexivity. Qed.

Lemma run_call {A} (f : Program Value → A * Program Value) (h : Heap) :
  call f h = (Ret (f (program h)).1, mkHeap (matcher h) (f (program h)).2 (dicts h)).
Proof. unfold call. by destruct (f (program h)). Qed.

Lemma run_read {A} (f : Program Value → A) (h : Heap) :
  read f h = (Ret (f (program h)), h).
Proof. reflexivity. Qed.

Lemma run_to_variable (v : Value) (h : Heap) :
  to_variable v h
  = (Ret (length (program h)), mkHeap (matcher h) (program h ++ [[v]]) (dicts h)).
Proof. unfold to_variable. by rewrite run_call, NewVariable_singleton. Qed.

Lemma run_dict_read (d : nat) (h : Heap) : dict_read d h = (Ret (dict_at h d), h).
Proof. reflexivity. Qed.

Lemma run_dict_new (o : DictObj) (h : Heap) :
  dict_new o h = (Ret (length (dicts h)), mkHeap (matcher h) (program h) (dicts h ++ [o])).
Proof. reflexivity. Qed.

Lemma run_dict_copy (d : nat) (h : Heap) :
  dict_copy d h
  = (Ret (length (dicts h)), mkHeap (matcher h) (program h) (dicts h ++ [dict_at h d])).
Proof. reflexivity. Qed.

Lemma run_dict_contains (d : nat) (k : string) (h : Heap) :
  dict_contains d k h = (Ret (contains (dict_at h d) k), h).
Proof. reflexivity. Qed.

Lemma run_dict_setitem (d : nat) (k : string) (var : nat) (h : Heap) :
  dict_setitem d k var h
  = (Ret tt, mkHeap (matcher h) (program h) (alter (setitem k var) d (dicts h))).
Proof. reflexivity. Qed.

Lemma run_get_matcher (h : Heap) : get_matcher h = (Ret (matcher h), h).
Proof. reflexivity. Qed.

(** Stepping through a method: unfold the monad where it is applied to a
    heap, never under a binder. *)
Ltac run :=
  repeat first
    [ rewrite run_bind | rewrite run_ret | rewrite run_to_variable
    | rewrite run_call | rewrite run_read
    | rewrite run_dict_copy | rewrite run_dict_new | rewrite run_dict_read
    | rewrite run_dict_contains | rewrite run_dict_setitem | rewrite run_get_matcher
    | progress cbn [fst snd matcher program dicts] ].


(** ** What a recorded error leaves alone *)
(** Two heaps with the same variables, the same dicts and the same caches:
    they differ at most in the errors recorded in the matcher. *)
Definition same_but_errors (h h' : Heap) : Prop :=
  program h' = program h
  ∧ dicts h' = dicts h
  ∧ _protocol_cache (matcher h') = _protocol_cache (matcher h)
  ∧ _recursive_annots_cache (matcher h') = _recursive_annots_cache (matcher h).

Lemma same_but_errors_refl (h : Heap) : same_but_errors h h.
Proof. by repeat split. Qed.
(** ** Extending a substitution *)
(** [extends keys vals o p o' p']: the dict [o'], in the program [p'], is the
    dict [o] of the program [p] with every key of [keys] bound: the entries
    of [o] are kept, and each added entry is a fresh variable holding [vals],
    for one of the keys. *)
Record extends (keys : list string) (vals : list Value)
    (o : DictObj) (p : Program Value) (o' : DictObj) (p' : Program Value) : Prop := {
  ext_uf : uf o' = uf o;
  ext_keeps : ∀ k v, items o !! k = Some v → items o' !! k = Some v;
  ext_binds : ∀ k, k ∈ keys → contains o' k = true;
  ext_fresh : ∀ k v, items o' !! k = Some v → items o !! k = None →
      length p ≤ v < length p' ∧ var_data v p' = vals
      ∧ ∃ k0, k0 ∈ keys ∧ find_by_name (uf o) k0 = k;
  ext_program : p `prefix_of` p'
}.

Lemma extends_nil vals o p : extends [] vals o p o p.
Proof.
  split; try done.
  - intros k Hk. by apply elem_of_nil in Hk.
  - intros k v Hk Hn. congruence.
Qed.

Lemma extends_bound k vals o p : contains o k = true → extends [k] vals o p o p.
Proof.
  intros Hc. split; try done.
  - intros k' Hk'. apply list_elem_of_singleton in Hk' as ->. done.
  - intros k' v Hk Hn. congruence.
Qed.

Lemma extends_new k vals o p :
  contains o k = false →
  extends [k] vals o p (setitem k (length p) o) (p ++ [vals]).
Proof.
  intros Hc. unfold contains in Hc. apply bool_decide_eq_false in Hc.
  split; simpl.
  - done.
  - intros k' v Hk'. rewrite lookup_insert_ne; [done|]. intros <-. apply Hc. eauto.
  - intros k' Hk'. apply list_elem_of_singleton in Hk' as ->.
    unfold contains. apply bool_decide_eq_true. simpl. rewrite lookup_insert_eq. eauto.
  - intros k' v Hk' Hn.
    destruct (decide (find_by_name (uf o) k = k')) as [<-|Hne].
    + rewrite lookup_insert_eq in Hk'. injection Hk' as <-.
      rewrite length_app. simpl. split; [lia|]. split; [apply var_data_snoc|].
      exists k. split; [by apply list_elem_of_singleton|done].
    + rewrite lookup_insert_ne in Hk' by done. congruence.
  - by apply prefix_app_r.
Qed.

Lemma extends_trans keys1 keys2 vals o p o1 p1 o2 p2 :
  extends keys1 vals o p o1 p1 → extends keys2 vals o1 p1 o2 p2 →
  extends (keys1 ++ keys2) vals o p o2 p2.
Proof.
  intros [Hu1 Hk1 Hb1 Hf1 Hp1] [Hu2 Hk2 Hb2 Hf2 Hp2]. split.
  - congruence.
  - eauto.
  - intros k Hk. apply elem_of_app in Hk as [Hk|Hk]; [|eauto].
    specialize (Hb1 k Hk). unfold contains in *.
    apply bool_decide_eq_true in Hb1 as [v Hv]. apply bool_decide_eq_true.
    rewrite Hu2. eauto.
  - intros k v Hk Hn.
    assert (Hlen : length p ≤ length p1 ∧ length p1 ≤ length p2).
    { split; by apply prefix_length. }
    destruct (items o1 !! k) as [v1|] eqn:E1.
    + assert (v1 = v) as -> by (specialize (Hk2 _ _ E1); congruence).
      destruct (Hf1 k v E1 Hn) as (Hv & Hd & k0 & Hk0 & Hr).
      split; [lia|]. split.
      * rewrite (var_data_prefix _ _ _ Hp2) by lia. done.
      * exists k0. split; [apply elem_of_app; by left|done].
    + destruct (Hf2 k v Hk E1) as (Hv & Hd & k0 & Hk0 & Hr).
      split; [lia|]. split; [done|].
      exists k0. split; [apply elem_of_app; by right|]. by rewrite <- Hu1.
  - by etrans.
Qed.

(** _subst_with_type_parameters_from binds, in a copy of the substitution,
    the name of every type parameter of the type that is not bound yet to a
    fresh variable holding the empty value. *)
Lemma _subst_with_type_parameters_from_loop (ps : list Value) m p ds o :
  ∃ o' p',
    for_each ps tt (λ param _,
      c <- dict_contains (length ds) (name param) ;;
      if negb c then
        var <- to_variable convert_empty ;;
        dict_setitem (length ds) (name param) var
      else ret tt) (mkHeap m p (ds ++ [o]))
    = (Ret tt, mkHeap m p' (ds ++ [o']))
    ∧ extends (name <$> ps) [convert_empty] o p o' p'.
Proof.
  revert p o. induction ps as [|param ps IH]; intros p o.
  - exists o, p. split; [done|apply extends_nil].
  - rewrite run_for_each_cons.
    run. rewrite dict_at_snoc.
    destruct (contains o (name param)) eqn:Hc; cbn [negb].
    + destruct (IH p o) as (o' & p' & Hrun & Hext). exists o', p'. split; [done|].
      change (name <$> param :: ps) with ([name param] ++ (name <$> ps)).
      eapply extends_trans; [by apply extends_bound|done].
    + run. rewrite alter_snoc.
      destruct (IH (p ++ [[convert_empty]]) (setitem (name param) (length p) o))
        as (o' & p' & Hrun & Hext).
      exists o', p'. split; [done|].
      change (name <$> param :: ps) with ([name param] ++ (name <$> ps)).
      eapply extends_trans; [by apply extends_new|done].
Qed.

Lemma _subst_with_type_parameters_from_run (subst : nat) (typ : Value) (h : Heap) :
  ∃ o' p',
    _subst_with_type_parameters_from subst typ h
    = (Ret (length (dicts h)), mkHeap (matcher h) p' (dicts h ++ [o']))
    ∧ extends (name <$> get_type_parameters typ) [convert_empty]
        (dict_at h subst) (program h) o' p'.
Proof.
  unfold _subst_with_type_parameters_from.
  destruct (_subst_with_type_parameters_from_loop (get_type_parameters typ)
              (matcher h) (program h) (dicts h) (dict_at h subst))
    as (o' & p' & Hrun & Hext).
  exists o', p'. split; [|done].
  run. rewrite Hrun. by run.
Qed.

(** ** Matching the empty variable *)
Lemma match_var_against_nothing_loop (opts : list Value) (s : nat) (h : Heap) :
  ∃ d h',
    for_each opts s (λ right subst,
      if isinstance right abstract_TypeParameter then
        c <- dict_contains subst (full_name right) ;;
        if negb c then
          subst <- dict_copy subst ;;
          var <- call (NewVariable []) ;;
          dict_setitem subst (full_name right) var ;;
          ret subst
        else ret subst
      else ret subst) h = (Ret d, h')
    ∧ extends
        (full_name <$> filter (λ t, isinstance t abstract_TypeParameter = true) opts) []
        (dict_at h s) (program h) (dict_at h' d) (program h')
    ∧ dicts h `prefix_of` dicts h'
    ∧ matcher h' = matcher h.
Proof.
  revert s h. induction opts as [|right opts IH]; intros s h.
  - exists s, h. split; [done|]. split; [apply extends_nil|done].
  - rewrite run_for_each_cons.
    destruct (isinstance right abstract_TypeParameter) eqn:Htp.
    2:{ destruct (IH s h) as (d & h' & Hrun & Hf). exists d, h'. split; [done|].
        rewrite filter_cons_False by congruence. done. }
    rewrite filter_cons_True by done.
    change (full_name <$> right :: ?l) with ([full_name right] ++ (full_name <$> l)).
    run.
    destruct (contains (dict_at h s) (full_name right)) eqn:Hc; cbn [negb].
    + destruct (IH s h) as (d & h' & Hrun & Hext & Hd & Hm). exists d, h'.
      split; [done|]. split; [|done].
      eapply extends_trans; [by apply extends_bound|done].
    + run. rewrite alter_snoc, NewVariable_nil. run.
      match goal with |- context [for_each opts ?s1 _ ?h1] =>
        destruct (IH s1 h1) as (d & h' & Hrun & Hext & Hd & Hm) end.
      exists d, h'. split; [done|].
      rewrite dict_at_snoc in Hext. cbn [program dicts matcher] in *.
      split; [|split; [|done]].
      * eapply extends_trans; [by apply extends_new|done].
      * etrans; [|done]. by apply prefix_app_r.
Qed.

(** ** Sequences of matches *)
(** [runs f ok xs h h']: running [f] on the elements of [xs] in turn, from [h],
    returns each time a result that satisfies [ok], and ends in [h']. *)
Inductive runs {X} (f : X → M (option nat)) (ok : option nat → Prop)
  : list X → Heap → Heap → Prop :=
| runs_nil h : runs f ok [] h h
| runs_cons x xs r h h1 h2 :
    f x h = (Ret r, h1) → ok r → runs f ok xs h1 h2 → runs f ok (x :: xs) h h2.

(** [in_turn f xs s h r h']: the elements of [xs] are matched in turn by
    [f], each from the substitution that the one before returned, starting
    from [s] in [h].  The result [r] is the last substitution when they all
    match, and None as soon as one does not match: those after it are not
    tried. *)
Inductive in_turn {X} (f : X → nat → M (option nat))
  : list X → nat → Heap → option nat → Heap → Prop :=
| in_turn_nil s h : in_turn f [] s h (Some s) h
| in_turn_match x xs s s1 h h1 r h2 :
    f x s h = (Ret (Some s1), h1) → in_turn f xs s1 h1 r h2 →
    in_turn f (x :: xs) s h r h2
| in_turn_fail x xs s h h1 :
    f x s h = (Ret None, h1) → in_turn f (x :: xs) s h None h1.

Definition matches_bound (R : Rec) (b : Value) (subst : nat) (view : gmap nat Value)
    (t : Value) : M (option nat) :=
  _instantiate_and_match R t b subst view container_None.

Lemma constraints_loop_all (R : Rec) b subst view cs h h' :
  runs (matches_bound R b subst view) is_Some cs h h' →
  or_return
    (for_ cs tt (λ t _,
       new_subst <- _instantiate_and_match R t b subst view container_None ;;
       match new_subst with
       | None => ret (Return None)
       | Some _ => ret (Next tt)
       end))
    (λ _, ret (Some subst)) h = (Ret (Some subst), h').
Proof.
  induction 1 as [h|t cs r h h1 h2 Hrun [s ->] _ IH]; [done|].
  rewrite run_or_return in *. rewrite run_for_cons, run_bind. unfold matches_bound in Hrun.
  rewrite Hrun. exact IH.
Qed.

Lemma constraints_loop_fail (R : Rec) b subst view pre t post h h1 h2 :
  runs (matches_bound R b subst view) is_Some pre h h1 →
  _instantiate_and_match R t b subst view container_None h1 = (Ret None, h2) →
  or_return
    (for_ (pre ++ t :: post) tt (λ t _,
       new_subst <- _instantiate_and_match R t b subst view container_None ;;
       match new_subst with
       | None => ret (Return None)
       | Some _ => ret (Next tt)
       end))
    (λ _, ret (Some subst)) h = (Ret None, h2).
Proof.
  intros Hpre Hfail. induction Hpre as [h|t' cs r h h1 h3 Hrun [s ->] _ IH].
  - rewrite run_or_return. cbn [app]. rewrite run_for_cons, run_bind, Hfail. done.
  - rewrite run_or_return in *. cbn [app]. rewrite run_for_cons, run_bind.
    unfold matches_bound in Hrun. rewrite Hrun. by apply IH.
Qed.

(** What matching the bound of [t1], if it has one, against the bound of
    [t2] returns. *)
Definition bound_attempt (R : Rec) (t1 b2 : Value) (subst : nat) (view : gmap nat Value)
  : M (option nat) :=
  match bound t1 with
  | Some b1 => _instantiate_and_match R b1 b2 subst view container_None
  | None => ret None
  end.

(** C9: in type-parameter-against-type-parameter matching, when the right
    parameter has constraints the match succeeds exactly when the left one has
    constraints too and they all are among the right ones; when the right
    parameter has a bound instead, the match succeeds with the substitution
    of the bound match if the left bound (when present) matches it, and
    otherwise only if the left parameter has constraints and every one of
    them matches the right bound (the first that does not ends the match);
    a right parameter with both constraints and a bound fails the assertion
    that says they are mutually exclusive. *)
Theorem type_param_against_type_param (R : Rec) (t1 t2 : Value) (subst : nat)
    (view : gmap nat Value) (h : Heap) :
  let run := _match_type_param_against_type_param R t1 t2 subst view h in
  (constraints t2 ≠ [] → bound t2 = None →
     run = (Ret (if bool_decide (constraints t1 ≠ [] ∧ constraints t1 ⊆ constraints t2)
                 then Some subst else None), h))
  ∧ (constraints t2 ≠ [] → is_Some (bound t2) → run = (Raise AssertionError, h))
  ∧ (∀ b2, constraints t2 = [] → bound t2 = Some b2 →
       (∀ s h1, bound_attempt R t1 b2 subst view h = (Ret (Some s), h1) →
          run = (Ret (Some s), h1))
       ∧ (∀ h1, bound_attempt R t1 b2 subst view h = (Ret None, h1) →
            (constraints t1 = [] → run = (Ret None, h1))
            ∧ (∀ h2, constraints t1 ≠ [] →
                 runs (matches_bound R b2 subst view) is_Some (constraints t1) h1 h2 →
                 run = (Ret (Some subst), h2))
            ∧ (∀ pre t post h2 h3, constraints t1 = pre ++ t :: post →
                 runs (matches_bound R b2 subst view) is_Some pre h1 h2 →
                 matches_bound R b2 subst view t h2 = (Ret None, h3) →
                 run = (Ret None, h3))))
  ∧ (constraints t2 = [] → bound t2 = None → run = (Ret (Some subst), h)).
Proof.
  intros run. subst run. unfold _match_type_param_against_type_param.
  split; [|split; [|split]].
  - intros Hc Hb. destruct (constraints t2) as [|c2 cs2] eqn:Ec; [done|]. rewrite Hb.
    rewrite run_bind. cbn [assert]. rewrite bool_decide_eq_true_2 by done.
    destruct (constraints t1) as [|c1 cs1] eqn:E1.
    + rewrite bool_decide_eq_false_2; [done|]. by intros [? _].
    + destruct (decide (Exists (λ c, c ∉ c2 :: cs2) (c1 :: cs1))) as [Hex|Hex].
      * rewrite (bool_decide_eq_true_2 _ Hex).
        rewrite bool_decide_eq_false_2; [done|]. intros [_ Hsub].
        apply Exists_exists in Hex as (c & Hin & Hnin). apply Hnin, Hsub, Hin.
      * rewrite (bool_decide_eq_false_2 _ Hex).
        rewrite bool_decide_eq_true_2; [done|]. split; [done|].
        intros c Hin. destruct (decide (c ∈ c2 :: cs2)); [done|].
        destruct Hex. apply Exists_exists. eauto.
  - intros Hc [b Hb]. destruct (constraints t2) as [|c2 cs2] eqn:Ec; [done|]. rewrite Hb.
    done.
  - intros b2 Hc Hb. rewrite Hc, Hb. unfold bound_attempt. split.
    + intros s h1 Hrun. rewrite run_bind. destruct (bound t1); [|done]. by rewrite Hrun.
    + intros h1 Hrun. rewrite run_bind.
      assert (Hrun' : match bound t1 with
                      | Some t1_bound =>
                          _instantiate_and_match R t1_bound b2 subst view container_None
                      | None => ret None
                      end h = (Ret None, h1)) by exact Hrun.
      rewrite Hrun'. clear Hrun Hrun'.
      split; [|split].
      * by intros ->.
      * intros h2 H1 Hall. destruct (constraints t1) as [|c1 cs1] eqn:E1; [done|].
        by apply constraints_loop_all.
      * intros pre t post h2 h3 H1 Hpre Hfail. rewrite H1.
        destruct (pre ++ t :: post) as [|c1 cs1] eqn:E1; [by destruct pre|]. rewrite <- E1.
        by eapply constraints_loop_fail.
  - intros Hc Hb. by rewrite Hc, Hb.
Qed.

(** ** Protocols: missing attributes *)
(** The attributes a value has explicitly: its members, and the own
    attributes of the classes along the MRO of its class. *)
Definition explicit_attributes (left : Value) : gset string :=
  (if isinstance left abstract_SimpleValue then members left else ∅)
  ∪ ⋃ (get_own_attributes
         <$> filter (λ c, isinstance c abstract_Class = true) (mro (cls left))).

Lemma elem_of_explicit_attributes (left : Value) (a : string) :
  a ∈ explicit_attributes left
  ↔ (isinstance left abstract_SimpleValue = true ∧ a ∈ members left)
    ∨ ∃ c, c ∈ mro (cls left) ∧ isinstance c abstract_Class = true
           ∧ a ∈ get_own_attributes c.
Proof.
  unfold explicit_attributes. rewrite elem_of_union, elem_of_union_list. split.
  - intros [Hm|(X & HX & Ha)].
    + left. destruct (isinstance left abstract_SimpleValue); [done|set_solver].
    + right. apply list_elem_of_fmap in HX as (c & -> & Hc).
      apply list_elem_of_filter in Hc as [? ?]. eauto.
  - intros [[Hs Hm]|(c & Hc & Hk & Ha)].
    + left. by rewrite Hs.
    + right. exists (get_own_attributes c). split; [|done].
      apply list_elem_of_fmap. exists c. split; [done|]. by apply list_elem_of_filter.
Qed.

Lemma _get_attribute_names_explicit (left : Value) :
  _get_attribute_names left
  = if bool_decide ("__getitem__" ∈ explicit_attributes left)
       && negb (bool_decide ("__iter__" ∈ explicit_attributes left))
    then explicit_attributes left ∪ {["__iter__"]}
    else explicit_attributes left.
Proof.
  unfold _get_attribute_names, explicit_attributes.
  destruct (isinstance left abstract_SimpleValue); by rewrite ?(left_id_L ∅ (∪)).
Qed.

Lemma elem_of_get_attribute_names (left : Value) (a : string) :
  a ∈ _get_attribute_names left
  ↔ a ∈ explicit_attributes left
    ∨ (a = "__iter__" ∧ "__getitem__" ∈ explicit_attributes left).
Proof.
  rewrite _get_attribute_names_explicit.
  destruct (decide ("__getitem__" ∈ explicit_attributes left)) as [Hg|Hg];
    destruct (decide ("__iter__" ∈ explicit_attributes left)) as [Hi|Hi];
    rewrite ?(bool_decide_eq_true_2 _ Hg), ?(bool_decide_eq_false_2 _ Hg),
      ?(bool_decide_eq_true_2 _ Hi), ?(bool_decide_eq_false_2 _ Hi); simpl;
    set_solver.
Qed.

(** C8: when an instance whose class is neither ambiguous nor dynamic is
    matched against a protocol and some attribute of the protocol is not
    among the attributes of the instance (its members and the own attributes
    along the MRO of its class, and __iter__ when __getitem__ is among
    them), the match fails, and afterwards the field _protocol_error of the
    matcher holds a ProtocolMissingAttributesError with the class of the
    instance, the protocol and exactly the missing attributes; nothing else
    of the state changes. *)
Theorem protocol_missing_attributes (R : Rec) (left other_type : Value) (subst : nat)
    (view : gmap nat Value) (h : Heap) (a : string) :
  isinstance_any (cls left) AMBIGUOUS_OR_EMPTY = false →
  is_dynamic (cls left) = false →
  a ∈ protocol_attributes other_type →
  a ∉ explicit_attributes left →
  (a = "__iter__" → "__getitem__" ∉ explicit_attributes left) →
  ∃ h' missing,
    _match_against_protocol R left other_type subst view h = (Ret None, h')
    ∧ _protocol_error (matcher h')
      = Some (ProtocolMissingAttributesError (cls left) other_type missing)
    ∧ (∀ b, b ∈ missing
            ↔ b ∈ protocol_attributes other_type
              ∧ b ∉ explicit_attributes left
              ∧ ¬ (b = "__iter__" ∧ "__getitem__" ∈ explicit_attributes left))
    ∧ same_but_errors h h'
    ∧ _noniterable_str_error (matcher h') = _noniterable_str_error (matcher h)
    ∧ _typed_dict_error (matcher h') = _typed_dict_error (matcher h)
    ∧ _error_subst (matcher h') = _error_subst (matcher h).
Proof.
  intros Hamb Hdyn Ha Hne Hiter.
  assert (Hin : ∀ b, b ∈ protocol_attributes other_type ∖ _get_attribute_names left
                     ↔ b ∈ protocol_attributes other_type
                       ∧ b ∉ explicit_attributes left
                       ∧ ¬ (b = "__iter__" ∧ "__getitem__" ∈ explicit_attributes left)).
  { intros b. rewrite elem_of_difference, elem_of_get_attribute_names. tauto. }
  assert (Hmiss : protocol_attributes other_type ∖ _get_attribute_names left ≠ ∅).
  { intros Heq. apply (not_elem_of_empty (C:=gset string) a). rewrite <- Heq.
    apply Hin. split; [done|]. split; [done|]. intros [-> Hg]. by apply Hiter. }
  unfold _match_against_protocol. rewrite Hamb, Hdyn.
  rewrite (bool_decide_eq_false_2 _ Hmiss). cbn [negb]. rewrite run_bind.
  unfold set_protocol_error, set_matcher. rewrite run_ret.
  eexists _, _. split; [reflexivity|]. split; [reflexivity|]. split; [exact Hin|].
  by repeat split.
Qed.

(** ** Typed dicts *)
(** The heap after _match_dict_against_typed_dict has cleared the typed-dict
    error. *)
Definition typed_dict_error_cleared (h : Heap) : Heap :=
  mkHeap
    (mkMatcher (_protocol_cache (matcher h)) (_recursive_annots_cache (matcher h))
       (_protocol_error (matcher h)) (_noniterable_str_error (matcher h))
       None (_error_subst (matcher h)))
    (program h) (dicts h).

(** [checks_fields R other_type kvs h bad h']: the items [kvs] of a dict are
    checked in turn, from [h], against the fields that the typed dict
    [other_type] declares.  An item whose key is not declared is passed
    over.  For a declared key, whose field holds the single type [typ], the
    bad matches of the value against [typ] are computed by bad_matches;
    when there are some, the key, the value, the type and these bad matches
    are an entry of [bad]. *)
Inductive checks_fields (R : Rec) (other_type : Value)
  : list (string * nat) → Heap
    → list (string * nat * Value * list (gmap nat Value * ErrorDetails)) → Heap → Prop :=
| checks_fields_nil h : checks_fields R other_type [] h [] h
| checks_fields_undeclared k v kvs h bad h' :
    fields other_type !! k = None →
    checks_fields R other_type kvs h bad h' →
    checks_fields R other_type ((k, v) :: kvs) h bad h'
| checks_fields_good k v kvs field typ h h1 bad h' :
    fields other_type !! k = Some field →
    var_data field (program h) = [typ] →
    bad_matches_with R v typ h = (Ret [], h1) →
    checks_fields R other_type kvs h1 bad h' →
    checks_fields R other_type ((k, v) :: kvs) h bad h'
| checks_fields_bad k v kvs field typ b h h1 bad h' :
    fields other_type !! k = Some field →
    var_data field (program h) = [typ] →
    bad_matches_with R v typ h = (Ret b, h1) →
    b ≠ [] →
    checks_fields R other_type kvs h1 bad h' →
    checks_fields R other_type ((k, v) :: kvs) h ((k, v, typ, b) :: bad) h'.

Lemma run_get_atomic_value (var : nat) (v : Value) (h : Heap) :
  var_data var (program h) = [v] → get_atomic_value var h = (Ret v, h).
Proof. intros Hv. unfold get_atomic_value. by rewrite run_bind, run_read, Hv. Qed.

Lemma typed_dict_bad_loop (R : Rec) (other_type : Value) kvs h bad h' acc :
  checks_fields R other_type kvs h bad h' →
  for_each kvs acc (λ '(k, v) bad,
    match fields other_type !! k with
    | None => ret bad
    | Some field =>
        typ <- get_atomic_value field ;;
        b <- bad_matches_with R v typ ;;
        match b with
        | [] => ret bad
        | _ :: _ => ret (bad ++ [(k, v, typ, b)])
        end
    end) h = (Ret (acc ++ bad), h').
Proof.
  intros Hc. revert acc.
  induction Hc as [h|k v kvs h bad h' Hk _ IH|k v kvs field typ h h1 bad h' Hk Ht Hb _ IH
                  |k v kvs field typ b h h1 bad h' Hk Ht Hb Hne _ IH]; intros acc.
  - by rewrite app_nil_r.
  - rewrite run_for_each_cons, Hk, run_ret. apply IH.
  - rewrite run_for_each_cons, Hk, run_bind, (run_get_atomic_value _ _ _ Ht).
    rewrite run_bind, Hb, run_ret. apply IH.
  - rewrite run_for_each_cons, Hk, run_bind, (run_get_atomic_value _ _ _ Ht).
    rewrite run_bind, Hb. destruct b as [|b0 b]; [done|]. rewrite run_ret.
    rewrite IH. by rewrite <- app_assoc.
Qed.

Lemma _match_dict_against_typed_dict_run (R : Rec) (left other_type : Value) (h : Heap) :
  isinstance other_type typed_dict_TypedDictClass = true →
  _match_dict_against_typed_dict R left other_type h
  = (if negb (isinstance left abstract_Dict) then ret false
     else
       let '(missing, extra) := check_keys other_type (dict_pyval left).*1 in
       bad <- typed_dict_bad R left other_type ;;
       if negb (bool_decide (missing = ∅)) || negb (bool_decide (extra = ∅))
          || negb (bool_decide (bad = []))
       then
         set_typed_dict_error (Some (mkTypedDictError bad extra missing)) ;;
         ret false
       else ret true) (typed_dict_error_cleared h).
Proof. intros Htd. unfold _match_dict_against_typed_dict. by rewrite Htd. Qed.

(** C7, as the code has it: matching a value against a typed-dict class
    first clears the typed-dict error of the matcher.  A value that is not
    a dict (an abstract.Dict) does not match, and no TypedDictError is
    recorded.  A dict matches if and only if the missing required keys, the
    extra keys and the bad matches of its values against the declared field
    types are all empty; otherwise the match fails, and afterwards the field
    _typed_dict_error of the matcher holds a TypedDictError with exactly
    (bad, extra, missing), nothing else having changed since the values
    were checked. *)
Theorem typed_dict_match (R : Rec) (left other_type : Value) (subst : nat)
    (view : gmap nat Value) (h : Heap) :
  isinstance other_type abstract_LiteralClass = false →
  isinstance other_type typed_dict_TypedDictClass = true →
  let run := _match_instance_against_type R left other_type subst view h in
  (isinstance left abstract_Dict = false →
   ∃ h', run = (Ret None, h')
         ∧ _typed_dict_error (matcher h') = None
         ∧ same_but_errors h h'
         ∧ _protocol_error (matcher h') = _protocol_error (matcher h)
         ∧ _noniterable_str_error (matcher h') = _noniterable_str_error (matcher h)
         ∧ _error_subst (matcher h') = _error_subst (matcher h))
  ∧ (isinstance left abstract_Dict = true →
     ∀ bad h1,
       checks_fields R other_type (dict_pyval left) (typed_dict_error_cleared h) bad h1 →
       let missing := (check_keys other_type (dict_pyval left).*1).1 in
       let extra := (check_keys other_type (dict_pyval left).*1).2 in
       (missing = ∅ ∧ extra = ∅ ∧ bad = [] → run = (Ret (Some subst), h1))
       ∧ (¬ (missing = ∅ ∧ extra = ∅ ∧ bad = []) →
          ∃ h', run = (Ret None, h')
                ∧ _typed_dict_error (matcher h')
                  = Some (mkTypedDictError bad extra missing)
                ∧ same_but_errors h1 h'
                ∧ _protocol_error (matcher h') = _protocol_error (matcher h1)
                ∧ _noniterable_str_error (matcher h')
                  = _noniterable_str_error (matcher h1)
                ∧ _error_subst (matcher h') = _error_subst (matcher h1))).
Proof.
  intros Hlit Htd run. subst run.
  unfold _match_instance_against_type. rewrite Hlit, Htd.
  rewrite run_bind, (_match_dict_against_typed_dict_run _ _ _ _ Htd). split.
  - intros Hdict. rewrite Hdict. cbn [negb]. rewrite run_ret.
    eexists. split; [reflexivity|]. by repeat split.
  - intros Hdict bad h1 Hchecks. rewrite Hdict. cbn [negb].
    destruct (check_keys other_type (dict_pyval left).*1) as [missing extra].
    cbn [fst snd]. rewrite run_bind. unfold typed_dict_bad.
    rewrite (typed_dict_bad_loop R other_type _ _ _ _ [] Hchecks). cbn [app].
    split.
    + intros (-> & -> & ->).
      rewrite !(bool_decide_eq_true_2 (_ = _)) by done. cbn [negb orb].
      by rewrite run_ret.
    + intros Hnot.
      assert (negb (bool_decide (missing = ∅)) || negb (bool_decide (extra = ∅))
              || negb (bool_decide (bad = [])) = true) as ->.
      { repeat case_bool_decide; cbn [negb orb]; try done. by destruct Hnot. }
      rewrite run_bind. unfold set_typed_dict_error, set_matcher. rewrite run_ret.
      eexists. split; [reflexivity|]. by repeat split.
Qed.
(** ** The non-iterable-str guard *)
Definition conflicting_iter_types : list string :=
  ["typing.Iterable"; "typing.Sequence"; "typing.Collection"; "typing.Container"].

Definition str_types : list string := ["builtins.str"; "builtins.unicode"].

Lemma _satisfies_noniterable_str_false (left other_type : Value) :
  _satisfies_noniterable_str left other_type = false
  ↔ full_name other_type ∈ conflicting_iter_types
    ∧ full_name left ∈ str_types
    ∧ isinstance other_type abstract_ParameterizedClass = true
    ∧ full_name (get_formal_type_parameter other_type "_T") ∈ str_types.
Proof.
  unfold _satisfies_noniterable_str.
  fold conflicting_iter_types. fold str_types.
  repeat case_bool_decide; cbn [negb orb];
    destruct (isinstance other_type abstract_ParameterizedClass); naive_solver.
Qed.

(** C6: matching an instance whose class is str or unicode against one of
    Iterable, Sequence, Collection and Container parameterized with a str
    type fails, and afterwards the field _noniterable_str_error of the
    matcher holds a NonIterableStrError with the class of the instance and
    the formal type, nothing else of the state having changed; against the
    unparameterized class, or a parameterization whose element is not a str
    type, the guard does not reject the match. *)
Theorem noniterable_str_guard (R : Rec) (left other_type : Value) (subst : nat)
    (view : gmap nat Value) (h : Heap) :
  isinstance other_type abstract_LiteralClass = false →
  isinstance other_type typed_dict_TypedDictClass = false →
  isinstance other_type abstract_Class = true →
  full_name (cls left) ∈ str_types →
  full_name other_type ∈ conflicting_iter_types →
  (isinstance other_type abstract_ParameterizedClass = true →
   full_name (get_formal_type_parameter other_type "_T") ∈ str_types →
   ∃ h',
     _match_instance_against_type R left other_type subst view h = (Ret None, h')
     ∧ _noniterable_str_error (matcher h')
       = Some (mkNonIterableStrError (cls left) other_type)
     ∧ same_but_errors h h'
     ∧ _protocol_error (matcher h') = _protocol_error (matcher h)
     ∧ _typed_dict_error (matcher h') = _typed_dict_error (matcher h)
     ∧ _error_subst (matcher h') = _error_subst (matcher h))
  ∧ (isinstance other_type abstract_ParameterizedClass = false
     ∨ full_name (get_formal_type_parameter other_type "_T") ∉ str_types →
     _satisfies_noniterable_str (cls left) other_type = true).
Proof.
  intros Hlit Htd Hcls Hstr Hiter. split.
  - intros Hp Hel. unfold _match_instance_against_type. rewrite Hlit, Htd, Hcls.
    assert (Hg : _satisfies_noniterable_str (cls left) other_type = false)
      by (by apply _satisfies_noniterable_str_false).
    rewrite Hg. cbn [negb]. rewrite run_bind.
    unfold set_noniterable_str_error, set_matcher. rewrite run_ret.
    eexists. split; [reflexivity|]. by repeat split.
  - intros Hor. apply not_false_iff_true. intros Hg.
    apply _satisfies_noniterable_str_false in Hg as (_ & _ & Hp & Hel).
    destruct Hor as [Hnp|Hnel]; [congruence|done].
Qed.

(** ** The dispatch of _match_value_against_type *)
(** A value that _unwrap_final leaves as it is. *)
Definition not_Final (v : Value) : Prop :=
  isinstance v abstract_FinalAnnotation = false
  ∧ (isinstance v abstract_Instance && bool_decide (full_name (cls v) = "typing.Final"))
    = false.

Lemma _unwrap_final_not_Final (v : Value) (h : Heap) :
  not_Final v → _unwrap_final v h = (Ret v, h).
Proof. intros [H1 H2]. unfold _unwrap_final. by rewrite H1, H2. Qed.

(** Outside Final wrappers, recursive annotations and formal values on the
    left, _match_value_against_type is the dispatch on its operands. *)
Lemma _match_value_against_type_dispatch (R : Rec) (value : Binding Value)
    (other_type : Value) (subst : nat) (view : gmap nat Value) (h : Heap) :
  not_Final (data value) → not_Final other_type →
  is_recursive_annotation other_type = false →
  formal (data value) = false →
  _match_value_against_type R value other_type subst view h
  = dispatch R value (data value) other_type subst view h.
Proof.
  intros Hl Ho Hrec Hformal. unfold _match_value_against_type.
  rewrite (run_bind_ret _ _ _ _ _ (_unwrap_final_not_Final _ h Hl)).
  rewrite (run_bind_ret _ _ _ _ _ (_unwrap_final_not_Final _ h Ho)).
  unfold recursive_annotation_seen. rewrite Hrec, Hformal.
  cbv [bind ret]. rewrite Hformal. reflexivity.
Qed.

(** *** What precedes the dispatch *)
(** The heap after the pair of a value and a recursive annotation has been
    added to the cache of recursive annotations. *)
Definition with_recursive_pair (left other_type : Value) (h : Heap) : Heap :=
  mkHeap
    (mkMatcher (_protocol_cache (matcher h))
       ((left, other_type) :: _recursive_annots_cache (matcher h))
       (_protocol_error (matcher h)) (_noniterable_str_error (matcher h))
       (_typed_dict_error (matcher h)) (_error_subst (matcher h)))
    (program h) (dicts h).

(** The heap in which a pair that is not in the cache goes on: the pair is
    added to the cache when the formal type is a recursive annotation. *)
Definition met (left other_type : Value) (h : Heap) : Heap :=
  if is_recursive_annotation other_type then with_recursive_pair left other_type h
  else h.

(** A value that contains type parameters is replaced by the annotation in
    which every one of them is object: a new variable holds the instance
    of object, a new dict binds the full name of every type parameter of
    the value to this variable, and the value is substituted with it.  A
    value without type parameters is left alone. *)
Definition with_object_for_parameters (left : Value) (h : Heap) : Value * Heap :=
  if formal left then
    let obj_var := length (program h) in
    let o := foldl (λ o p, setitem (full_name p) obj_var o) empty_dict
               (get_type_parameters left) in
    let p := program h ++ [[object_instance]] in
    (sub_one_annotation left [o] p, mkHeap (matcher h) p (dicts h ++ [o]))
  else (left, h).

(** _match_value_against_type, once Final has been unwrapped on both sides
    and the pair was not found in the cache of recursive annotations, is
    the dispatch on the unwrapped operands. *)
Lemma _match_value_against_type_prelude (R : Rec) (value : Binding Value)
    (other_type : Value) (subst : nat) (view : gmap nat Value) (h : Heap)
    (left other : Value) (h1 h2 : Heap) :
  _unwrap_final (data value) h = (Ret left, h1) →
  _unwrap_final other_type h1 = (Ret other, h2) →
  (is_recursive_annotation other = true →
   (left, other) ∉ _recursive_annots_cache (matcher h2)) →
  formal (with_object_for_parameters left (met left other h2)).1 = false →
  _match_value_against_type R value other_type subst view h
  = dispatch R value (with_object_for_parameters left (met left other h2)).1 other
      subst view (with_object_for_parameters left (met left other h2)).2.
Proof.
  intros Hl Ho Hnew Hformal. unfold _match_value_against_type.
  rewrite (run_bind_ret _ _ _ _ _ Hl), (run_bind_ret _ _ _ _ _ Ho).
  unfold recursive_annotation_seen, met in *.
  destruct (is_recursive_annotation other) eqn:Hrec.
  - rewrite !run_bind, run_get_matcher.
    rewrite (bool_decide_eq_false_2 _ (Hnew eq_refl)).
    rewrite run_bind. unfold set_recursive_annots_cache, set_matcher. rewrite run_ret.
    fold (with_recursive_pair left other h2).
    set (h3 := with_recursive_pair left other h2) in *.
    unfold with_object_for_parameters in *. destruct (formal left) eqn:Hf.
    + cbn [fst snd] in *. rewrite run_bind. run. unfold dict_display. run.
      rewrite dict_at_snoc. rewrite foldl_fmap. cbn [fst snd].
      rewrite Hformal. by run.
    + cbn [fst snd] in *. run. rewrite Hf. by run.
  - rewrite run_bind, run_ret.
    unfold with_object_for_parameters in *. destruct (formal left) eqn:Hf.
    + cbn [fst snd] in *. rewrite run_bind. run. unfold dict_display. run.
      rewrite dict_at_snoc. rewrite foldl_fmap. cbn [fst snd].
      rewrite Hformal. by run.
    + cbn [fst snd] in *. run. rewrite Hf. by run.
Qed.

(** C5, as the code has it: when the match reaches the case of NoReturn,
    that is when, Final unwrapped on both sides, the pair is not in the
    cache of recursive annotations, NoReturn is the value or the formal
    type, the formal type is not a type parameter, and the value is not a
    type parameter instance attached to a callable, the match succeeds, with
    the substitution unchanged, exactly when the two sides are equal or one
    of them is Unsolvable (Any); in every other case, an Unknown on the
    other side included, it fails.  The state is the one in which the
    dispatch started. *)
Theorem NoReturn_matches_itself_or_Any (R : Rec) (value : Binding Value)
    (other_type : Value) (subst : nat) (view : gmap nat Value) (h : Heap)
    (unwrapped other : Value) (h1 h2 : Heap) :
  _unwrap_final (data value) h = (Ret unwrapped, h1) →
  _unwrap_final other_type h1 = (Ret other, h2) →
  (is_recursive_annotation other = true →
   (unwrapped, other) ∉ _recursive_annots_cache (matcher h2)) →
  let left := (with_object_for_parameters unwrapped (met unwrapped other h2)).1 in
  let h' := (with_object_for_parameters unwrapped (met unwrapped other h2)).2 in
  formal left = false →
  isinstance left abstract_TypeParameterInstance && attached_to_callable left = false →
  isinstance other abstract_TypeParameter = false →
  isinstance other typing_overlay_NoReturn = true
    ∨ isinstance left typing_overlay_NoReturn = true →
  _match_value_against_type R value other_type subst view h
  = (Ret (if bool_decide (left = other
                          ∨ isinstance other abstract_Unsolvable = true
                          ∨ isinstance left abstract_Unsolvable = true)
          then Some subst else None), h').
Proof.
  intros Hl Ho Hnew left h' Hformal Htpi Htp Hnr.
  rewrite (_match_value_against_type_prelude R value other_type subst view h
             unwrapped other h1 h2) by done.
  fold left. fold h'.
  unfold dispatch. rewrite Htpi, Htp.
  assert (isinstance other typing_overlay_NoReturn
          || isinstance left typing_overlay_NoReturn = true) as ->
    by (destruct Hnr as [Hn | Hn]; rewrite Hn; [done|apply orb_true_r]).
  unfold match_NoReturn. rewrite !bool_decide_or.
  assert (Hb : ∀ b : bool, bool_decide (b = true) = b) by (by intros []).
  rewrite !Hb.
  by destruct (bool_decide (left = other)),
    (isinstance other abstract_Unsolvable),
    (isinstance left abstract_Unsolvable).
Qed.

(** ** The matcher for single type variables *)
(** The number of times a type parameter occurs in the signature of a
    callable: its occurrences among the type parameters of the callable,
    less, for a CallableClass, its occurrences among the type parameters of
    the Args parameter, which is the union of the arguments and so counts
    them a second time. *)
Definition occurrences (callable_type right : Value) : Z :=
  (Z.of_nat (count_occ Value_eq_dec (get_type_parameters callable_type) right)
   - (if isinstance callable_type abstract_CallableClass
      then Z.of_nat (count_occ Value_eq_dec
                       (get_type_parameters
                          (get_formal_type_parameter callable_type ARGS)) right)
      else 0))%Z.

(** The pairs that the short circuit takes: a type variable on the left,
    bare or not, and on the right a bare type variable that occurs exactly
    once in the callable. *)
Definition single_TypeVar (callable_type left right : Value) : bool :=
  isinstance left abstract_TypeParameter
  && isinstance right abstract_TypeParameter
  && bool_decide (constraints right = [])
  && bool_decide (bound right = None)
  && bool_decide (occurrences callable_type right = 1%Z).

(** The heap after the short circuit: a fresh variable holding the empty
    value, and a copy of the substitution that binds the name of the right
    variable to it. *)
Definition placeholder_bound (right : Value) (subst : nat) (h : Heap) : Heap :=
  mkHeap (matcher h) (program h ++ [[convert_empty]])
    (dicts h ++ [setitem (full_name right) (length (program h)) (dict_at h subst)]).

(** A parameter pair: matched by the short circuit where it applies, with
    the copy of the substitution as the result, and by normal matching
    otherwise. *)
Definition match_param_pair (callable_type left right : Value)
    (normal : nat → M (option nat)) (subst : nat) : M (option nat) :=
  λ h, if single_TypeVar callable_type left right
       then (Ret (Some (length (dicts h))), placeholder_bound right subst h)
       else normal subst h.

Lemma count_of_count_occ (x : Value) (l : list Value) :
  count_of x l = Z.of_nat (count_occ Value_eq_dec l x).
Proof.
  unfold count_of. f_equal. induction l as [|y l IH]; [done|].
  cbn [count_occ]. destruct (Value_eq_dec y x) as [->|Hne].
  - rewrite filter_cons_True by done. cbn [length]. by rewrite IH.
  - by rewrite filter_cons_False.
Qed.

Lemma callable_param_count_occurrences (callable_type right : Value) :
  callable_param_count callable_type right = occurrences callable_type right.
Proof. unfold callable_param_count, occurrences. by rewrite !count_of_count_occ. Qed.

Lemma _get_param_matcher_run (callable_type left right : Value) (subst : nat) (h : Heap) :
  _get_param_matcher callable_type left right subst h
  = if single_TypeVar callable_type left right
    then (Ret (Some (length (dicts h))), placeholder_bound right subst h)
    else (Ret None, h).
Proof.
  unfold _get_param_matcher, single_TypeVar.
  rewrite callable_param_count_occurrences.
  destruct (isinstance left abstract_TypeParameter); [|done].
  destruct (isinstance right abstract_TypeParameter); [|done].
  destruct (bool_decide (constraints right = [])); [|done].
  assert (Hb : bool_decide (is_Some (bound right)) = negb (bool_decide (bound right = None)))
    by (by destruct (bound right)).
  rewrite Hb.
  destruct (bool_decide (bound right = None)); [|done].
  destruct (bool_decide (occurrences callable_type right = 1%Z)); [|done].
  cbn [negb orb andb].
  unfold dict_copy, dict_new, dict_read, call, dict_setitem, bind, ret.
  rewrite NewVariable_singleton. simpl. by rewrite alter_snoc.
Qed.

(** A loop whose body matches one element as [f] does, goes on after a
    match and returns None otherwise, matches the elements in turn. *)
Lemma in_turn_loop {X Y} (f : Y → nat → M (option nat))
    (body : X → nat → M (flow nat (option nat))) (xs : list X) (ys : list Y)
    (s : nat) (h : Heap) (r : option nat) (h' : Heap) :
  Forall2 (λ x y, ∀ s h,
             body x s h = match f y s h with
                          | (Ret (Some s1), h1) => (Ret (Next s1), h1)
                          | (Ret None, h1) => (Ret (Return None), h1)
                          | (Raise e, h1) => (Raise e, h1)
                          | (OutOfFuel, h1) => (OutOfFuel, h1)
                          end) xs ys →
  in_turn f ys s h r h' →
  or_return (for_ xs s body) (λ s, ret (Some s)) h = (Ret r, h').
Proof.
  intros Hxy Hturn. revert xs Hxy.
  induction Hturn as [s h|y ys s s1 h h1 r h2 Hy _ IH|y ys s h h1 Hy]; intros xs Hxy.
  - apply Forall2_nil_inv_r in Hxy as ->. by rewrite run_or_return.
  - apply Forall2_cons_inv_r in Hxy as (x & xs' & Hx & Hxs & ->).
    specialize (IH xs' Hxs). rewrite run_or_return in IH |- *.
    by rewrite run_for_cons, Hx, Hy.
  - apply Forall2_cons_inv_r in Hxy as (x & xs' & Hx & Hxs & ->).
    by rewrite run_or_return, run_for_cons, Hx, Hy.
Qed.

(** C4, as the code has it: before normal matching of a parameter pair, if
    the left side is a type variable (bare or not) and the right side is a
    bare type variable that occurs exactly once in the callable (its
    occurrences among the type parameters of the callable, less those in the
    Args parameter of a CallableClass), the matcher binds the name of the
    right variable, in a copy of the substitution, to a fresh variable
    holding the empty value, and the pair matches without any recursive
    call; otherwise the matcher returns None, changes nothing, and normal
    matching is attempted.  In this way _match_signature_against_callable
    matches the return types, and then, against a CallableClass of a fitting
    number of arguments, the annotations of the parameters with the
    arguments of the callable, in turn; and _match_callable_instance
    matches, after the return types, the arguments of two callable classes
    with the same number of arguments, in turn.  For arguments, normal
    matching is the match of the right side against the left one. *)
Theorem single_TypeVar_short_circuit (R : Rec) (callable_type : Value)
    (view : gmap nat Value) :
  (∀ (left right : Value) (subst : nat) (h : Heap),
     _get_param_matcher callable_type left right subst h
     = if isinstance left abstract_TypeParameter
          && isinstance right abstract_TypeParameter
          && bool_decide (constraints right = [])
          && bool_decide (bound right = None)
          && bool_decide (occurrences callable_type right = 1%Z)
       then (Ret (Some (length (dicts h))),
             mkHeap (matcher h) (program h ++ [[convert_empty]])
               (dicts h ++ [setitem (full_name right) (length (program h))
                              (dict_at h subst)]))
       else (Ret None, h))
  ∧ (∀ (sig : Signature) (subst : nat) (h : Heap) (r : option nat) (h1 : Heap),
       let ret_type := default convert_unsolvable (annotations sig !! "return") in
       let other_ret_type := get_formal_type_parameter callable_type RET in
       let run := _match_signature_against_callable R sig callable_type subst view h in
       match_param_pair callable_type ret_type other_ret_type
         (λ s, _instantiate_and_match R ret_type other_ret_type s view
                 (container_signature sig)) subst h = (Ret r, h1) →
       match r with
       | None => run = (Ret None, h1)
       | Some s0 =>
           (isinstance callable_type abstract_CallableClass = false →
            run = (Ret (Some s0), h1))
           ∧ (isinstance callable_type abstract_CallableClass = true →
              mandatory_param_count sig ≤ num_args callable_type →
              (∀ m, maximum_param_count sig = Some m → num_args callable_type ≤ m) →
              ∀ (pairs : list (Value * Value)) (r' : option nat) (h' : Heap),
                length pairs = length (param_names sig) `min` num_args callable_type →
                (∀ i p, pairs !! i = Some p →
                   ∃ name, param_names sig !! i = Some name
                           ∧ p.1 = default convert_unsolvable (annotations sig !! name)
                           ∧ formal_type_parameters callable_type i = Some p.2) →
                in_turn (λ p, match_param_pair callable_type p.1 p.2
                                (λ s, _instantiate_and_match R p.2 p.1 s view
                                        (container_value callable_type)))
                  pairs s0 h1 r' h' →
                run = (Ret r', h'))
       end)
  ∧ (∀ (left instance : Value) (subst : nat) (h : Heap) (s0 : nat) (h1 : Heap),
       isinstance instance abstract_SimpleValue = true →
       isinstance callable_type abstract_ParameterizedClass = true →
       rec_match_var_against_type R
         (get_instance_type_parameter instance RET (program h)).1
         (get_formal_type_parameter callable_type RET) subst view
         (mkHeap (matcher h) (get_instance_type_parameter instance RET (program h)).2
            (dicts h))
       = (Ret (Some s0), h1) →
       isinstance left abstract_CallableClass = true →
       isinstance callable_type abstract_CallableClass = true →
       num_args left = num_args callable_type →
       ∀ (pairs : list (Value * Value)) (r' : option nat) (h' : Heap),
         length pairs = num_args left →
         (∀ i p, pairs !! i = Some p →
            formal_type_parameters left i = Some p.1
            ∧ formal_type_parameters callable_type i = Some p.2) →
         in_turn (λ p, match_param_pair callable_type p.1 p.2
                         (λ s, _instantiate_and_match R p.2 p.1 s view
                                 (container_value callable_type)))
           pairs s0 h1 r' h' →
         _match_callable_instance R left instance callable_type subst view h
         = (Ret r', h')).
Proof.
  split; [|split].
  - intros left right subst h. apply _get_param_matcher_run.
  - intros sig subst h r h1 ret_type other_ret_type run Hret.
    assert (Hfirst :
      run = match r with
            | None => (Ret None, h1)
            | Some s0 =>
                if negb (isinstance callable_type abstract_CallableClass) then
                  (Ret (Some s0), h1)
                else if bool_decide (num_args callable_type < mandatory_param_count sig)
                then (Ret None, h1)
                else if match maximum_param_count sig with
                        | Some max_argcount =>
                            bool_decide (max_argcount < num_args callable_type)
                        | None => false
                        end then (Ret None, h1)
                else
                  or_return
                    (for_ (zip (param_names sig) (seq 0 (num_args callable_type))) s0
                       (λ '(name, i) subst,
                          _match_signature_argument R sig callable_type view name i subst))
                    (λ subst, ret (Some subst)) h1
            end).
    { subst run. unfold _match_signature_against_callable.
      fold ret_type. fold other_ret_type. rewrite run_bind, _get_param_matcher_run.
      unfold match_param_pair in Hret.
      destruct (single_TypeVar callable_type ret_type other_ret_type).
      - injection Hret as <- <-. rewrite run_bind, run_ret.
        destruct (isinstance callable_type abstract_CallableClass); cbn [negb]; [|done].
        destruct (bool_decide (num_args callable_type < mandatory_param_count sig));
          [done|].
        destruct (maximum_param_count sig) as [m|]; [|done].
        by destruct (bool_decide (m < num_args callable_type)).
      - rewrite run_bind, Hret. destruct r as [s0|]; [|done].
        destruct (isinstance callable_type abstract_CallableClass); cbn [negb]; [|done].
        destruct (bool_decide (num_args callable_type < mandatory_param_count sig));
          [done|].
        destruct (maximum_param_count sig) as [m|]; [|done].
        by destruct (bool_decide (m < num_args callable_type)). }
    rewrite Hfirst. clear Hfirst Hret. destruct r as [s0|]; [|done]. split.
    + by intros ->.
    + intros -> Hmand Hmax pairs r' h' Hlen Hpairs Hturn. cbn [negb].
      rewrite bool_decide_eq_false_2 by lia.
      assert (match maximum_param_count sig with
              | Some max_argcount => bool_decide (max_argcount < num_args callable_type)
              | None => false
              end = false) as ->.
      { destruct (maximum_param_count sig) as [m|]; [|done].
        apply bool_decide_eq_false_2. specialize (Hmax m eq_refl). lia. }
      refine (in_turn_loop _ _ _ pairs _ _ _ _ _ Hturn).
      apply Forall2_same_length_lookup. split.
      { by rewrite length_zip, length_seq. }
      intros i [name j] p Hx Hp s h2.
      apply lookup_zip_with_Some in Hx as (name' & j' & [= <- <-] & Hname & Hj).
      apply lookup_seq in Hj as [-> _]. cbn [plus] in *.
      destruct (Hpairs i p Hp) as (name' & Hname' & Hact & Hexp).
      assert (name' = name) as -> by congruence.
      unfold _match_signature_argument. rewrite Hexp, <- Hact.
      rewrite run_bind, _get_param_matcher_run. unfold match_param_pair.
      destruct (single_TypeVar callable_type p.1 p.2); [done|].
      rewrite run_bind.
      by destruct (_instantiate_and_match R p.2 p.1 s view _ h2) as [[[?|]| |] ?].
  - intros left instance subst h s0 h1 Hsv Hp Hret Hl Ho Hn pairs r' h' Hlen Hpairs Hturn.
    unfold _match_callable_instance. rewrite Hsv, Hp. cbn [negb orb].
    rewrite run_bind, run_call, run_bind, Hret. rewrite Hl, Ho. cbn [negb orb].
    rewrite (bool_decide_eq_true_2 _ Hn). cbn [negb].
    refine (in_turn_loop _ _ _ pairs _ _ _ _ _ Hturn).
    apply Forall2_same_length_lookup. split.
    { by rewrite length_seq. }
    intros i j p Hj Hp' s h2. apply lookup_seq in Hj as [-> _]. cbn [plus].
    destruct (Hpairs i p Hp') as [Hla Hra].
    unfold _match_callable_argument. rewrite Hla, Hra.
    rewrite run_bind, _get_param_matcher_run. unfold match_param_pair.
    destruct (single_TypeVar callable_type p.1 p.2); [by rewrite run_bind|].
    rewrite run_bind.
    by destruct (_instantiate_and_match R p.2 p.1 s view _ h2) as [[[?|]| |] ?].
Qed.
(** ** Matching against a Union *)
#[local] Instance option_key_le_total : Total option_key_le.
Proof.
  intros [i a] [j b]. unfold option_key_le. simpl.
  destruct (formal a), (formal b), (decide (i ≤ j)); naive_solver lia.
Qed.

#[local] Instance option_key_le_trans : Transitive option_key_le.
Proof.
  intros [i a] [j b] [k c]. unfold option_key_le. simpl.
  destruct (formal a), (formal b), (formal c); naive_solver lia.
Qed.

Lemma StronglySorted_lookup_lt {A} (R : relation A) (l : list A) i j a b :
  StronglySorted R l → l !! i = Some a → l !! j = Some b → i < j → R a b.
Proof.
  intros Hs. revert i j. induction Hs as [|x l Hs IH Hx]; intros i j Hi Hj Hij; [done|].
  destruct j as [|j]; [lia|]. simpl in Hj. destruct i as [|i].
  - injection Hi as <-. rewrite Forall_forall in Hx. apply Hx.
    by eapply list_elem_of_lookup_2.
  - simpl in Hi. apply (IH i j); [done..|lia].
Qed.

Lemma sorted_options_Permutation (other_type : Value) :
  (sorted_options other_type).*2 ≡ₚ options other_type.
Proof.
  unfold sorted_options. rewrite merge_sort_Permutation.
  rewrite fmap_imap. induction (options other_type) as [|t ts IH] using rev_ind; [done|].
  rewrite imap_app. simpl. by rewrite IH.
Qed.

(** Options without type parameters come before those with. *)
Lemma sorted_options_order (other_type : Value) i j a b :
  (sorted_options other_type).*2 !! i = Some a →
  (sorted_options other_type).*2 !! j = Some b →
  i < j → formal a = true → formal b = true.
Proof.
  apply (StronglySorted_lookup_lt (λ a b, formal a = true → formal b = true)).
  apply (StronglySorted_fmap _ option_key_le).
  - intros [? x] [? y]. unfold option_key_le. simpl. naive_solver congruence.
  - apply (StronglySorted_merge_sort _).
Qed.

(** Matching the value against one option of the union. *)
Definition tries (R : Rec) (value : Binding Value) (subst : nat) (view : gmap nat Value)
    (t : Value) : M (option nat) :=
  rec_match_value_against_type R value t subst view.

Lemma match_Union_loop_cons (R : Rec) value other_type view t ts matched subst h :
  match_Union_loop R value other_type view (t :: ts) matched subst h
  = match tries R value subst view t h with
    | (Ret None, h1) => match_Union_loop R value other_type view ts matched subst h1
    | (Ret (Some s1), h1) =>
        if isinstance_any (data value) AMBIGUOUS_OR_EMPTY || formal t
        then match_Union_loop R value other_type view ts true s1 h1
        else (s <- _subst_with_type_parameters_from s1 other_type ;;
              ret (inl (true, s))) h1
    | (Raise e, h1) => (Raise e, h1)
    | (OutOfFuel, h1) => (OutOfFuel, h1)
    end.
Proof.
  unfold match_Union_loop at 1. rewrite run_for_cons, run_bind. unfold tries.
  destruct (rec_match_value_against_type R value t subst view h) as [[[s1|]| |] h1];
    try done.
  destruct (isinstance_any (data value) AMBIGUOUS_OR_EMPTY || formal t); [done|].
  rewrite !run_bind.
  by destruct (_subst_with_type_parameters_from s1 other_type h1) as [[| |] ?].
Qed.

Lemma match_Union_loop_all_fail (R : Rec) value other_type view ts matched subst h h' :
  runs (tries R value subst view) (λ r, r = None) ts h h' →
  match_Union_loop R value other_type view ts matched subst h
  = (Ret (inl (matched, subst)), h').
Proof.
  induction 1 as [h|t ts r h h1 h2 Hrun -> _ IH]; [done|].
  by rewrite match_Union_loop_cons, Hrun.
Qed.

Lemma match_Union_loop_true (R : Rec) value other_type view ts subst h s' h' :
  match_Union_loop R value other_type view ts true subst h = (Ret (inl (false, s')), h') →
  False.
Proof.
  revert subst h. induction ts as [|t ts IH]; intros subst h; [done|].
  rewrite match_Union_loop_cons.
  destruct (tries R value subst view t h) as [[[s1|]| |] h1]; try done; [|by eauto].
  destruct (isinstance_any (data value) AMBIGUOUS_OR_EMPTY || formal t); [by eauto|].
  rewrite run_bind.
  by destruct (_subst_with_type_parameters_from s1 other_type h1) as [[| |] ?].
Qed.

Lemma match_Union_loop_None_inv (R : Rec) value other_type view ts subst h s' h' :
  match_Union_loop R value other_type view ts false subst h = (Ret (inl (false, s')), h') →
  runs (tries R value subst view) (λ r, r = None) ts h h'.
Proof.
  revert h. induction ts as [|t ts IH]; intros h.
  - intros [= _ <-]. constructor.
  - rewrite match_Union_loop_cons.
    destruct (tries R value subst view t h) as [[[s1|]| |] h1] eqn:Ht; try done.
    + destruct (isinstance_any (data value) AMBIGUOUS_OR_EMPTY || formal t).
      * intros Hl. by apply match_Union_loop_true in Hl.
      * rewrite run_bind.
        by destruct (_subst_with_type_parameters_from s1 other_type h1) as [[| |] ?].
    + intros Hl. econstructor; eauto.
Qed.

Lemma match_Union_loop_Some_inv (R : Rec) value other_type view ts subst h s' h' :
  match_Union_loop R value other_type view ts false subst h = (Ret (inl (true, s')), h') →
  ∃ pre t post h1 h2 s1,
    ts = pre ++ t :: post
    ∧ runs (tries R value subst view) (λ r, r = None) pre h h1
    ∧ tries R value subst view t h1 = (Ret (Some s1), h2).
Proof.
  revert h. induction ts as [|t ts IH]; intros h; [done|].
  rewrite match_Union_loop_cons.
  destruct (tries R value subst view t h) as [[[s1|]| |] h1] eqn:Ht; try done.
  - intros _. exists [], t, ts, h, h1, s1. split; [done|]. split; [constructor|done].
  - intros Hl. destruct (IH _ Hl) as (pre & t' & post & h2 & h3 & s2 & -> & Hpre & Ht').
    exists (t :: pre), t', post, h2, h3, s2. split; [done|]. split; [|done].
    econstructor; eauto.
Qed.

Lemma match_Union_loop_first (R : Rec) value other_type view pre t post matched subst
    h h1 h2 s1 :
  runs (tries R value subst view) (λ r, r = None) pre h h1 →
  tries R value subst view t h1 = (Ret (Some s1), h2) →
  isinstance_any (data value) AMBIGUOUS_OR_EMPTY || formal t = false →
  match_Union_loop R value other_type view (pre ++ t :: post) matched subst h
  = (s <- _subst_with_type_parameters_from s1 other_type ;; ret (inl (true, s))) h2.
Proof.
  intros Hpre Ht Hc. induction Hpre as [h|t' ts r h h1 h3 Hrun -> _ IH].
  - cbn [app]. by rewrite match_Union_loop_cons, Ht, Hc.
  - cbn [app]. rewrite match_Union_loop_cons, Hrun. by apply IH.
Qed.

(** C3, as the code has it: when the match of a value against a Union
    reaches the case of a union, that is when, Final unwrapped on both sides,
    the pair is not in the cache of recursive annotations, the value is
    neither NoReturn nor a type parameter instance attached to a callable,
    and the union is not a type parameter, NoReturn or a class, then the
    options are tried with those without type parameters first; the match
    fails exactly when every option fails; when it succeeds, some option
    matched; and when an option without type parameters is the first to
    match and the value is not ambiguous or empty, no further option is
    tried and the substitution returned is that of the option extended, for
    every type parameter of the union whose name is not bound yet, by a
    fresh variable holding the empty value, bound to that name.  The
    options are tried in the state in which the dispatch starts: with the
    pair added to the cache when the union is a recursive annotation. *)
Theorem union_match (R : Rec) (value : Binding Value) (other_type : Value)
    (subst : nat) (view : gmap nat Value) (h : Heap)
    (unwrapped other : Value) (hl ho : Heap) :
  _unwrap_final (data value) h = (Ret unwrapped, hl) →
  _unwrap_final other_type hl = (Ret other, ho) →
  (is_recursive_annotation other = true →
   (unwrapped, other) ∉ _recursive_annots_cache (matcher ho)) →
  let left := (with_object_for_parameters unwrapped (met unwrapped other ho)).1 in
  let h0 := (with_object_for_parameters unwrapped (met unwrapped other ho)).2 in
  formal left = false →
  isinstance left abstract_TypeParameterInstance && attached_to_callable left = false →
  isinstance left typing_overlay_NoReturn = false →
  isinstance other abstract_TypeParameter = false →
  isinstance other typing_overlay_NoReturn = false →
  isinstance other abstract_Class = false →
  isinstance other abstract_Union = true →
  let ts := (sorted_options other).*2 in
  let run := _match_value_against_type R value other_type subst view h in
  (ts ≡ₚ options other
   ∧ ∀ i j a b, ts !! i = Some a → ts !! j = Some b → i < j →
                formal a = true → formal b = true)
  ∧ (∀ h', run = (Ret None, h')
           ↔ runs (tries R value subst view) (λ r, r = None) ts h0 h')
  ∧ (∀ d h', run = (Ret (Some d), h') →
       ∃ pre t post h1 h2 s1,
         ts = pre ++ t :: post
         ∧ runs (tries R value subst view) (λ r, r = None) pre h0 h1
         ∧ tries R value subst view t h1 = (Ret (Some s1), h2))
  ∧ (∀ pre t post h1 h2 s1,
       ts = pre ++ t :: post →
       runs (tries R value subst view) (λ r, r = None) pre h0 h1 →
       tries R value subst view t h1 = (Ret (Some s1), h2) →
       formal t = false →
       isinstance_any (data value) AMBIGUOUS_OR_EMPTY = false →
       ∃ o' p',
         run = (Ret (Some (length (dicts h2))),
                mkHeap (matcher h2) p' (dicts h2 ++ [o']))
         ∧ extends (name <$> get_type_parameters other) [convert_empty]
             (dict_at h2 s1) (program h2) o' p').
Proof.
  intros Hl Ho Hnew left h0 Hformal Htpi Hnr2 Htp Hnr1 Hcls Hun ts run.
  assert (Hrun : run = match_Union R value other subst view h0).
  { subst run. rewrite (_match_value_against_type_prelude R value other_type subst view h
                          unwrapped other hl ho) by done.
    fold left. fold h0.
    unfold dispatch. by rewrite Htpi, Htp, Hnr1, Hnr2, Hcls, Hun. }
  rewrite Hrun. clear Hrun run. unfold match_Union. fold ts.
  split; [|split; [|split]].
  - split; [apply sorted_options_Permutation|apply sorted_options_order].
  - intros h'. rewrite run_bind. split.
    + destruct (match_Union_loop R value other view ts false subst h0)
        as [[[[[] s']|[]]| |] h1] eqn:Hloop; try done.
      intros [= <-]. by eapply match_Union_loop_None_inv.
    + intros Hall. by rewrite (match_Union_loop_all_fail _ _ _ _ _ _ _ _ _ Hall).
  - intros d h'. rewrite run_bind.
    destruct (match_Union_loop R value other view ts false subst h0)
      as [[[[[] s']|[]]| |] h1] eqn:Hloop; try done.
    intros [= <- <-]. by eapply match_Union_loop_Some_inv.
  - intros pre t post h1 h2 s1 Hts Hpre Ht Hf Hamb. rewrite Hts, run_bind.
    rewrite (match_Union_loop_first _ _ _ _ _ _ _ _ _ _ _ _ _ Hpre Ht)
      by (by rewrite Hamb, Hf).
    destruct (_subst_with_type_parameters_from_run s1 other h2)
      as (o' & p' & Hs & Hext).
    exists o', p'. split; [|done]. by rewrite run_bind, Hs.
Qed.
(** ** What every method preserves *)
(** [preserves n strict m]: run in a heap with at least [n] dicts, [m] leaves
    the first [n] dicts as they are and removes nothing from the cache of
    recursive annotations; when [strict], it also leaves the protocol cache
    as it is whenever it returns. *)
Definition preserves (n : nat) (strict : bool) {A} (m : M A) : Prop :=
  ∀ h, n ≤ length (dicts h) →
    n ≤ length (dicts (m h).2)
    ∧ take n (dicts (m h).2) = take n (dicts h)
    ∧ _recursive_annots_cache (matcher h) ⊆ _recursive_annots_cache (matcher (m h).2)
    ∧ (strict = true → ∀ a, (m h).1 = Ret a →
         _protocol_cache (matcher (m h).2) = _protocol_cache (matcher h)).

Lemma preserves_weaken n b {A} (m : M A) : preserves n true m → preserves n b m.
Proof.
  intros Hm h Hn. destruct (Hm h Hn) as (? & ? & ? & Hp).
  repeat split; try done. intros _. by apply Hp.
Qed.

Lemma preserves_pure n b {A} (m : M A) :
  (∀ h, (m h).2 = h) → preserves n b m.
Proof. intros Hm h Hn. rewrite Hm. done. Qed.

Lemma preserves_ret n b {A} (a : A) : preserves n b (ret a).
Proof. by apply preserves_pure. Qed.

Lemma preserves_raise n b {A} e : preserves n b (raise (A:=A) e).
Proof. by apply preserves_pure. Qed.

Lemma preserves_out_of_fuel n b {A} : preserves n b (out_of_fuel (A:=A)).
Proof. by apply preserves_pure. Qed.

Lemma preserves_assert n b c : preserves n b (assert c).
Proof. destruct c; by apply preserves_pure. Qed.

Lemma preserves_read n b {A} (f : Program Value → A) : preserves n b (read f).
Proof. by apply preserves_pure. Qed.

Lemma preserves_get_matcher n b : preserves n b get_matcher.
Proof. by apply preserves_pure. Qed.

Lemma preserves_dict_read n b d : preserves n b (dict_read d).
Proof. by apply preserves_pure. Qed.

Lemma preserves_call n b {A} (f : Program Value → A * Program Value) :
  preserves n b (call f).
Proof. intros h Hn. rewrite run_call. done. Qed.

Lemma preserves_bind n b {A B} (m : M A) (k : A → M B) :
  preserves n b m → (∀ a, preserves n b (k a)) → preserves n b (bind m k).
Proof.
  intros Hm Hk h Hn. destruct (Hm h Hn) as (Hn1 & Ht1 & Hc1 & Hp1).
  rewrite run_bind. destruct (m h) as [[a| |] h1] eqn:E; simpl in *; try done.
  - destruct (Hk a h1 Hn1) as (Hn2 & Ht2 & Hc2 & Hp2).
    repeat split; [done|congruence|by etrans|].
    intros Hb r Hr. rewrite (Hp2 Hb r Hr). by apply (Hp1 Hb a).
Qed.

Lemma preserves_bind_dict_new n b {B} (o : DictObj) (k : nat → M B) :
  (∀ d, n ≤ d → preserves n b (k d)) → preserves n b (bind (dict_new o) k).
Proof.
  intros Hk h Hn. rewrite run_bind, run_dict_new.
  assert (Hn' : n ≤ length (dicts (mkHeap (matcher h) (program h) (dicts h ++ [o])))).
  { simpl. rewrite length_app. lia. }
  destruct (Hk (length (dicts h)) Hn _ Hn') as (Hn2 & Ht2 & Hc2 & Hp2).
  repeat split; try done. rewrite Ht2. simpl. by rewrite take_app_le.
Qed.

Lemma preserves_bind_dict_copy n b {B} (s : nat) (k : nat → M B) :
  (∀ d, n ≤ d → preserves n b (k d)) → preserves n b (bind (dict_copy s) k).
Proof.
  intros Hk h Hn. exact (preserves_bind_dict_new n b (dict_at h s) k Hk h Hn).
Qed.

Lemma preserves_bind_dict_display n b {B} kvs (k : nat → M B) :
  (∀ d, n ≤ d → preserves n b (k d)) → preserves n b (bind (dict_display kvs) k).
Proof. apply preserves_bind_dict_new. Qed.

Lemma preserves_dict_contains n b d k : preserves n b (dict_contains d k).
Proof. by apply preserves_pure. Qed.

Lemma preserves_dict_getitem n b d k : preserves n b (dict_getitem d k).
Proof.
  apply preserves_pure. intros h. unfold dict_getitem. run.
  by destruct (items (dict_at h d) !! find_by_name (uf (dict_at h d)) k).
Qed.

Lemma preserves_dict_setitem n b d k var : n ≤ d → preserves n b (dict_setitem d k var).
Proof.
  intros Hd h Hn. rewrite run_dict_setitem. simpl.
  rewrite length_alter, take_alter_ge by done. done.
Qed.

Lemma preserves_get_atomic_value n b var : preserves n b (get_atomic_value var).
Proof.
  apply preserves_pure. intros h. unfold get_atomic_value. run.
  by destruct (var_data var (program h)) as [|? []].
Qed.

Lemma preserves_to_variable n b v : preserves n b (to_variable v).
Proof. apply preserves_call. Qed.

Lemma preserves_set_protocol_error n b e : preserves n b (set_protocol_error e).
Proof. by intros h Hn. Qed.

Lemma preserves_set_noniterable_str_error n b e :
  preserves n b (set_noniterable_str_error e).
Proof. by intros h Hn. Qed.

Lemma preserves_set_typed_dict_error n b e : preserves n b (set_typed_dict_error e).
Proof. by intros h Hn. Qed.

Lemma preserves_set_error_subst n b e : preserves n b (set_error_subst e).
Proof. by intros h Hn. Qed.

Lemma preserves_set_protocol_cache n c : preserves n false (set_protocol_cache c).
Proof. by intros h Hn. Qed.

Lemma preserves__error_details n b : preserves n b _error_details.
Proof. by apply preserves_pure. Qed.

Lemma preserves_recursive_annotation_seen n b left other_type :
  preserves n b (recursive_annotation_seen left other_type).
Proof.
  intros h Hn. unfold recursive_annotation_seen.
  destruct (is_recursive_annotation other_type); [|done]. run.
  destruct (bool_decide _); [done|]. run. unfold set_recursive_annots_cache, set_matcher.
  simpl. repeat split; try done. intros x Hx. by apply elem_of_cons; right.
Qed.

Lemma preserves__track_partially_matched_protocols n b {A} (body : M A) :
  preserves n false body → preserves n b (_track_partially_matched_protocols body).
Proof.
  intros Hbody h Hn. destruct (Hbody h Hn) as (Hn1 & Ht1 & Hc1 & _).
  unfold _track_partially_matched_protocols. run.
  destruct (body h) as [[a| |] h1]; simpl in *; try done.
Qed.

Lemma preserves_or_return n b {S R} (loop : M (S + R)) (k : S → M R) :
  preserves n b loop → (∀ s, preserves n b (k s)) → preserves n b (or_return loop k).
Proof.
  intros Hl Hk. apply preserves_bind; [done|]. intros [s|r]; [done|apply preserves_ret].
Qed.

Lemma preserves_for n b {X S R} (xs : list X) (s : S) (body : X → S → M (flow S R)) :
  (∀ x s, preserves n b (body x s)) → preserves n b (for_ xs s body).
Proof.
  intros Hbody. revert s. induction xs as [|x xs IH]; intros s; [apply preserves_ret|].
  cbn [for_]. apply preserves_bind; [done|]. intros [s'|s'|r]; [done|apply preserves_ret..].
Qed.

Lemma preserves_for_each n b {X S} (xs : list X) (s : S) (body : X → S → M S) :
  (∀ x s, preserves n b (body x s)) → preserves n b (for_each xs s body).
Proof.
  intros Hbody. revert s. induction xs as [|x xs IH]; intros s; [apply preserves_ret|].
  cbn [for_each]. by apply preserves_bind.
Qed.

Lemma preserves_for_views n b {S R} (g : Views Value) (s : S)
    (body : gmap nat Value → S → M (flow S R)) :
  (∀ x s, preserves n b (body x s)) → preserves n b (for_views g s body).
Proof.
  intros Hbody. revert s. induction g as [|view send IH]; intros s; [apply preserves_ret|].
  cbn [for_views]. apply preserves_bind; [done|].
  intros [s'|s'|r]; [apply IH|apply preserves_ret..].
Qed.

(** One step of a preservation proof, by the shape of the method. *)
Ltac preserves_step :=
  lazymatch goal with
  | |- preserves _ _ (ret _) => apply preserves_ret
  | |- preserves _ _ (raise _) => apply preserves_raise
  | |- preserves _ _ out_of_fuel => apply preserves_out_of_fuel
  | |- preserves _ _ (assert _) => apply preserves_assert
  | |- preserves _ _ (read _) => apply preserves_read
  | |- preserves _ _ (call _) => apply preserves_call
  | |- preserves _ _ (to_variable _) => apply preserves_to_variable
  | |- preserves _ _ get_matcher => apply preserves_get_matcher
  | |- preserves _ _ _error_details => apply preserves__error_details
  | |- preserves _ _ (get_atomic_value _) => apply preserves_get_atomic_value
  | |- preserves _ _ (dict_read _) => apply preserves_dict_read
  | |- preserves _ _ (dict_contains _ _) => apply preserves_dict_contains
  | |- preserves _ _ (dict_getitem _ _) => apply preserves_dict_getitem
  | |- preserves _ _ (dict_setitem _ _ _) =>
      apply preserves_dict_setitem; first [assumption | lia]
  | |- preserves _ _ (set_protocol_error _) => apply preserves_set_protocol_error
  | |- preserves _ _ (set_noniterable_str_error _) =>
      apply preserves_set_noniterable_str_error
  | |- preserves _ _ (set_typed_dict_error _) => apply preserves_set_typed_dict_error
  | |- preserves _ _ (set_error_subst _) => apply preserves_set_error_subst
  | |- preserves _ false (set_protocol_cache _) => apply preserves_set_protocol_cache
  | |- preserves _ _ (recursive_annotation_seen _ _) =>
      apply preserves_recursive_annotation_seen
  | |- preserves _ _ (_track_partially_matched_protocols _) =>
      apply preserves__track_partially_matched_protocols
  | |- preserves _ _ (bind (dict_new _) _) => apply preserves_bind_dict_new; intros ? ?
  | |- preserves _ _ (bind (dict_copy _) _) => apply preserves_bind_dict_copy; intros ? ?
  | |- preserves _ _ (bind (dict_display _) _) =>
      apply preserves_bind_dict_display; intros ? ?
  | |- preserves _ _ (bind _ _) => apply preserves_bind; [|intros ?]
  | |- preserves _ _ (or_return _ _) => apply preserves_or_return; [|intros ?]
  | |- preserves _ _ (for_ _ _ _) => apply preserves_for; intros ? ?
  | |- preserves _ _ (for_each _ _ _) => apply preserves_for_each; intros ? ?
  | |- preserves _ _ (for_views _ _ _) => apply preserves_for_views; intros ? ?
  | |- preserves _ _ (if ?c then _ else _) => destruct c
  | |- preserves _ _ (match ?x with _ => _ end) => destruct x
  | |- preserves _ _ ((let '(_, _) := ?x in _) _) => destruct x; cbv beta
  | |- preserves _ _ ((let '(_, _) := ?x in _) _ _) => destruct x; cbv beta
  | |- preserves _ _ _ => solve [eauto with preserves]
  end.

Ltac preserves_auto := cbv zeta; repeat preserves_step.

Create HintDb preserves.

(** The methods the recursion goes through, each preserving. *)
Record Rec_preserves (n : nat) (R : Rec) : Prop := {
  preserves_rec_match_var_against_type : ∀ b var other_type subst view,
    preserves n b (rec_match_var_against_type R var other_type subst view);
  preserves_rec_match_value_against_type : ∀ b value other_type subst view,
    preserves n b (rec_match_value_against_type R value other_type subst view);
  preserves_rec_match_type_against_type : ∀ b left other_type subst view,
    preserves n b (rec_match_type_against_type R left other_type subst view);
  preserves_rec_get_type : ∀ b value, preserves n b (rec_get_type R value)
}.

Section Preservation.
Variable n : nat.
Variable R : Rec.
Hypothesis HR : Rec_preserves n R.

#[local] Hint Resolve preserves_rec_match_var_against_type
  preserves_rec_match_value_against_type preserves_rec_match_type_against_type
  preserves_rec_get_type : preserves.

Lemma preserves__merge_substs b subst new_substs :
  preserves n b (_merge_substs subst new_substs).
Proof. unfold _merge_substs. preserves_auto. Qed.
#[local] Hint Resolve preserves__merge_substs : preserves.

Lemma preserves__subst_with_type_parameters_from b subst typ :
  preserves n b (_subst_with_type_parameters_from subst typ).
Proof. unfold _subst_with_type_parameters_from. preserves_auto. Qed.
#[local] Hint Resolve preserves__subst_with_type_parameters_from : preserves.

Lemma preserves__mutate_type_parameters b params value subst :
  preserves n b (_mutate_type_parameters params value subst).
Proof. unfold _mutate_type_parameters. preserves_auto. Qed.
#[local] Hint Resolve preserves__mutate_type_parameters : preserves.

Lemma preserves__get_param_matcher b callable_type left right subst :
  preserves n b (_get_param_matcher callable_type left right subst).
Proof. unfold _get_param_matcher. preserves_auto. Qed.
#[local] Hint Resolve preserves__get_param_matcher : preserves.

Lemma preserves__unwrap_final b val : preserves n b (_unwrap_final val).
Proof. unfold _unwrap_final. preserves_auto. Qed.
#[local] Hint Resolve preserves__unwrap_final : preserves.

Lemma preserves__match_all_bindings b var other_type subst view :
  preserves n b (_match_all_bindings R var other_type subst view).
Proof. unfold _match_all_bindings. preserves_auto. Qed.
#[local] Hint Resolve preserves__match_all_bindings : preserves.

Lemma preserves__instantiate_and_match b left other_type subst view container :
  preserves n b (_instantiate_and_match R left other_type subst view container).
Proof. unfold _instantiate_and_match. preserves_auto. Qed.
#[local] Hint Resolve preserves__instantiate_and_match : preserves.

Lemma preserves__match_type_param_against_type_param b t1 t2 subst view :
  preserves n b (_match_type_param_against_type_param R t1 t2 subst view).
Proof. unfold _match_type_param_against_type_param. preserves_auto. Qed.
#[local] Hint Resolve preserves__match_type_param_against_type_param : preserves.

Lemma preserves__match_signature_argument b sig other_type view name i subst :
  preserves n b (_match_signature_argument R sig other_type view name i subst).
Proof. unfold _match_signature_argument. preserves_auto. Qed.
#[local] Hint Resolve preserves__match_signature_argument : preserves.

Lemma preserves__match_signature_against_callable b sig other_type subst view :
  preserves n b (_match_signature_against_callable R sig other_type subst view).
Proof. unfold _match_signature_against_callable. preserves_auto. Qed.
#[local] Hint Resolve preserves__match_signature_against_callable : preserves.

Lemma preserves__match_maybe_parameterized_instance b left instance other_type subst view :
  preserves n b (_match_maybe_parameterized_instance R left instance other_type subst view).
Proof. unfold _match_maybe_parameterized_instance. preserves_auto. Qed.
#[local] Hint Resolve preserves__match_maybe_parameterized_instance : preserves.

Lemma preserves__match_heterogeneous_tuple_instance b left instance other_type subst view :
  preserves n b
    (_match_heterogeneous_tuple_instance R left instance other_type subst view).
Proof. unfold _match_heterogeneous_tuple_instance. preserves_auto. Qed.
#[local] Hint Resolve preserves__match_heterogeneous_tuple_instance : preserves.

Lemma preserves__match_callable_argument b left other_type view i subst :
  preserves n b (_match_callable_argument R left other_type view i subst).
Proof. unfold _match_callable_argument. preserves_auto. Qed.
#[local] Hint Resolve preserves__match_callable_argument : preserves.

Lemma preserves__match_callable_instance b left instance other_type subst view :
  preserves n b (_match_callable_instance R left instance other_type subst view).
Proof. unfold _match_callable_instance. preserves_auto. Qed.
#[local] Hint Resolve preserves__match_callable_instance : preserves.

Lemma preserves__match_instance b left instance other_type subst view :
  preserves n b (_match_instance R left instance other_type subst view).
Proof. unfold _match_instance. preserves_auto. Qed.
#[local] Hint Resolve preserves__match_instance : preserves.

Lemma preserves__resolve_property_attribute b cls attribute instance :
  preserves n b (_resolve_property_attribute cls attribute instance).
Proof. unfold _resolve_property_attribute. preserves_auto. Qed.
#[local] Hint Resolve preserves__resolve_property_attribute : preserves.

Lemma preserves__get_attribute_for_protocol_matching b cls name instance :
  preserves n b (_get_attribute_for_protocol_matching cls name instance).
Proof. unfold _get_attribute_for_protocol_matching. preserves_auto. Qed.
#[local] Hint Resolve preserves__get_attribute_for_protocol_matching : preserves.

Lemma preserves__get_type b value : preserves n b (_get_type R value).
Proof. unfold _get_type. preserves_auto. Qed.
#[local] Hint Resolve preserves__get_type : preserves.

Lemma preserves__get_attribute_types b other_type attribute :
  preserves n b (_get_attribute_types R other_type attribute).
Proof. unfold _get_attribute_types. preserves_auto. Qed.
#[local] Hint Resolve preserves__get_attribute_types : preserves.

Lemma preserves__match_protocol_attribute b left other_type attribute subst view :
  preserves n b (_match_protocol_attribute R left other_type attribute subst view).
Proof. unfold _match_protocol_attribute. preserves_auto. Qed.
#[local] Hint Resolve preserves__match_protocol_attribute : preserves.

(** _match_against_protocol adds to the protocol cache: the [with] statement
    around each of its calls restores it. *)
Lemma preserves__match_against_protocol left other_type subst view :
  preserves n false (_match_against_protocol R left other_type subst view).
Proof. unfold _match_against_protocol. preserves_auto. Qed.
#[local] Hint Resolve preserves__match_against_protocol : preserves.

Lemma preserves_bad_matches_loop b var other_type views bad :
  preserves n b (bad_matches_loop R var other_type views bad).
Proof.
  revert bad. induction views as [|view send IH]; intros bad; cbn [bad_matches_loop];
    preserves_auto.
Qed.
#[local] Hint Resolve preserves_bad_matches_loop : preserves.

Lemma preserves_bad_matches_with b var other_type :
  preserves n b (bad_matches_with R var other_type).
Proof. unfold bad_matches_with. preserves_auto. Qed.
#[local] Hint Resolve preserves_bad_matches_with : preserves.

Lemma preserves_typed_dict_bad b left other_type :
  preserves n b (typed_dict_bad R left other_type).
Proof. unfold typed_dict_bad. preserves_auto. Qed.
#[local] Hint Resolve preserves_typed_dict_bad : preserves.

Lemma preserves__match_dict_against_typed_dict b left other_type :
  preserves n b (_match_dict_against_typed_dict R left other_type).
Proof. unfold _match_dict_against_typed_dict. preserves_auto. Qed.
#[local] Hint Resolve preserves__match_dict_against_typed_dict : preserves.

Lemma preserves__match_instance_against_type b left other_type subst view :
  preserves n b (_match_instance_against_type R left other_type subst view).
Proof. unfold _match_instance_against_type. preserves_auto. Qed.
#[local] Hint Resolve preserves__match_instance_against_type : preserves.

Lemma preserves__match_type_against_callback_protocol b left other_type subst view :
  preserves n b (_match_type_against_callback_protocol R left other_type subst view).
Proof. unfold _match_type_against_callback_protocol. preserves_auto. Qed.
#[local] Hint Resolve preserves__match_type_against_callback_protocol : preserves.

Lemma preserves__match_type_against_type b left other_type subst view :
  preserves n b (_match_type_against_type R left other_type subst view).
Proof. unfold _match_type_against_type. preserves_auto. Qed.

Lemma preserves_match_TypeParameterInstance b left other_type subst view :
  preserves n b (match_TypeParameterInstance R left other_type subst view).
Proof. unfold match_TypeParameterInstance. preserves_auto. Qed.
#[local] Hint Resolve preserves_match_TypeParameterInstance : preserves.

Lemma preserves_match_TypeParameter b value left other_type subst view :
  preserves n b (match_TypeParameter R value left other_type subst view).
Proof. unfold match_TypeParameter. preserves_auto. Qed.
#[local] Hint Resolve preserves_match_TypeParameter : preserves.

Lemma preserves_match_Union b value other_type subst view :
  preserves n b (match_Union R value other_type subst view).
Proof. unfold match_Union, match_Union_loop. preserves_auto. Qed.
#[local] Hint Resolve preserves_match_Union : preserves.

Lemma preserves_dispatch b value left other_type subst view :
  preserves n b (dispatch R value left other_type subst view).
Proof. unfold dispatch, match_NoReturn. preserves_auto. Qed.
#[local] Hint Resolve preserves_dispatch : preserves.

Lemma preserves__match_value_against_type b value other_type subst view :
  preserves n b (_match_value_against_type R value other_type subst view).
Proof. unfold _match_value_against_type. preserves_auto. Qed.

Lemma preserves_match_var_against_type b var other_type subst view :
  preserves n b (match_var_against_type R var other_type subst view).
Proof. unfold match_var_against_type. preserves_auto. Qed.

End Preservation.

Lemma preserves_methods (n fuel : nat) : Rec_preserves n (methods fuel).
Proof.
  induction fuel as [|fuel IH]; split; intros; cbn [methods
    rec_match_var_against_type rec_match_value_against_type
    rec_match_type_against_type rec_get_type];
    try apply preserves_out_of_fuel.
  - by apply preserves_match_var_against_type.
  - by apply preserves__match_value_against_type.
  - by apply preserves__match_type_against_type.
  - by apply preserves__get_type.
Qed.

#[local] Hint Resolve preserves_methods preserves_rec_match_value_against_type
  preserves_bad_matches_with : preserves.

Lemma preserves_compute_subst b fuel formal_args arg_dict view alias_map :
  preserves 0 b (compute_subst fuel formal_args arg_dict view alias_map).
Proof. unfold compute_subst. preserves_auto. Qed.

Lemma preserves_bad_matches n b fuel var other_type :
  preserves n b (bad_matches fuel var other_type).
Proof. unfold bad_matches. eauto with preserves. Qed.

(** ** The caches across top-level calls *)
(** C1, as the code has it: neither compute_subst nor bad_matches resets the
    caches.  A top-level call removes nothing from the cache of recursive
    annotations, so every (left, formal) pair recorded in one call is still
    there in the next; and when it returns it leaves the protocol cache as
    it found it, each protocol match having restored its snapshot. *)
Theorem caches_across_calls (fuel : nat) (formal_args : list (string * Value))
    (arg_dict : gmap string (Binding Value)) (view : gmap nat Value)
    (alias_map : option UnionFind) (var : nat) (other_type : Value) (h : Heap) :
  let c := compute_subst fuel formal_args arg_dict view alias_map h in
  let b := bad_matches fuel var other_type h in
  (_recursive_annots_cache (matcher h) ⊆ _recursive_annots_cache (matcher c.2)
   ∧ ∀ r, c.1 = Ret r → _protocol_cache (matcher c.2) = _protocol_cache (matcher h))
  ∧ (_recursive_annots_cache (matcher h) ⊆ _recursive_annots_cache (matcher b.2)
     ∧ ∀ r, b.1 = Ret r → _protocol_cache (matcher b.2) = _protocol_cache (matcher h)).
Proof.
  intros c b. split.
  - destruct (preserves_compute_subst true fuel formal_args arg_dict view alias_map h)
      as (_ & _ & Hc & Hp); [lia|]. split; [done|]. by apply Hp.
  - destruct (preserves_bad_matches 0 true fuel var other_type h)
      as (_ & _ & Hc & Hp); [lia|]. split; [done|]. by apply Hp.
Qed.

(** ** Substitutions are copied before they are written *)
(** [grows h h']: from [h] to [h'] the variables only gained bindings, and
    the fields of the matcher did not change. *)
Definition grows (h h' : Heap) : Prop :=
  matcher h' = matcher h
  ∧ length (program h') = length (program h)
  ∧ ∀ v, var_data v (program h) `prefix_of` var_data v (program h').

Lemma grows_refl h : grows h h.
Proof. done. Qed.

Lemma grows_trans h1 h2 h3 : grows h1 h2 → grows h2 h3 → grows h1 h3.
Proof.
  intros (Hm1 & Hl1 & Hv1) (Hm2 & Hl2 & Hv2). repeat split; [congruence..|].
  intros v. etrans; [apply Hv1|apply Hv2].
Qed.

Lemma AddBinding_grows (var : nat) (d : Value) (p : Program Value) :
  length (AddBinding var d p) = length p
  ∧ ∀ v, var_data v p `prefix_of` var_data v (AddBinding var d p).
Proof.
  unfold AddBinding. split; [apply length_alter|]. intros v. unfold var_data.
  destruct (decide (var = v)) as [->|Hne].
  - rewrite list_lookup_alter_eq. destruct (p !! v) as [l|]; simpl; [|done].
    destruct (bool_decide (d ∈ l)); [done|]. by apply prefix_app_r.
  - by rewrite list_lookup_alter_ne.
Qed.

Lemma PasteVariable_grows (var other : nat) (p : Program Value) :
  length (PasteVariable var other p) = length p
  ∧ ∀ v, var_data v p `prefix_of` var_data v (PasteVariable var other p).
Proof.
  unfold PasteVariable. generalize (var_data other p). intros ds. revert p.
  induction ds as [|d ds IH]; intros p; [done|]. simpl.
  destruct (IH (AddBinding var d p)) as [Hl Hv].
  destruct (AddBinding_grows var d p) as [Hl' Hv'].
  split; [congruence|]. intros v. etrans; [apply Hv'|apply Hv].
Qed.

Definition growing {A} (m : M A) : Prop := ∀ h, grows h (m h).2.

Lemma growing_bind {A B} (m : M A) (k : A → M B) :
  growing m → (∀ a, growing (k a)) → growing (bind m k).
Proof.
  intros Hm Hk h. rewrite run_bind. specialize (Hm h).
  destruct (m h) as [[a| |] h1]; try done.
  eapply grows_trans; [done|apply Hk].
Qed.

Lemma growing_for_each {X S} (xs : list X) (s : S) (body : X → S → M S) :
  (∀ x s, growing (body x s)) → growing (for_each xs s body).
Proof.
  intros Hb. revert s. induction xs as [|x xs IH]; intros s; [done|].
  cbn [for_each]. by apply growing_bind.
Qed.

Lemma growing__merge_substs (subst : nat) (new_substs : list nat) :
  growing (_merge_substs subst new_substs).
Proof.
  unfold _merge_substs. apply growing_bind; [done|]. intros d.
  apply growing_bind; [|done]. apply growing_for_each. intros new_subst [].
  apply growing_bind; [done|]. intros o. apply growing_for_each. intros [name var] [].
  apply growing_bind; [done|]. intros c. destruct (negb c); [done|].
  apply growing_bind.
  { intros h. unfold dict_getitem. run. by destruct (_ !! _). }
  intros old. destruct (negb _); [|done]. intros h. rewrite run_call.
  split; [done|]. apply PasteVariable_grows.
Qed.


(** ** Looking a class up in an MRO *)
(** The class an entry of an MRO stands for: the base class of a
    parameterized class, the entry itself otherwise. *)
Definition base_class (base : Value) : Value :=
  if isinstance base abstract_ParameterizedClass then base_cls base else base.

(** X1: an Unknown or Unsolvable base class makes match_from_mro find a match
    for every formal type: the search stops there at the latest. *)
Theorem match_from_mro_ambiguous_base (left other_type : Value) (allow : bool) :
  (∃ base, base ∈ mro left
           ∧ isinstance (base_class base) abstract_Class = false
           ∧ isinstance_any (base_class base) AMBIGUOUS = true) →
  is_Some (match_from_mro left other_type allow).
Proof.
  unfold match_from_mro. generalize (mro left). intros bases (base & Hin & Hc & Ha).
  induction bases as [|b bases IH]; [by apply elem_of_nil in Hin|].
  cbn [match_from_mro_loop]. fold (base_class b).
  apply elem_of_cons in Hin as [<-|Hin].
  - by rewrite Hc, Ha.
  - destruct (isinstance (base_class b) abstract_Class).
    + destruct (_ || _); [done|by apply IH].
    + destruct (isinstance_any (base_class b) AMBIGUOUS); [done|].
      destruct (isinstance (base_class b) abstract_Empty); by apply IH.
Qed.

(** X2: allowing the compatible builtins never loses a match: where the strict
    search of the MRO finds a base, so does the search that also accepts
    int for float and the like. *)
Theorem match_from_mro_compat_monotone (left other_type : Value) :
  is_Some (match_from_mro left other_type false) →
  is_Some (match_from_mro left other_type true).
Proof.
  unfold match_from_mro. generalize (mro left). intros bases.
  induction bases as [|b bases IH]; [done|].
  cbn [match_from_mro_loop]. fold (base_class b).
  destruct (isinstance (base_class b) abstract_Class).
  - cbn [andb]. rewrite orb_false_r.
    destruct (bool_decide (full_name other_type = full_name (base_class b))
              || isinstance other_type abstract_ParameterizedClass
                 && bool_decide (base_cls other_type = base_class b)); [done|].
    cbn [orb andb]. by destruct (bool_decide _).
  - destruct (isinstance_any (base_class b) AMBIGUOUS); [done|].
    by destruct (isinstance (base_class b) abstract_Empty).
Qed.

Lemma ex_cons_tail {A} (P : A → Prop) (x : A) (l : list A) :
  (∃ a, a ∈ l ∧ P a) → ∃ a, a ∈ x :: l ∧ P a.
Proof. intros (a & Ha & HP). exists a. split; [by apply elem_of_cons; right|done]. Qed.

(** X3: what match_from_mro returns comes from the MRO: an entry whose class has
    the name of the formal type, is the base class of the formal type or is
    a compatible builtin of it; or the Unknown or Unsolvable class of an
    entry. *)
Theorem match_from_mro_result (left other_type : Value) (allow : bool) (b : Value) :
  match_from_mro left other_type allow = Some b →
  ∃ base, base ∈ mro left
    ∧ ((b = base
        ∧ isinstance (base_class base) abstract_Class = true
        ∧ (full_name other_type = full_name (base_class base)
           ∨ (isinstance other_type abstract_ParameterizedClass = true
              ∧ base_cls other_type = base_class base)
           ∨ (allow = true
              ∧ (full_name (base_class base), full_name other_type)
                  ∈ _COMPATIBLE_BUILTINS)))
       ∨ (b = base_class base
          ∧ isinstance (base_class base) abstract_Class = false
          ∧ isinstance_any (base_class base) AMBIGUOUS = true)).
Proof.
  unfold match_from_mro. generalize (mro left). intros bases.
  induction bases as [|x bases IH]; [done|].
  cbn [match_from_mro_loop]. fold (base_class x). intros Hm.
  destruct (isinstance (base_class x) abstract_Class) eqn:Hc.
  - destruct (_ || _) eqn:Hacc; [|by apply ex_cons_tail, IH].
    injection Hm as <-. exists x. split; [by apply elem_of_cons; left|]. left.
    split; [done|]. split; [done|].
    apply orb_true_iff in Hacc as [Hacc|Hacc].
    + apply orb_true_iff in Hacc as [Hacc|Hacc].
      * left. by apply bool_decide_eq_true in Hacc.
      * right; left. apply andb_true_iff in Hacc as [? Hacc].
        by apply bool_decide_eq_true in Hacc.
    + right; right. apply andb_true_iff in Hacc as [? Hacc].
      by apply bool_decide_eq_true in Hacc.
  - destruct (isinstance_any (base_class x) AMBIGUOUS) eqn:Ha.
    + injection Hm as <-. exists x. split; [by apply elem_of_cons; left|]. by right.
    + destruct (isinstance (base_class x) abstract_Empty); by apply ex_cons_tail, IH.
Qed.

(** ** One concrete type, a common superclass *)
Lemma size_le_1_iff (X : gset string) :
  size X ≤ 1 ↔ ∀ x y, x ∈ X → y ∈ X → x = y.
Proof.
  split.
  - intros Hs x y Hx Hy. destruct (decide (x = y)) as [|Hne]; [done|].
    assert (Hsub : ({[x]} ∪ {[y]} : gset string) ⊆ X) by set_solver.
    apply subseteq_size in Hsub.
    rewrite size_union, !size_singleton in Hsub by set_solver. lia.
  - intros Heq. destruct (set_choose_or_empty X) as [[x Hx]|HX].
    + assert (X ⊆ {[x]}) as Hsub by (intros y Hy; apply elem_of_singleton; eauto).
      apply subseteq_size in Hsub. by rewrite size_singleton in Hsub.
    + apply size_empty_iff in HX. lia.
Qed.

(** Dropping the compatible builtins from the class names only removes
    names. *)
Lemma drop_compatible_subseteq (pairs : list (string * string)) (names : gset string) :
  foldl (λ (names : gset string) p,
           if bool_decide (p.1 ∈ names) && bool_decide (p.2 ∈ names)
           then names ∖ {[p.1]} else names) names pairs ⊆ names.
Proof.
  revert names. induction pairs as [|p pairs IH]; intros names; [done|].
  cbn [foldl]. etrans; [apply IH|]. destruct (_ && _); set_solver.
Qed.

Lemma drop_compatible_none (pairs : list (string * string)) (names : gset string) :
  (∀ p, p ∈ pairs → ¬ (p.1 ∈ names ∧ p.2 ∈ names)) →
  foldl (λ (names : gset string) p,
           if bool_decide (p.1 ∈ names) && bool_decide (p.2 ∈ names)
           then names ∖ {[p.1]} else names) names pairs = names.
Proof.
  induction pairs as [|p pairs IH]; intros Hno; [done|].
  cbn [foldl].
  assert (Hp : bool_decide (p.1 ∈ names) && bool_decide (p.2 ∈ names) = false).
  { apply not_true_iff_false. intros Hb. apply andb_true_iff in Hb as [H1 H2].
    apply bool_decide_eq_true in H1, H2. apply (Hno p); [by apply elem_of_cons; left|done]. }
  rewrite Hp. apply IH. intros q Hq. apply Hno. by apply elem_of_cons; right.
Qed.

(** X4: where no two of the values have classes that are compatible builtins of
    each other, _satisfies_single_type holds exactly when all the values
    have classes of the same name: no subtyping is allowed. *)
Theorem _satisfies_single_type_same_class (values : list Value) :
  (∀ p v w, p ∈ _COMPATIBLE_BUILTINS → v ∈ values → w ∈ values →
            ¬ (full_name (cls v) = p.1 ∧ full_name (cls w) = p.2)) →
  (_satisfies_single_type values = true
   ↔ ∀ v w, v ∈ values → w ∈ values → full_name (cls v) = full_name (cls w)).
Proof.
  intros Hno. unfold _satisfies_single_type. cbv zeta.
  assert (Hin : ∀ n, n ∈ (list_to_set ((λ v, full_name (cls v)) <$> values) : gset string)
                     ↔ ∃ v, v ∈ values ∧ n = full_name (cls v)).
  { intros n. rewrite elem_of_list_to_set, list_elem_of_fmap. naive_solver. }
  rewrite drop_compatible_none.
  2:{ intros p Hp [H1 H2]. apply Hin in H1 as (v & Hv & E1), H2 as (w & Hw & E2).
      by apply (Hno p v w). }
  rewrite bool_decide_eq_true, size_le_1_iff. split.
  - intros Heq v w Hv Hw. apply Heq; apply Hin; eauto.
  - intros Heq x y Hx Hy. apply Hin in Hx as (v & Hv & ->), Hy as (w & Hw & ->).
    by apply Heq.
Qed.

(** X5: values whose classes are a builtin and a compatible builtin of it (int
    and float, say) count as one concrete type. *)
Theorem _satisfies_single_type_compatible (values : list Value) (a b : string) :
  (a, b) ∈ _COMPATIBLE_BUILTINS →
  (∀ v, v ∈ values → full_name (cls v) = a ∨ full_name (cls v) = b) →
  _satisfies_single_type values = true.
Proof.
  intros Hab Hvs. unfold _satisfies_single_type. cbv zeta.
  set (names := list_to_set ((λ v, full_name (cls v)) <$> values) : gset string).
  assert (Hnames : names ⊆ {[a; b]}).
  { intros n Hn. apply elem_of_list_to_set, list_elem_of_fmap in Hn as (v & -> & Hv).
    destruct (Hvs v Hv) as [->| ->]; set_solver. }
  apply list_elem_of_split in Hab as (l1 & l2 & ->).
  rewrite foldl_app. cbn [foldl fst snd].
  match goal with |- context [foldl ?f names l1] => set (N1 := foldl f names l1) end.
  assert (HN1 : N1 ⊆ {[a; b]}) by (etrans; [apply drop_compatible_subseteq|done]).
  apply bool_decide_eq_true.
  etrans; [apply subseteq_size, drop_compatible_subseteq|].
  destruct (decide (a ∈ N1)) as [Ha|Ha]; destruct (decide (b ∈ N1)) as [Hb|Hb];
    rewrite ?(bool_decide_eq_true_2 _ Ha), ?(bool_decide_eq_false_2 _ Ha),
      ?(bool_decide_eq_true_2 _ Hb), ?(bool_decide_eq_false_2 _ Hb); cbn [andb].
  - assert (N1 ∖ {[a]} ⊆ {[b]}) as Hs by set_solver.
    apply subseteq_size in Hs. by rewrite size_singleton in Hs.
  - assert (N1 ⊆ {[a]}) as Hs by set_solver.
    apply subseteq_size in Hs. by rewrite size_singleton in Hs.
  - assert (N1 ⊆ {[b]}) as Hs by set_solver.
    apply subseteq_size in Hs. by rewrite size_singleton in Hs.
  - assert (N1 ⊆ {[b]}) as Hs by set_solver.
    apply subseteq_size in Hs. by rewrite size_singleton in Hs.
Qed.

(** The superclasses that do not count as common: none when one of the
    values is a plain object. *)
Definition ignored_superclasses (values : list Value) : gset string :=
  if existsb (λ v, bool_decide (cls v = convert_object_type)) values then ∅
  else {["builtins.object"; "typing.Generic"; "typing.Protocol"]}.

Lemma common_classes_Some (values : list Value) (c : gset string) :
  ∃ c', foldl (λ common v,
                 match common with
                 | None => Some (superclasses_of v)
                 | Some c => Some (c ∩ superclasses_of v)
                 end) (Some c) values = Some c'
        ∧ ∀ n, n ∈ c' ↔ n ∈ c ∧ ∀ v, v ∈ values → n ∈ superclasses_of v.
Proof.
  revert c. induction values as [|v values IH]; intros c.
  - exists c. split; [done|]. intros n. split; [|naive_solver].
    intros Hn. split; [done|]. intros v Hv. by apply elem_of_nil in Hv.
  - destruct (IH (c ∩ superclasses_of v)) as (c' & Hc' & Hin). exists c'.
    split; [done|]. intros n. rewrite Hin, elem_of_intersection. split.
    + intros [[Hc Hv] Hvs]. split; [done|]. intros w Hw.
      apply elem_of_cons in Hw as [->|Hw]; eauto.
    + intros [Hc Hvs]. split; [split; [done|]|].
      * apply Hvs. by apply elem_of_cons; left.
      * intros w Hw. apply Hvs. by apply elem_of_cons; right.
Qed.

(** The compatible builtins are added to the names of an MRO one pair after
    the other: a name that is there is kept, and the builtin of a pair is
    added when its compatible name is there. *)
Lemma add_compatible_mono (pairs : list (string * string)) (s : gset string) n :
  n ∈ s →
  n ∈ foldl (λ (s : gset string) p, if bool_decide (p.1 ∈ s) then s ∪ {[p.2]} else s)
        s pairs.
Proof.
  revert s. induction pairs as [|p pairs IH]; intros s Hn; [done|].
  cbn [foldl]. apply IH. destruct (bool_decide _); set_solver.
Qed.

Lemma add_compatible_pair (pairs : list (string * string)) (s : gset string) a b :
  (a, b) ∈ pairs → a ∈ s →
  b ∈ foldl (λ (s : gset string) p, if bool_decide (p.1 ∈ s) then s ∪ {[p.2]} else s)
        s pairs.
Proof.
  revert s. induction pairs as [|p pairs IH]; intros s Hin Ha.
  - by apply elem_of_nil in Hin.
  - cbn [foldl]. apply elem_of_cons in Hin as [<-|Hin].
    + apply add_compatible_mono. cbn [fst snd].
      rewrite (bool_decide_eq_true_2 _ Ha). set_solver.
    + apply IH; [done|]. destruct (bool_decide _); set_solver.
Qed.

Lemma add_compatible_inv (all pairs : list (string * string)) (s0 s : gset string) n :
  (∀ a b c, (a, b) ∈ all → (b, c) ∈ all → (a, c) ∈ all) →
  (∀ p, p ∈ pairs → p ∈ all) →
  (∀ m, m ∈ s → m ∈ s0 ∨ ∃ a, a ∈ s0 ∧ (a, m) ∈ all) →
  n ∈ foldl (λ (s : gset string) p, if bool_decide (p.1 ∈ s) then s ∪ {[p.2]} else s)
        s pairs →
  n ∈ s0 ∨ ∃ a, a ∈ s0 ∧ (a, n) ∈ all.
Proof.
  intros Htrans. revert s. induction pairs as [|[a b] pairs IH]; intros s Hall Hs Hn.
  - by apply Hs.
  - cbn [foldl fst snd] in Hn. apply (IH _) in Hn; [done| |].
    + intros p Hp. apply Hall. by apply elem_of_cons; right.
    + intros m Hm. case_bool_decide as Ha; [|by apply Hs].
      apply elem_of_union in Hm as [Hm|Hm]; [by apply Hs|].
      apply elem_of_singleton in Hm as ->.
      assert (Hab : (a, b) ∈ all) by (apply Hall; by apply elem_of_cons; left).
      destruct (Hs a Ha) as [Ha0|(a0 & Ha0 & Ha0a)]; right; eauto.
Qed.

(** The superclass names of a value, when the compatible builtins are
    transitive: the full names of the classes in the MRO of its class, and
    the builtins that one of these is compatible with. *)
Lemma elem_of_superclasses_of (v : Value) (n : string) :
  (∀ a b c, (a, b) ∈ _COMPATIBLE_BUILTINS → (b, c) ∈ _COMPATIBLE_BUILTINS →
            (a, c) ∈ _COMPATIBLE_BUILTINS) →
  n ∈ superclasses_of v
  ↔ ∃ c, c ∈ mro (cls v)
         ∧ (full_name c = n ∨ (full_name c, n) ∈ _COMPATIBLE_BUILTINS).
Proof.
  intros Htrans. unfold superclasses_of.
  set (s0 := list_to_set (full_name <$> mro (cls v)) : gset string).
  assert (Hs0 : ∀ m, m ∈ s0 ↔ ∃ c, c ∈ mro (cls v) ∧ full_name c = m).
  { intros m. unfold s0. rewrite elem_of_list_to_set, list_elem_of_fmap. naive_solver. }
  split.
  - intros Hn.
    apply (add_compatible_inv _COMPATIBLE_BUILTINS _ s0) in Hn; [|done|done|by left].
    destruct Hn as [Hn|(a & Ha & Han)].
    + apply Hs0 in Hn as (c & Hc & <-). eauto.
    + apply Hs0 in Ha as (c & Hc & <-). eauto.
  - intros (c & Hc & [<-|Hcn]).
    + apply add_compatible_mono, Hs0. eauto.
    + eapply add_compatible_pair; [done|]. apply Hs0. eauto.
Qed.

Lemma not_elem_of_ignored_superclasses (values : list Value) (n : string) :
  n ∉ ignored_superclasses values
  ↔ (∃ v, v ∈ values ∧ cls v = convert_object_type)
    ∨ (n ≠ "builtins.object" ∧ n ≠ "typing.Generic" ∧ n ≠ "typing.Protocol").
Proof.
  unfold ignored_superclasses.
  destruct (existsb _ values) eqn:Hex.
  - apply existsb_exists in Hex as (v & Hv & Hc). apply bool_decide_eq_true in Hc.
    apply list_elem_of_In in Hv. split; [eauto|set_solver].
  - split.
    + intros Hn. right. set_solver.
    + intros [(v & Hv & Hc)|Hn]; [|set_solver].
      assert (existsb (λ v, bool_decide (cls v = convert_object_type)) values = true)
        as Ht; [|congruence].
      apply existsb_exists. exists v. split; [by apply list_elem_of_In|].
      by apply bool_decide_eq_true.
Qed.

(** X6: provided the compatible builtins are transitive (as they are when no
    builtin of a pair is the compatible name of another pair),
    _satisfies_common_superclass holds of no values at all, and otherwise
    exactly when the values have a common superclass name that counts.  The
    superclass names of a value are the full names of the classes in the
    MRO of its class, and the builtins that one of these is compatible
    with; the names object, Generic and Protocol do not count, unless the
    class of one of the values is object itself. *)
Theorem _satisfies_common_superclass_iff (values : list Value) :
  (∀ a b c, (a, b) ∈ _COMPATIBLE_BUILTINS → (b, c) ∈ _COMPATIBLE_BUILTINS →
            (a, c) ∈ _COMPATIBLE_BUILTINS) →
  _satisfies_common_superclass values = true
  ↔ values = []
    ∨ ∃ n, ((∃ v, v ∈ values ∧ cls v = convert_object_type)
            ∨ (n ≠ "builtins.object" ∧ n ≠ "typing.Generic" ∧ n ≠ "typing.Protocol"))
           ∧ ∀ v, v ∈ values →
               ∃ c, c ∈ mro (cls v)
                    ∧ (full_name c = n ∨ (full_name c, n) ∈ _COMPATIBLE_BUILTINS).
Proof.
  intros Htrans.
  assert (Hiff : _satisfies_common_superclass values = true
                 ↔ values = []
                   ∨ ∃ n, n ∉ ignored_superclasses values
                          ∧ ∀ v, v ∈ values → n ∈ superclasses_of v).
  { unfold _satisfies_common_superclass. cbv zeta. fold (ignored_superclasses values).
    destruct values as [|v values]; [naive_solver|].
    cbn [foldl].
    destruct (common_classes_Some values (superclasses_of v)) as (c' & -> & Hin).
    rewrite negb_true_iff, bool_decide_eq_false. split.
    - intros Hnot. right.
      destruct (decide (Forall (λ n, n ∈ ignored_superclasses (v :: values)) (elements c')))
        as [Hall|Hex].
      + destruct Hnot. intros n Hn. rewrite Forall_forall in Hall. apply Hall.
        by apply elem_of_elements.
      + apply not_Forall_Exists in Hex; [|apply _].
        apply Exists_exists in Hex as (n & Hn & Hni). apply elem_of_elements in Hn.
        exists n. split; [done|]. intros w Hw. apply Hin in Hn as [Hv Hvs].
        apply elem_of_cons in Hw as [->|Hw]; eauto.
    - intros [?|(n & Hni & Hvs)]; [done|]. intros Hsub. apply Hni, Hsub, Hin.
      split; [apply Hvs; by apply elem_of_cons; left|].
      intros w Hw. apply Hvs. by apply elem_of_cons; right. }
  rewrite Hiff. split.
  - intros [?|(n & Hni & Hvs)]; [by left|]. right. exists n. split.
    + by apply not_elem_of_ignored_superclasses.
    + intros v Hv. apply elem_of_superclasses_of; [done|]. by apply Hvs.
  - intros [?|(n & Hni & Hvs)]; [by left|]. right. exists n. split.
    + by apply not_elem_of_ignored_superclasses.
    + intros v Hv. apply elem_of_superclasses_of; [done|]. by apply Hvs.
Qed.

(** ** The attributes of a value *)
(** X7: a value with __getitem__ among its attributes has __iter__ among them
    too, declared or not. *)
Theorem _get_attribute_names_iter (left : Value) :
  "__getitem__" ∈ _get_attribute_names left → "__iter__" ∈ _get_attribute_names left.
Proof.
  rewrite !elem_of_get_attribute_names. intros [Hg|[Hg _]]; [|done].
  destruct (decide ("__iter__" ∈ explicit_attributes left)); [by left|by right].
Qed.

(** ** Merging substitutions *)
(** [merged o srcs cur]: the dict [cur] is the dict [o] with the (name,
    variable) pairs [srcs] merged in: it keeps every entry of [o], binds
    every name of [srcs], and each entry it has besides those of [o] is a
    pair of [srcs], under the representative of its name. *)
Record merged (o : DictObj) (srcs : list (string * nat)) (cur : DictObj) : Prop := {
  merged_uf : uf cur = uf o;
  merged_keeps : ∀ k v, items o !! k = Some v → items cur !! k = Some v;
  merged_binds : ∀ name v, (name, v) ∈ srcs → contains cur name = true;
  merged_from : ∀ k v, items cur !! k = Some v →
      items o !! k = Some v
      ∨ ∃ name, (name, v) ∈ srcs ∧ find_by_name (uf o) name = k
}.

Lemma merged_nil o : merged o [] o.
Proof.
  split; try done; [|by left].
  intros name v Hin. by apply elem_of_nil in Hin.
Qed.

Lemma merged_trans o s1 c1 s2 c2 :
  merged o s1 c1 → merged c1 s2 c2 → merged o (s1 ++ s2) c2.
Proof.
  intros [Hu1 Hk1 Hb1 Hf1] [Hu2 Hk2 Hb2 Hf2]. split.
  - congruence.
  - eauto.
  - intros name v Hin. apply elem_of_app in Hin as [Hin|Hin]; [|eauto].
    specialize (Hb1 name v Hin). unfold contains in *.
    apply bool_decide_eq_true in Hb1 as [x Hx]. apply bool_decide_eq_true.
    rewrite Hu2. eauto.
  - intros k v Hk. destruct (Hf2 k v Hk) as [H1|(name & Hin & Hr)].
    + destruct (Hf1 k v H1) as [?|(name & Hin & Hr)]; [by left|].
      right. exists name. split; [apply elem_of_app; by left|done].
    + right. exists name. split; [apply elem_of_app; by right|]. by rewrite <- Hu1.
Qed.

Lemma merged_new name var o :
  contains o name = false → merged o [(name, var)] (setitem name var o).
Proof.
  intros Hc. unfold contains in Hc. apply bool_decide_eq_false in Hc. split; simpl.
  - done.
  - intros k v Hk. rewrite lookup_insert_ne; [done|]. intros <-. apply Hc. eauto.
  - intros name' v Hin. apply list_elem_of_singleton in Hin. injection Hin as -> ->.
    unfold contains. apply bool_decide_eq_true. simpl. rewrite lookup_insert_eq. eauto.
  - intros k v Hk. destruct (decide (find_by_name (uf o) name = k)) as [<-|Hne].
    + rewrite lookup_insert_eq in Hk. injection Hk as <-. right. exists name.
      split; [by apply list_elem_of_singleton|done].
    + rewrite lookup_insert_ne in Hk by done. by left.
Qed.

Lemma merged_old name var o : contains o name = true → merged o [(name, var)] o.
Proof.
  intros Hc. split; try done; [|by left].
  intros name' v Hin. apply list_elem_of_singleton in Hin. by injection Hin as -> ->.
Qed.

Lemma run_dict_getitem (d : nat) (k : string) (h : Heap) :
  dict_getitem d k h
  = match items (dict_at h d) !! find_by_name (uf (dict_at h d)) k with
    | Some var => (Ret var, h)
    | None => (Raise KeyError, h)
    end.
Proof. unfold dict_getitem. run. by destruct (_ !! _). Qed.

(** The inner loop of _merge_substs, over the items of one incoming dict:
    it writes to the copy only, and pastes into variables without adding
    any. *)
Lemma merge_items_run (kvs : list (string * nat)) m p ds cur :
  ∃ p' cur',
    for_each kvs tt (λ '(name, var) _,
      c <- dict_contains (length ds) name ;;
      if negb c then dict_setitem (length ds) name var
      else
        old <- dict_getitem (length ds) name ;;
        if negb (bool_decide (old = var))
        then call (λ p, (tt, PasteVariable old var p))
        else ret tt) (mkHeap m p (ds ++ [cur]))
    = (Ret tt, mkHeap m p' (ds ++ [cur']))
    ∧ length p' = length p
    ∧ merged cur kvs cur'.
Proof.
  revert p cur. induction kvs as [|[name var] kvs IH]; intros p cur.
  - exists p, cur. split; [done|]. split; [done|apply merged_nil].
  - rewrite run_for_each_cons. run. rewrite dict_at_snoc.
    change ((name, var) :: kvs) with ([(name, var)] ++ kvs).
    destruct (contains cur name) eqn:Hc; cbn [negb].
    + rewrite run_bind, run_dict_getitem, dict_at_snoc.
      pose proof Hc as Hc'. unfold contains in Hc'.
      apply bool_decide_eq_true in Hc' as [old Hold]. rewrite Hold.
      case_bool_decide; cbn [negb].
      * run. destruct (IH p cur) as (p' & cur' & Hrun & Hlen & Hm).
        exists p', cur'. split; [done|]. split; [done|].
        eapply merged_trans; [by apply merged_old|done].
      * run.
        destruct (IH (PasteVariable old var p) cur) as (p' & cur' & Hrun & Hlen & Hm).
        exists p', cur'. split; [done|]. split.
        { rewrite Hlen. apply PasteVariable_grows. }
        eapply merged_trans; [by apply merged_old|done].
    + run. rewrite alter_snoc.
      destruct (IH p (setitem name var cur)) as (p' & cur' & Hrun & Hlen & Hm).
      exists p', cur'. split; [done|]. split; [done|].
      eapply merged_trans; [by apply merged_new|done].
Qed.

(** The items of the dicts that are merged in, in the order of the loops. *)
Definition incoming (ds : list DictObj) (new_substs : list nat) : list (string * nat) :=
  mjoin ((λ ns, dict_items (default empty_dict (ds !! ns))) <$> new_substs).

Lemma elem_of_incoming (ds : list DictObj) (new_substs : list nat) name v :
  (name, v) ∈ incoming ds new_substs
  ↔ ∃ ns, ns ∈ new_substs ∧ items (default empty_dict (ds !! ns)) !! name = Some v.
Proof.
  unfold incoming. rewrite list_elem_of_join. split.
  - intros (l & Hin & Hl). apply list_elem_of_fmap in Hl as (ns & -> & Hns).
    exists ns. split; [done|]. by apply elem_of_dict_items in Hin.
  - intros (ns & Hns & Hl). eexists. split; [by apply elem_of_dict_items|].
    apply list_elem_of_fmap. eauto.
Qed.

Lemma merge_dicts_run (new_substs : list nat) m p ds cur :
  Forall (λ ns, ns < length ds) new_substs →
  ∃ p' cur',
    for_each new_substs tt (λ new_subst _,
      o <- dict_read new_subst ;;
      for_each (dict_items o) tt (λ '(name, var) _,
        c <- dict_contains (length ds) name ;;
        if negb c then dict_setitem (length ds) name var
        else
          old <- dict_getitem (length ds) name ;;
          if negb (bool_decide (old = var))
          then call (λ p, (tt, PasteVariable old var p))
          else ret tt)) (mkHeap m p (ds ++ [cur]))
    = (Ret tt, mkHeap m p' (ds ++ [cur']))
    ∧ length p' = length p
    ∧ merged cur (incoming ds new_substs) cur'.
Proof.
  intros Hns. revert p cur. induction Hns as [|ns new_substs Hlt _ IH]; intros p cur.
  - exists p, cur. split; [done|]. split; [done|apply merged_nil].
  - rewrite run_for_each_cons. run.
    assert (Hat : dict_at (mkHeap m p (ds ++ [cur])) ns = default empty_dict (ds !! ns)).
    { unfold dict_at. simpl. by rewrite lookup_app_l. }
    rewrite Hat.
    destruct (merge_items_run (dict_items (default empty_dict (ds !! ns)))
                m p ds cur) as (p1 & cur1 & Hrun1 & Hlen1 & Hm1).
    rewrite Hrun1.
    destruct (IH p1 cur1) as (p' & cur' & Hrun & Hlen & Hm).
    exists p', cur'. split; [done|]. split; [congruence|].
    unfold incoming. rewrite fmap_cons. cbn [mjoin list_join].
    eapply merged_trans; done.
Qed.

(** What _merge_substs returns: always a new dict, the copy of the base with
    the incoming dicts merged in. *)
Lemma _merge_substs_run (subst : nat) (new_substs : list nat) (h : Heap) :
  Forall (λ ns, ns < length (dicts h)) new_substs →
  ∃ o' p',
    _merge_substs subst new_substs h
    = (Ret (length (dicts h)), mkHeap (matcher h) p' (dicts h ++ [o']))
    ∧ length p' = length (program h)
    ∧ merged (dict_at h subst) (incoming (dicts h) new_substs) o'.
Proof.
  intros Hns. destruct h as [m p ds]. cbn [dicts matcher program] in *.
  destruct (merge_dicts_run new_substs m p ds (dict_at (mkHeap m p ds) subst) Hns)
    as (p' & o' & Hrun & Hlen & Hm).
  exists o', p'. split; [|done].
  unfold _merge_substs. run. rewrite Hrun. by run.
Qed.

(** X8: _merge_substs never fails.  It returns a new dict that keeps every entry
    of the base substitution, with the same aliases, and binds every name
    bound in one of the incoming substitutions; an entry that the base did
    not have holds a variable of an incoming substitution, under the
    representative of its name.  No variable is created. *)
Theorem _merge_substs_result (subst : nat) (new_substs : list nat) (h : Heap) :
  Forall (λ ns, ns < length (dicts h)) new_substs →
  ∃ o' p',
    _merge_substs subst new_substs h
    = (Ret (length (dicts h)), mkHeap (matcher h) p' (dicts h ++ [o']))
    ∧ length p' = length (program h)
    ∧ uf o' = uf (dict_at h subst)
    ∧ (∀ k v, items (dict_at h subst) !! k = Some v → items o' !! k = Some v)
    ∧ (∀ ns name v, ns ∈ new_substs → items (dict_at h ns) !! name = Some v →
         contains o' name = true)
    ∧ (∀ k v, items o' !! k = Some v →
         items (dict_at h subst) !! k = Some v
         ∨ ∃ ns name, ns ∈ new_substs ∧ items (dict_at h ns) !! name = Some v
                      ∧ find_by_name (uf (dict_at h subst)) name = k).
Proof.
  intros Hns. destruct (_merge_substs_run subst new_substs h Hns)
    as (o' & p' & Hrun & Hlen & [Hu Hk Hb Hf]).
  exists o', p'. repeat split; try done.
  - intros ns name v Hin Hv. apply (Hb name v), elem_of_incoming. eauto.
  - intros k v Hv. destruct (Hf k v Hv) as [?|(name & Hin & Hr)]; [by left|].
    right. apply elem_of_incoming in Hin as (ns & Hin & Hv'). eauto 6.
Qed.

(** The inner loop leaves a dict alone that has all the items already. *)
Lemma merge_items_same (kvs : list (string * nat)) m p ds cur :
  (∀ name var, (name, var) ∈ kvs →
     items cur !! find_by_name (uf cur) name = Some var) →
  for_each kvs tt (λ '(name, var) _,
    c <- dict_contains (length ds) name ;;
    if negb c then dict_setitem (length ds) name var
    else
      old <- dict_getitem (length ds) name ;;
      if negb (bool_decide (old = var))
      then call (λ p, (tt, PasteVariable old var p))
      else ret tt) (mkHeap m p (ds ++ [cur]))
  = (Ret tt, mkHeap m p (ds ++ [cur])).
Proof.
  induction kvs as [|[name var] kvs IH]; intros Hkvs; [done|].
  rewrite run_for_each_cons. run. rewrite dict_at_snoc.
  assert (Hv : items cur !! find_by_name (uf cur) name = Some var)
    by (apply Hkvs; by apply elem_of_cons; left).
  assert (Hc : contains cur name = true).
  { unfold contains. apply bool_decide_eq_true. eauto. }
  rewrite Hc. cbn [negb]. rewrite run_bind, run_dict_getitem, dict_at_snoc, Hv.
  rewrite bool_decide_eq_true_2 by done. cbn [negb]. run.
  apply IH. intros name' var' Hin. apply Hkvs. by apply elem_of_cons; right.
Qed.

(** X9: merging a substitution into itself changes nothing: when every key of
    the dict is its own representative, the result is a copy of it, and the
    variables are as they were. *)
Theorem _merge_substs_self (subst : nat) (h : Heap) :
  subst < length (dicts h) →
  (∀ k, is_Some (items (dict_at h subst) !! k) →
        find_by_name (uf (dict_at h subst)) k = k) →
  _merge_substs subst [subst] h
  = (Ret (length (dicts h)),
     mkHeap (matcher h) (program h) (dicts h ++ [dict_at h subst])).
Proof.
  intros Hlt Hrep. destruct h as [m p ds]. cbn [dicts matcher program] in *.
  unfold _merge_substs. run. rewrite run_for_each_cons. run.
  assert (Hat : dict_at (mkHeap m p (ds ++ [dict_at (mkHeap m p ds) subst])) subst
                = dict_at (mkHeap m p ds) subst).
  { unfold dict_at. simpl. by rewrite lookup_app_l. }
  rewrite Hat. rewrite merge_items_same; [by run|].
  intros name var Hin. apply elem_of_dict_items in Hin.
  rewrite Hrep by eauto. done.
Qed.

(** ** Ambiguous values as types *)
Lemma mutate_variables_run (params : list Value) (value : Value)
    (kvs : list (string * nat)) (h : Heap) :
  for_each params kvs (λ p kvs,
    var <- to_variable value ;; ret (kvs ++ [(full_name p, var)])) h
  = (Ret (kvs ++ zip (full_name <$> params)
                     (seq (length (program h)) (length params))),
     mkHeap (matcher h) (program h ++ replicate (length params) [value]) (dicts h)).
Proof.
  revert kvs h. induction params as [|p params IH]; intros kvs h.
  - cbn. rewrite !app_nil_r. by destruct h.
  - rewrite run_for_each_cons. run. rewrite IH. cbn [program matcher dicts].
    rewrite length_app, Nat.add_1_r. cbn [length fmap list_fmap seq zip zip_with replicate].
    by rewrite <- !app_assoc.
Qed.

Lemma dict_display_binds (kvs : list (string * nat)) (o : DictObj) (k : string) :
  uf o = [] →
  k ∈ kvs.*1 ∨ is_Some (items o !! k) →
  is_Some (items (foldl (λ o kv, setitem kv.1 kv.2 o) o kvs) !! k).
Proof.
  revert o. induction kvs as [|[k' v] kvs IH]; intros o Hu.
  - intros [Hin|?]; [by apply elem_of_nil in Hin|done].
  - intros Hk. cbn [foldl fst snd]. apply IH; [done|].
    unfold setitem. cbn [items]. rewrite Hu. cbn [find_by_name list_find].
    destruct (decide (k = k')) as [->|Hne].
    + right. rewrite lookup_insert_eq. eauto.
    + destruct Hk as [Hin|?].
      * left. rewrite fmap_cons in Hin. apply elem_of_cons in Hin as [?|?]; done.
      * right. by rewrite lookup_insert_ne.
Qed.

(** _mutate_type_parameters never fails: it returns a new dict that keeps the
    entries of the substitution and binds the full name of every parameter. *)
Lemma _mutate_type_parameters_run (params : list Value) (value : Value) (subst : nat)
    (h : Heap) :
  ∃ d h',
    _mutate_type_parameters params value subst h = (Ret d, h')
    ∧ matcher h' = matcher h
    ∧ dicts h `prefix_of` dicts h'
    ∧ (∀ k v, items (dict_at h subst) !! k = Some v → items (dict_at h' d) !! k = Some v)
    ∧ (∀ p, p ∈ params → contains (dict_at h' d) (full_name p) = true).
Proof.
  unfold _mutate_type_parameters. rewrite run_bind, mutate_variables_run.
  unfold dict_display. run.
  match goal with |- context [_merge_substs subst [?l] ?h2] =>
    destruct (_merge_substs_run subst [l] h2) as (o' & p' & Hrun & Hlen & [Hu Hk Hb Hf])
  end.
  { apply Forall_singleton. cbn [dicts]. rewrite length_app. simpl. lia. }
  cbn [dicts matcher program] in *. rewrite Hrun.
  eexists _, _. split; [done|]. cbn [matcher dicts].
  rewrite dict_at_snoc.
  split; [done|]. split; [rewrite <- app_assoc; by apply prefix_app_r|]. split.
  - intros k v Hv. apply Hk.
    assert (Hlt : subst < length (dicts h)).
    { apply lookup_lt_is_Some. unfold dict_at in Hv.
      destruct (dicts h !! subst); [eauto|]. simpl in Hv. by rewrite lookup_empty in Hv. }
    unfold dict_at in *. cbn [dicts]. by rewrite lookup_app_l.
  - intros p Hp.
    assert (Hsome : is_Some (items (foldl (λ o kv, setitem kv.1 kv.2 o) empty_dict
                                      ([] ++ zip (full_name <$> params)
                                                 (seq (length (program h)) (length params))))
                             !! full_name p)).
    { apply dict_display_binds; [done|]. left. cbn [app].
      rewrite fst_zip by (rewrite length_fmap, length_seq; lia).
      apply list_elem_of_fmap. eauto. }
    destruct Hsome as [v Hv]. apply (Hb (full_name p) v), elem_of_incoming.
    exists (length (dicts h)). split; [by apply list_elem_of_singleton|].
    by rewrite lookup_app_r, Nat.sub_diag.
Qed.

(** X10: an Unknown, an Unsolvable or an Empty value on the left matches every
    formal type.  The substitution returned keeps the entries of the given
    one, and unless both sides are Empty it binds the full name of every
    type parameter of the formal type. *)
Theorem ambiguous_type_matches (R : Rec) (left other_type : Value) (subst : nat)
    (view : gmap nat Value) (h : Heap) :
  isinstance_any left AMBIGUOUS_OR_EMPTY = true →
  ∃ d h',
    _match_type_against_type R left other_type subst view h = (Ret (Some d), h')
    ∧ matcher h' = matcher h
    ∧ dicts h `prefix_of` dicts h'
    ∧ (∀ k v, items (dict_at h subst) !! k = Some v → items (dict_at h' d) !! k = Some v)
    ∧ (isinstance left abstract_Empty && isinstance other_type abstract_Empty = false →
       ∀ p, p ∈ get_type_parameters other_type →
            contains (dict_at h' d) (full_name p) = true).
Proof.
  intros Hamb. unfold _match_type_against_type.
  destruct (isinstance left abstract_Empty && isinstance other_type abstract_Empty) eqn:He.
  - exists subst, h. by repeat split.
  - rewrite Hamb. rewrite run_bind.
    destruct (_mutate_type_parameters_run (get_type_parameters other_type)
                (if isinstance left abstract_Empty then convert_empty
                 else convert_unsolvable) subst h)
      as (d & h' & Hrun & Hm & Hd & Hk & Hb).
    rewrite Hrun. exists d, h'. by repeat split.
Qed.

(** ** Classes, modules and functions on the left *)
(** X11: every class, module and function matches builtins.object, and nothing of
    the state changes. *)
Theorem matches_builtins_object (R : Rec) (left other_type : Value) (subst : nat)
    (view : gmap nat Value) (h : Heap) :
  full_name other_type = "builtins.object" →
  isinstance_any left AMBIGUOUS_OR_EMPTY = false →
  isinstance left abstract_Class || isinstance left abstract_Module
    || isinstance_any left FUNCTION_TYPES = true →
  _match_type_against_type R left other_type subst view h = (Ret (Some subst), h).
Proof.
  intros Hname Hamb Hkind. unfold _match_type_against_type.
  assert (He : isinstance left abstract_Empty = false).
  { unfold isinstance_any, AMBIGUOUS_OR_EMPTY, AMBIGUOUS in Hamb. cbn in Hamb.
    by repeat (apply orb_false_iff in Hamb as [? Hamb]). }
  rewrite He, Hamb, Hname. cbn [andb].
  destruct (isinstance left abstract_Class); [done|].
  destruct (isinstance left abstract_Module); [done|].
  cbn [orb] in Hkind. by rewrite Hkind.
Qed.

(** X12: the matcher has no case for a value on the left that is none of the
    kinds it tests for, nor for a formal type of an instance that is no
    class: it raises NotImplementedError, except that nothing matches the
    Empty type. *)
Theorem unsupported_operands (R : Rec) (left other_type : Value) (subst : nat)
    (view : gmap nat Value) (h : Heap) :
  (isinstance_any left AMBIGUOUS_OR_EMPTY = false →
   isinstance left abstract_Class = false →
   isinstance left abstract_Module = false →
   isinstance_any left FUNCTION_TYPES = false →
   isinstance left dataclass_overlay_FieldInstance = false →
   isinstance left abstract_SimpleValue = false →
   isinstance left special_builtins_SuperInstance = false →
   isinstance left abstract_ClassMethod = false →
   isinstance left abstract_StaticMethod = false →
   isinstance left abstract_Union = false →
   isinstance left abstract_TypeParameterInstance = false →
   _match_type_against_type R left other_type subst view h
   = (Raise NotImplementedError, h))
  ∧ (isinstance other_type abstract_LiteralClass = false →
     isinstance other_type typed_dict_TypedDictClass = false →
     isinstance other_type abstract_Class = false →
     _match_instance_against_type R left other_type subst view h
     = if isinstance other_type abstract_Empty then (Ret None, h)
       else (Raise NotImplementedError, h)).
Proof.
  split.
  - intros Hamb H1 H2 H3 H4 H5 H6 H7 H8 H9 H10. unfold _match_type_against_type.
    assert (He : isinstance left abstract_Empty = false).
    { unfold isinstance_any, AMBIGUOUS_OR_EMPTY, AMBIGUOUS in Hamb. cbn in Hamb.
      by repeat (apply orb_false_iff in Hamb as [? Hamb]). }
    by rewrite He, Hamb, H1, H2, H3, H4, H5, H6, H7, H8, H9, H10.
  - intros H1 H2 H3. unfold _match_instance_against_type. rewrite H1, H2, H3.
    by destruct (isinstance other_type abstract_Empty).
Qed.

(** Matching one option of a Union on the left. *)
Definition tries_type (R : Rec) (other_type : Value) (subst : nat) (view : gmap nat Value)
    (o : Value) : M (option nat) :=
  rec_match_type_against_type R o other_type subst view.

Lemma union_left_loop (R : Rec) (other_type : Value) (subst : nat) (view : gmap nat Value)
    (os : list Value) (h : Heap) :
  (∀ pre o post s h1 h2, os = pre ++ o :: post →
     runs (tries_type R other_type subst view) (λ r, r = None) pre h h1 →
     tries_type R other_type subst view o h1 = (Ret (Some s), h2) →
     or_return
       (for_ os tt (λ o _,
          new_subst <- rec_match_type_against_type R o other_type subst view ;;
          match new_subst with
          | Some s => ret (Return (Some s))
          | None => ret (Next tt)
          end))
       (λ _, ret None) h = (Ret (Some s), h2))
  ∧ (∀ h', runs (tries_type R other_type subst view) (λ r, r = None) os h h' →
     or_return
       (for_ os tt (λ o _,
          new_subst <- rec_match_type_against_type R o other_type subst view ;;
          match new_subst with
          | Some s => ret (Return (Some s))
          | None => ret (Next tt)
          end))
       (λ _, ret None) h = (Ret None, h')).
Proof.
  split.
  - intros pre o post s h1 h2 -> Hpre Hhit.
    induction Hpre as [h|x xs r h h1 h3 Hrun -> _ IH].
    + rewrite run_or_return. cbn [app]. rewrite run_for_cons, run_bind.
      unfold tries_type in Hhit. by rewrite Hhit.
    + rewrite run_or_return in *. cbn [app]. rewrite run_for_cons, run_bind.
      unfold tries_type in Hrun. rewrite Hrun. by apply IH.
  - intros h' Hall. induction Hall as [h|x xs r h h1 h3 Hrun -> _ IH]; [done|].
    rewrite run_or_return in *. rewrite run_for_cons, run_bind.
    unfold tries_type in Hrun. by rewrite Hrun.
Qed.

(** X13: a Union on the left matches as its first option that matches does, the
    options tried in order and from the same substitution; it does not
    match when none of them does. *)
Theorem union_on_the_left (R : Rec) (left other_type : Value) (subst : nat)
    (view : gmap nat Value) (h : Heap) :
  isinstance_any left AMBIGUOUS_OR_EMPTY = false →
  isinstance left abstract_Class = false →
  isinstance left abstract_Module = false →
  isinstance_any left FUNCTION_TYPES = false →
  isinstance left dataclass_overlay_FieldInstance = false →
  isinstance left abstract_SimpleValue = false →
  isinstance left special_builtins_SuperInstance = false →
  isinstance left abstract_ClassMethod = false →
  isinstance left abstract_StaticMethod = false →
  isinstance left abstract_Union = true →
  (∀ pre o post s h1 h2, options left = pre ++ o :: post →
     runs (tries_type R other_type subst view) (λ r, r = None) pre h h1 →
     tries_type R other_type subst view o h1 = (Ret (Some s), h2) →
     _match_type_against_type R left other_type subst view h = (Ret (Some s), h2))
  ∧ (∀ h', runs (tries_type R other_type subst view) (λ r, r = None) (options left) h h' →
     _match_type_against_type R left other_type subst view h = (Ret None, h')).
Proof.
  intros Hamb H1 H2 H3 H4 H5 H6 H7 H8 H9.
  assert (He : isinstance left abstract_Empty = false).
  { unfold isinstance_any, AMBIGUOUS_OR_EMPTY, AMBIGUOUS in Hamb. cbn in Hamb.
    by repeat (apply orb_false_iff in Hamb as [? Hamb]). }
  unfold _match_type_against_type.
  rewrite He, Hamb, H1, H2, H3, H4, H5, H6, H7, H8, H9. cbn [andb].
  apply union_left_loop.
Qed.

(** ** Instances against classes *)
Lemma _satisfies_noniterable_str_plain (left other_type : Value) :
  isinstance other_type abstract_ParameterizedClass = false →
  _satisfies_noniterable_str left other_type = true.
Proof.
  intros Hp. unfold _satisfies_noniterable_str. rewrite Hp. by destruct (_ || _).
Qed.

(** X14: nominal subtyping: an instance matches every class without parameters
    that match_from_mro finds for the class of the instance, tuples apart,
    and the substitution and the state are left as they are. *)
Theorem instance_matches_class_in_mro (R : Rec) (left other_type base : Value)
    (subst : nat) (view : gmap nat Value) (h : Heap) :
  isinstance other_type abstract_LiteralClass = false →
  isinstance other_type typed_dict_TypedDictClass = false →
  isinstance other_type abstract_Class = true →
  isinstance other_type abstract_ParameterizedClass = false →
  isinstance other_type abstract_TupleClass = false →
  isinstance left abstract_Tuple = false →
  isinstance base abstract_TupleClass = false →
  match_from_mro (cls left) other_type true = Some base →
  _match_instance_against_type R left other_type subst view h = (Ret (Some subst), h).
Proof.
  intros Hlit Htd Hcls Hp Htc Ht Hbt Hbase. unfold _match_instance_against_type.
  rewrite Hlit, Htd, Hcls, (_satisfies_noniterable_str_plain _ _ Hp), Hbase. cbn [negb].
  assert (Hmp : ∀ l, _match_maybe_parameterized_instance R l left other_type subst view h
                     = (Ret (Some subst), h)).
  { intros l. unfold _match_maybe_parameterized_instance. by rewrite Hp. }
  destruct (isinstance_any base AMBIGUOUS_OR_EMPTY); [apply Hmp|].
  unfold _match_instance. rewrite Hbt, Ht, Htc. cbn [orb].
  destruct (_ || _); [|apply Hmp].
  unfold _match_callable_instance. rewrite Hp. by rewrite orb_true_r.
Qed.


(** ** Tuples *)
(** [threads f xs s h s' h']: running [f] on the elements of [xs] in turn,
    each from the substitution that the one before returned, starting from
    [s] in [h], succeeds each time and ends with [s'] in [h']. *)
Inductive threads {X} (f : X → nat → M (option nat))
  : list X → nat → Heap → nat → Heap → Prop :=
| threads_nil s h : threads f [] s h s h
| threads_cons x xs s s1 h h1 s2 h2 :
    f x s h = (Ret (Some s1), h1) → threads f xs s1 h1 s2 h2 →
    threads f (x :: xs) s h s2 h2.

(** The loop of a tuple over its elements and the parameters of a tuple
    class, from index [k] on. *)
Lemma tuple_elements_loop (R : Rec) (instance other_type : Value) (view : gmap nat Value)
    (pairs : list (nat * Value)) (k m : nat) (s : nat) (h : Heap) (s1 : nat) (h1 : Heap) :
  (∀ i p, pairs !! i = Some p →
     tuple_pyval instance !! (k + i) = Some p.1
     ∧ formal_type_parameters other_type (k + i) = Some p.2) →
  threads (λ p s, rec_match_var_against_type R p.1 p.2 s view) pairs s h s1 h1 →
  for_ (R:=option nat) (seq k (length pairs + m)) s (λ i subst,
    match tuple_pyval instance !! i, formal_type_parameters other_type i with
    | Some instance_param, Some class_param =>
        s <- rec_match_var_against_type R instance_param class_param subst view ;;
        match s with
        | None => ret (Return None)
        | Some s => ret (Next s)
        end
    | _, _ => raise KeyError
    end) h
  = for_ (R:=option nat) (seq (k + length pairs) m) s1 (λ i subst,
      match tuple_pyval instance !! i, formal_type_parameters other_type i with
      | Some instance_param, Some class_param =>
          s <- rec_match_var_against_type R instance_param class_param subst view ;;
          match s with
          | None => ret (Return None)
          | Some s => ret (Next s)
          end
      | _, _ => raise KeyError
      end) h1.
Proof.
  intros Hpairs Ht. revert k Hpairs.
  induction Ht as [s h|p ps s s1 h h1 s2 h2 Hrun _ IH]; intros k Hpairs.
  - cbn [length]. by rewrite Nat.add_0_r.
  - cbn [length plus seq]. rewrite run_for_cons.
    destruct (Hpairs 0 p eq_refl) as [Hv Hc]. rewrite Nat.add_0_r in Hv, Hc.
    rewrite Hv, Hc, run_bind, Hrun, run_ret.
    rewrite (IH (S k)).
    + by rewrite Nat.add_succ_r.
    + intros i q Hq. rewrite Nat.add_succ_l, <- Nat.add_succ_r. by apply Hpairs.
Qed.

(** X16: a tuple against a tuple class.  It does not match a tuple class of
    another length, whatever its elements.  Against a tuple class of its
    length, the elements are matched in order against the parameters of the
    class, each from the substitution of the one before: the tuple matches,
    with the last substitution, when they all do, and does not match as soon
    as one does not. *)
Theorem tuple_against_tuple_class (R : Rec) (left instance other_type : Value)
    (subst : nat) (view : gmap nat Value) (h : Heap) :
  isinstance instance abstract_Tuple = true →
  isinstance other_type abstract_TupleClass = true →
  (tuple_length instance ≠ tuple_length other_type →
   _match_instance R left instance other_type subst view h = (Ret None, h))
  ∧ (∀ pairs : list (nat * Value),
       tuple_length instance = tuple_length other_type →
       (∀ i p, pairs !! i = Some p →
          tuple_pyval instance !! i = Some p.1
          ∧ formal_type_parameters other_type i = Some p.2) →
       (∀ s' h',
          length pairs = tuple_length instance →
          tuple_pyval instance ≠ [] →
          threads (λ p s, rec_match_var_against_type R p.1 p.2 s view) pairs subst h s' h' →
          _match_instance R left instance other_type subst view h = (Ret (Some s'), h'))
       ∧ (∀ pre p post s1 h1 h2,
            pairs = pre ++ p :: post →
            length pairs = tuple_length instance →
            threads (λ p s, rec_match_var_against_type R p.1 p.2 s view) pre subst h s1 h1 →
            rec_match_var_against_type R p.1 p.2 s1 view h1 = (Ret None, h2) →
            _match_instance R left instance other_type subst view h = (Ret None, h2))).
Proof.
  intros Ht Htc.
  assert (Hm : _match_instance R left instance other_type subst view h
               = _match_heterogeneous_tuple_instance R left instance other_type subst view h).
  { unfold _match_instance. by rewrite Ht, orb_true_r. }
  rewrite Hm. unfold _match_heterogeneous_tuple_instance. rewrite Ht, Htc. split.
  - intros Hlen. rewrite (bool_decide_eq_false_2 _ Hlen). by rewrite run_bind.
  - intros pairs Hlen Hpairs. rewrite (bool_decide_eq_true_2 _ Hlen). split.
    + intros s' h' Hn Hne Hthreads. rewrite run_bind, run_or_return.
      rewrite <- Hn, <- (Nat.add_0_r (length pairs)).
      rewrite (tuple_elements_loop R instance other_type view pairs 0 0 _ _ _ _ Hpairs Hthreads).
      cbn [seq for_]. rewrite !run_ret.
      by destruct (tuple_pyval instance).
    + intros pre p post s1 h1 h2 -> Hn Hpre Hfail. rewrite run_bind, run_or_return.
      rewrite <- Hn, length_app.
      assert (Hpre' : ∀ i q, pre !! i = Some q →
                tuple_pyval instance !! (0 + i) = Some q.1
                ∧ formal_type_parameters other_type (0 + i) = Some q.2).
      { intros i q Hq. apply Hpairs. by apply lookup_app_l_Some. }
      rewrite (tuple_elements_loop R instance other_type view pre 0 _ _ _ _ _ Hpre' Hpre).
      cbn [length plus seq]. rewrite run_for_cons.
      destruct (Hpairs (length pre) p) as [Hv Hc].
      { by rewrite lookup_app_r, Nat.sub_diag. }
      rewrite Hv, Hc, run_bind, Hfail. done.
Qed.

(** ** Callables *)
(** X17: a signature does not match a callable that gives fewer arguments than
    the signature has mandatory parameters, or more arguments than the
    signature takes. *)
Theorem signature_arity (R : Rec) (sig : Signature) (other_type : Value) (subst : nat)
    (view : gmap nat Value) (h : Heap) (s : nat) :
  isinstance other_type abstract_CallableClass = true →
  num_args other_type < mandatory_param_count sig
  ∨ (∃ max_argcount, maximum_param_count sig = Some max_argcount
                     ∧ max_argcount < num_args other_type) →
  (_match_signature_against_callable R sig other_type subst view h).1 ≠ Ret (Some s).
Proof.
  intros Hcc Harity. unfold _match_signature_against_callable. cbv zeta.
  rewrite run_bind.
  destruct (_get_param_matcher other_type _ _ subst h) as [[[s0|]| |] h0]; try done.
  - rewrite run_bind, run_ret, Hcc. cbn [negb].
    destruct Harity as [Hlt|(mx & Hmx & Hlt)].
    + by rewrite (bool_decide_eq_true_2 _ Hlt).
    + destruct (bool_decide _); [done|]. rewrite Hmx.
      by rewrite (bool_decide_eq_true_2 _ Hlt).
  - rewrite run_bind.
    destruct (_instantiate_and_match R _ _ subst view _ h0) as [[[s1|]| |] h1]; try done.
    rewrite Hcc. cbn [negb].
    destruct Harity as [Hlt|(mx & Hmx & Hlt)].
    + by rewrite (bool_decide_eq_true_2 _ Hlt).
    + destruct (bool_decide _); [done|]. rewrite Hmx.
      by rewrite (bool_decide_eq_true_2 _ Hlt).
Qed.


(** ** All the bindings of a variable *)
(** The views a plain [for] loop gets from the generator of get_views. *)
Fixpoint views_of (g : Views Value) : list (gmap nat Value) :=
  match g with
  | StopIteration => []
  | Yield view send => view :: views_of (send None)
  end.

Lemma for_views_for {S R} (g : Views Value) (s : S)
    (body : gmap nat Value → S → M (flow S R)) (h : Heap) :
  for_views g s body h = for_ (views_of g) s body h.
Proof.
  revert s h. induction g as [|view send IH]; intros s h; [done|].
  cbn [for_views views_of for_]. rewrite !run_bind.
  destruct (body view s h) as [[[s'|s'|r]| |] h1]; first [done|apply IH].
Qed.

(** [collects f xs h ss h']: running [f] on the elements of [xs] in turn,
    from [h], returns each time, the substitutions returned are [ss], in
    order, and the runs end in [h']. *)
Inductive collects {X} (f : X → M (option nat)) : list X → Heap → list nat → Heap → Prop :=
| collects_nil h : collects f [] h [] h
| collects_cons x xs r h h1 ss h2 :
    f x h = (Ret r, h1) → collects f xs h1 ss h2 →
    collects f (x :: xs) h (option_list r ++ ss) h2.

Lemma collects_loop {X} (f : X → M (option nat)) xs h ss h' (acc : list nat) :
  collects f xs h ss h' →
  for_ (R:=option nat) xs acc (λ x acc,
    new_subst <- f x ;;
    match new_subst with
    | Some s => ret (Next (acc ++ [s]))
    | None => ret (Next acc)
    end) h = (Ret (inl (acc ++ ss)), h').
Proof.
  intros Hc. revert acc. induction Hc as [h|x xs r h h1 ss h2 Hrun _ IH]; intros acc.
  - by rewrite app_nil_r.
  - rewrite run_for_cons, run_bind, Hrun. destruct r as [s|]; rewrite run_ret.
    + rewrite IH. cbn [option_list app]. by rewrite <- app_assoc.
    + by rewrite IH.
Qed.

(** X19: _match_all_bindings tries every view of the variable, an entry of the
    given view taking precedence over the one of the new view, each from the
    substitution given.  It merges the substitutions of the views that match;
    when no view matches, the match fails if a binding of the variable is
    visible, and otherwise succeeds, with the type parameters of the formal
    type filled in. *)
Theorem _match_all_bindings_collects (R : Rec) (var : nat) (other_type : Value)
    (subst : nat) (view : gmap nat Value) (h : Heap) (ss : list nat) (h1 : Heap) :
  collects (λ new_view, rec_match_var_against_type R var other_type subst (view ∪ new_view))
    (views_of (get_views [var] (program h))) h ss h1 →
  _match_all_bindings R var other_type subst view h
  = match ss with
    | _ :: _ => (s <- _merge_substs subst ss ;; ret (Some s)) h1
    | [] =>
        match Filter var (program h1) with
        | _ :: _ => (Ret None, h1)
        | [] => (s <- _subst_with_type_parameters_from subst other_type ;; ret (Some s)) h1
        end
    end.
Proof.
  intros Hc. unfold _match_all_bindings. rewrite run_bind, run_read, run_or_return.
  rewrite for_views_for.
  rewrite (collects_loop (λ new_view,
             rec_match_var_against_type R var other_type subst (view ∪ new_view))
             _ _ _ _ [] Hc).
  cbn [app]. destruct ss as [|s ss]; [|done].
  rewrite run_bind, run_read. by destruct (Filter var (program h1)).
Qed.

(** ** The recursion breakers *)
(** X20: a pair of a class and a protocol that is in the protocol cache matches
    at once: the attributes of the protocol are not looked at again. *)
Theorem protocol_cache_hit (R : Rec) (left other_type : Value) (subst : nat)
    (view : gmap nat Value) (h : Heap) :
  isinstance_any (cls left) AMBIGUOUS_OR_EMPTY = false →
  is_dynamic (cls left) = false →
  protocol_attributes other_type ∖ _get_attribute_names left = ∅ →
  (cls left, other_type) ∈ _protocol_cache (matcher h) →
  _match_against_protocol R left other_type subst view h = (Ret (Some subst), h).
Proof.
  intros Hamb Hdyn Hmiss Hin. unfold _match_against_protocol.
  rewrite Hamb, Hdyn, (bool_decide_eq_true_2 _ Hmiss). cbn [negb].
  rewrite run_bind, run_get_matcher. by rewrite (bool_decide_eq_true_2 _ Hin).
Qed.

(** [gathers f xs h ss h']: running [f] on the elements of [xs] in turn,
    from [h], succeeds each time, with the substitutions [ss], and ends in
    [h']. *)
Inductive gathers {X} (f : X → M (option nat)) : list X → Heap → list nat → Heap → Prop :=
| gathers_nil h : gathers f [] h [] h
| gathers_cons x xs s h h1 ss h2 :
    f x h = (Ret (Some s), h1) → gathers f xs h1 ss h2 →
    gathers f (x :: xs) h (s :: ss) h2.

Lemma gathers_loop {X} (f : X → M (option nat)) pre rest h ss h1 (acc : list nat) :
  gathers f pre h ss h1 →
  for_ (R:=option nat) (pre ++ rest) acc (λ x acc,
    new_subst <- f x ;;
    match new_subst with
    | None => ret (Return None)
    | Some s => ret (Next (acc ++ [s]))
    end) h
  = for_ (R:=option nat) rest (acc ++ ss) (λ x acc,
      new_subst <- f x ;;
      match new_subst with
      | None => ret (Return None)
      | Some s => ret (Next (acc ++ [s]))
      end) h1.
Proof.
  intros Hg. revert acc. induction Hg as [h|x xs s h h1 ss h2 Hrun _ IH]; intros acc.
  - by rewrite app_nil_r.
  - cbn [app]. rewrite run_for_cons, run_bind, Hrun, run_ret.
    rewrite IH. by rewrite <- app_assoc.
Qed.


(** X22: a pair of a value and a recursive annotation that is in the cache of
    recursive annotations matches at once, with the substitution given. *)
Theorem recursive_annotation_cached (R : Rec) (value : Binding Value) (other_type : Value)
    (subst : nat) (view : gmap nat Value) (h : Heap) :
  not_Final (data value) → not_Final other_type →
  is_recursive_annotation other_type = true →
  (data value, other_type) ∈ _recursive_annots_cache (matcher h) →
  _match_value_against_type R value other_type subst view h = (Ret (Some subst), h).
Proof.
  intros Hl Ho Hrec Hin. unfold _match_value_against_type.
  rewrite (run_bind_ret _ _ _ _ _ (_unwrap_final_not_Final _ h Hl)).
  rewrite (run_bind_ret _ _ _ _ _ (_unwrap_final_not_Final _ h Ho)).
  unfold recursive_annotation_seen. rewrite Hrec.
  rewrite !run_bind, run_get_matcher. by rewrite (bool_decide_eq_true_2 _ Hin).
Qed.

(** X23: whatever the outcome of matching a value against a recursive
    annotation, the pair is in the cache of recursive annotations
    afterwards. *)
Theorem recursive_annotation_recorded (fuel : nat) (value : Binding Value)
    (other_type : Value) (subst : nat) (view : gmap nat Value) (h : Heap) :
  not_Final (data value) → not_Final other_type →
  is_recursive_annotation other_type = true →
  (data value, other_type)
  ∈ _recursive_annots_cache
      (matcher (_match_value_against_type (methods fuel) value other_type subst view h).2).
Proof.
  intros Hl Ho Hrec. unfold _match_value_against_type.
  rewrite (run_bind_ret _ _ _ _ _ (_unwrap_final_not_Final _ h Hl)).
  rewrite (run_bind_ret _ _ _ _ _ (_unwrap_final_not_Final _ h Ho)).
  unfold recursive_annotation_seen. rewrite Hrec.
  rewrite !run_bind, run_get_matcher.
  case_bool_decide as Hin; [by rewrite run_ret|].
  rewrite run_bind. unfold set_recursive_annots_cache, set_matcher. rewrite run_ret.
  match goal with |- context [bind ?m ?k ?h1] =>
    assert (Hp : preserves 0 true (bind m k)); [|destruct (Hp h1) as (_ & _ & Hc & _)]
  end.
  - apply preserves_bind.
    + destruct (formal (data value)); preserves_auto.
    + intros left. apply preserves_bind; [apply preserves_assert|]. intros _.
      apply preserves_dispatch, preserves_methods.
  - cbn [dicts]. lia.
  - apply Hc. cbn [matcher _recursive_annots_cache]. by apply elem_of_cons; left.
Qed.

(** ** Values against type variables *)
Lemma constraints_loop_none (R : Rec) (value : Binding Value) (subst : nat)
    (view : gmap nat Value) (cs : list Value) (h h' : Heap) :
  runs (tries R value subst view) (λ r, r = None) cs h h' →
  for_ (R:=unit) cs false (λ c _,
    new_subst <- rec_match_value_against_type R value c subst view ;;
    match new_subst with
    | Some _ => ret (Break true)
    | None => ret (Next false)
    end) h = (Ret (inl false), h').
Proof.
  induction 1 as [h|c cs r h h1 h2 Hrun -> _ IH]; [done|].
  rewrite run_for_cons, run_bind. unfold tries in Hrun. by rewrite Hrun.
Qed.

(** X24: a value that matches none of the constraints of a type variable does not
    match the type variable, and afterwards the field _error_subst of the
    matcher holds the substitution at hand, for the error message; nothing
    else has changed since the constraints were tried. *)
Theorem constrained_TypeVar_no_match (R : Rec) (value : Binding Value) (other_type : Value)
    (subst : nat) (view : gmap nat Value) (h h' : Heap) :
  not_Final (data value) → not_Final other_type →
  is_recursive_annotation other_type = false →
  formal (data value) = false →
  isinstance (data value) abstract_TypeParameterInstance
    && attached_to_callable (data value) = false →
  isinstance other_type abstract_TypeParameter = true →
  constraints other_type ≠ [] →
  runs (tries R value subst view) (λ r, r = None) (constraints other_type) h h' →
  ∃ h'',
    _match_value_against_type R value other_type subst view h = (Ret None, h'')
    ∧ _error_subst (matcher h'') = Some subst
    ∧ same_but_errors h' h''
    ∧ _protocol_error (matcher h'') = _protocol_error (matcher h')
    ∧ _noniterable_str_error (matcher h'') = _noniterable_str_error (matcher h')
    ∧ _typed_dict_error (matcher h'') = _typed_dict_error (matcher h').
Proof.
  intros Hl Ho Hrec Hformal Htpi Htp Hcs Hruns.
  rewrite _match_value_against_type_dispatch by done.
  unfold dispatch. rewrite Htpi, Htp. unfold match_TypeParameter.
  rewrite run_bind, (constraints_loop_none _ _ _ _ _ _ _ Hruns).
  rewrite (bool_decide_eq_false_2 (inl false = inl true)) by done.
  rewrite (bool_decide_eq_false_2 _ Hcs). cbn [negb andb].
  rewrite run_bind. unfold set_error_subst, set_matcher. rewrite run_ret.
  eexists. split; [reflexivity|]. by repeat split.
Qed.

Lemma AddBinding_fresh (p : Program Value) (d : Value) :
  AddBinding (length p) d (p ++ [[]]) = p ++ [[d]].
Proof. unfold AddBinding. by rewrite alter_snoc. Qed.

(** X25: matching a value, the only binding of its variable, against a bare type
    variable that the substitution does not bind yet: the match succeeds
    when the value, unless it is ambiguous, has a superclass below object,
    and then binds the type variable, in a copy of the substitution, to a new
    variable that holds the value; otherwise it fails, and afterwards the
    field _error_subst of the matcher holds the substitution; the new
    variable apart, nothing else has changed. *)
Theorem bare_TypeVar_binds (R : Rec) (value : Binding Value) (other_type : Value)
    (subst : nat) (view : gmap nat Value) (h : Heap) :
  not_Final (data value) → not_Final other_type →
  is_recursive_annotation other_type = false →
  formal (data value) = false →
  isinstance (data value) abstract_TypeParameterInstance
    && attached_to_callable (data value) = false →
  isinstance other_type abstract_TypeParameter = true →
  constraints other_type = [] →
  bound other_type = None →
  contains (dict_at h subst) (full_name other_type) = false →
  var_data (variable value) (program h) = [data value] →
  let new_left := get_maybe_abstract_instance (data value) in
  let run := _match_value_against_type R value other_type subst view h in
  (_satisfies_common_superclass (_discard_ambiguous_values [new_left]) = true →
   run = (Ret (Some (length (dicts h))),
          mkHeap (matcher h) (program h ++ [[new_left]])
            (dicts h ++ [setitem (full_name other_type) (length (program h))
                           (dict_at h subst)])))
  ∧ (_satisfies_common_superclass (_discard_ambiguous_values [new_left]) = false →
     ∃ h',
       run = (Ret None, h')
       ∧ _error_subst (matcher h') = Some subst
       ∧ program h' = program h ++ [[new_left]]
       ∧ dicts h' = dicts h
       ∧ _protocol_cache (matcher h') = _protocol_cache (matcher h)
       ∧ _recursive_annots_cache (matcher h') = _recursive_annots_cache (matcher h)
       ∧ _protocol_error (matcher h') = _protocol_error (matcher h)
       ∧ _noniterable_str_error (matcher h') = _noniterable_str_error (matcher h)
       ∧ _typed_dict_error (matcher h') = _typed_dict_error (matcher h)).
Proof.
  intros Hl Ho Hrec Hformal Htpi Htp Hcs Hb Hc Hv new_left run. subst run.
  assert (Hlt : variable value < length (program h)).
  { apply lookup_lt_is_Some. unfold var_data in Hv.
    destruct (program h !! variable value); [eauto|done]. }
  rewrite _match_value_against_type_dispatch by done.
  unfold dispatch. rewrite Htpi, Htp. unfold match_TypeParameter.
  rewrite Hcs, Hb. rewrite run_bind, run_for_nil.
  rewrite (bool_decide_eq_true_2 ([] = [])) by done. cbn [negb]. rewrite andb_false_r.
  run. cbn [negb]. run. rewrite Hc. run. rewrite NewVariable_nil. run.
  rewrite AddBinding_fresh.
  rewrite var_data_app_l, Hv by done.
  rewrite run_for_each_cons. rewrite (bool_decide_eq_true_2 (data value = data value)) by done.
  cbn [negb andb]. run. cbn [for_each]. run.
  rewrite var_data_snoc. fold new_left.
  split; intros ->; cbn [negb]; run.
  - by rewrite alter_snoc.
  - unfold set_error_subst, set_matcher. rewrite run_ret.
    eexists. split; [reflexivity|]. by repeat split.
Qed.

(** ** compute_subst *)
(** The heap in which compute_subst starts to match: a new, empty
    substitution with the aliases given, and the errors of earlier calls
    cleared, the typed-dict error apart. *)
Definition compute_subst_start (alias_map : option UnionFind) (h : Heap) : Heap :=
  mkHeap
    (mkMatcher (_protocol_cache (matcher h)) (_recursive_annots_cache (matcher h))
       None None (_typed_dict_error (matcher h)) None)
    (program h) (dicts h ++ [mkDict (default [] alias_map) ∅ []]).

(** Matching the argument passed for one formal argument. *)
Definition match_arg (fuel : nat) (arg_dict : gmap string (Binding Value))
    (view : gmap nat Value) (formal_arg : string * Value) (subst : nat) : M (option nat) :=
  match arg_dict !! formal_arg.1 with
  | None => raise KeyError
  | Some actual =>
      rec_match_value_against_type (methods fuel) actual formal_arg.2 subst view
  end.

(** The error substitution and the error details that compute_subst reports
    from a heap. *)
Definition error_dict (h : Heap) : DictObj :=
  match _error_subst (matcher h) with
  | Some e => dict_at h e
  | None => empty_dict
  end.

Definition error_details_of (h : Heap) : ErrorDetails :=
  mkErrorDetails (_protocol_error (matcher h)) (_noniterable_str_error (matcher h))
    (_typed_dict_error (matcher h)).

(** The loop of compute_subst over the formal arguments, and what follows
    it. *)
Definition compute_subst_args (fuel : nat) (formal_args : list (string * Value))
    (arg_dict : gmap string (Binding Value)) (view : gmap nat Value)
    (subst : nat) (self_subst : option nat) : M (option nat * option BadParam) :=
  or_return
    (for_ formal_args (subst, self_subst) (λ '(name, formal) '(subst, self_subst),
       match arg_dict !! name with
       | None => raise KeyError
       | Some actual =>
           r <- rec_match_value_against_type (methods fuel) actual formal subst view ;;
           match r with
           | None =>
               m <- get_matcher ;;
               error_subst <- match _error_subst m with
                              | Some e => dict_read e
                              | None => ret empty_dict
                              end ;;
               formal <- read (sub_one_annotation formal [error_subst]) ;;
               details <- _error_details ;;
               ret (Return (None, Some (mkBadParam name formal details)))
           | Some subst =>
               ret (Next (subst, if bool_decide (name = "self")
                                 then Some subst else self_subst))
           end
       end))
    (λ '(subst, self_subst),
       match self_subst with
       | Some self_subst =>
           o <- dict_read self_subst ;;
           for_each (dict_items o) tt (λ '(name, value) _,
             ds <- read (var_data value) ;;
             if existsb (λ v, negb (isinstance v abstract_Empty)) ds
             then dict_setitem subst name value
             else ret tt)
       | None => ret tt
       end ;;
       o <- dict_read subst ;;
       d <- dict_new (mkDict [] (items o) (order o)) ;;
       ret (Some d, None)).

Lemma compute_subst_run (fuel : nat) (formal_args : list (string * Value))
    (arg_dict : gmap string (Binding Value)) (view : gmap nat Value)
    (alias_map : option UnionFind) (h : Heap) :
  arg_dict ≠ ∅ →
  compute_subst fuel formal_args arg_dict view alias_map h
  = compute_subst_args fuel formal_args arg_dict view (length (dicts h)) None
      (compute_subst_start alias_map h).
Proof.
  intros Hne. unfold compute_subst. by rewrite (bool_decide_eq_false_2 _ Hne).
Qed.

Lemma compute_subst_args_threads (fuel : nat) (pre rest : list (string * Value))
    (arg_dict : gmap string (Binding Value)) (view : gmap nat Value)
    (s : nat) (ss : option nat) (h : Heap) (s1 : nat) (h1 : Heap) :
  threads (match_arg fuel arg_dict view) pre s h s1 h1 →
  ∃ ss1,
    compute_subst_args fuel (pre ++ rest) arg_dict view s ss h
    = compute_subst_args fuel rest arg_dict view s1 ss1 h1
    ∧ ("self" ∉ pre.*1 → ss1 = ss).
Proof.
  intros Ht. revert ss. induction Ht as [s h|[name formal] xs s s1 h h1 s2 h2 Hrun _ IH];
    intros ss.
  - by exists ss.
  - unfold match_arg in Hrun. cbn [fst snd] in Hrun.
    destruct (arg_dict !! name) as [actual|] eqn:Ha; [|done].
    destruct (IH (if bool_decide (name = "self") then Some s1 else ss)) as (ss1 & Hrec & Hself).
    exists ss1. split.
    + rewrite <- Hrec. unfold compute_subst_args. rewrite !run_or_return.
      cbn [app]. rewrite run_for_cons, Ha, run_bind, Hrun. done.
    + intros Hn. rewrite fmap_cons in Hn. apply not_elem_of_cons in Hn as [Hne Hn].
      rewrite (Hself Hn). cbn [fst] in Hne. by rewrite bool_decide_eq_false_2.
Qed.


(** X27: compute_subst raises KeyError when no argument is passed for a formal
    argument, once the formal arguments before it have matched. *)
Theorem compute_subst_missing_argument (fuel : nat) (formal_args : list (string * Value))
    (arg_dict : gmap string (Binding Value)) (view : gmap nat Value)
    (alias_map : option UnionFind) (h : Heap)
    (pre post : list (string * Value)) (name : string) (formal : Value)
    (s : nat) (h1 : Heap) :
  arg_dict ≠ ∅ →
  formal_args = pre ++ (name, formal) :: post →
  threads (match_arg fuel arg_dict view) pre (length (dicts h))
    (compute_subst_start alias_map h) s h1 →
  arg_dict !! name = None →
  compute_subst fuel formal_args arg_dict view alias_map h = (Raise KeyError, h1).
Proof.
  intros Hne -> Ht Ha. rewrite compute_subst_run by done.
  destruct (compute_subst_args_threads fuel pre ((name, formal) :: post) arg_dict view
              _ None _ _ _ Ht) as (ss1 & -> & _).
  unfold compute_subst_args. by rewrite run_or_return, run_for_cons, Ha.
Qed.

(** X28: when every formal argument matches, none of them named self,
    compute_subst returns a new dict without aliases that has the entries of
    the substitution of the last match, and no bad parameter. *)
Theorem compute_subst_success (fuel : nat) (formal_args : list (string * Value))
    (arg_dict : gmap string (Binding Value)) (view : gmap nat Value)
    (alias_map : option UnionFind) (h : Heap) (s : nat) (h1 : Heap) :
  arg_dict ≠ ∅ →
  "self" ∉ formal_args.*1 →
  threads (match_arg fuel arg_dict view) formal_args (length (dicts h))
    (compute_subst_start alias_map h) s h1 →
  compute_subst fuel formal_args arg_dict view alias_map h
  = (Ret (Some (length (dicts h1)), None),
     mkHeap (matcher h1) (program h1) (dicts h1 ++ [mkDict [] (items (dict_at h1 s)) (order (dict_at h1 s))])).
Proof.
  intros Hne Hself Ht. rewrite compute_subst_run by done.
  destruct (compute_subst_args_threads fuel formal_args [] arg_dict view
              _ None _ _ _ Ht) as (ss1 & Hrun & Hss).
  rewrite app_nil_r in Hrun. rewrite Hrun, (Hss Hself).
  unfold compute_subst_args. rewrite run_or_return, run_for_nil. by run.
Qed.

(** X29: a call without arguments: compute_subst returns a new, empty
    substitution and touches nothing else, the errors of earlier calls
    included; formal arguments without arguments fail the assertion. *)
Theorem compute_subst_no_arguments (fuel : nat) (formal_args : list (string * Value))
    (arg_dict : gmap string (Binding Value)) (view : gmap nat Value)
    (alias_map : option UnionFind) (h : Heap) :
  arg_dict = ∅ →
  compute_subst fuel formal_args arg_dict view alias_map h
  = match formal_args with
    | [] => (Ret (Some (length (dicts h)), None),
             mkHeap (matcher h) (program h) (dicts h ++ [empty_dict]))
    | _ :: _ => (Raise AssertionError, h)
    end.
Proof.
  intros ->. unfold compute_subst. rewrite bool_decide_eq_true_2 by done.
  by destruct formal_args.
Qed.

(** ** bad_matches *)
Lemma match_var_against_nothing_run (R : Rec) (var : nat) (other_type : Value)
    (subst : nat) (view : gmap nat Value) (h : Heap) :
  var_data var (program h) = [] →
  ∃ d h',
    match_var_against_type R var other_type subst view h = (Ret (Some d), h')
    ∧ program h `prefix_of` program h'.
Proof.
  intros Hv.
  destruct (match_var_against_nothing_loop (right_side_options other_type) subst h)
    as (d & h' & Hrun & Hext & _).
  exists d, h'. split; [|apply Hext].
  unfold match_var_against_type. run. unfold var_bindings. rewrite Hv.
  change (mkBinding var <$> []) with (@nil (Binding Value)). cbv beta iota.
  run. rewrite Hrun. by run.
Qed.

Lemma bad_matches_loop_nothing (fuel : nat) (var : nat) (other_type : Value)
    (views : Views Value) (bad : list (gmap nat Value * ErrorDetails)) (h : Heap) :
  var_data var (program h) = [] → var < length (program h) →
  ∃ h', bad_matches_loop (methods (S fuel)) var other_type views bad h = (Ret bad, h').
Proof.
  revert h. induction views as [|view send IH]; intros h Hv Hlt; [by exists h|].
  cbn [bad_matches_loop].
  rewrite run_bind. unfold set_protocol_error, set_matcher. cbv beta iota.
  rewrite run_bind. unfold set_noniterable_str_error, set_matcher. cbv beta iota.
  rewrite run_bind. unfold dict_display. rewrite run_dict_new. cbv beta iota.
  rewrite run_bind. cbn [methods rec_match_var_against_type program].
  match goal with |- context [match_var_against_type ?R var other_type ?s view ?h0] =>
    destruct (match_var_against_nothing_run R var other_type s view h0 Hv)
      as (d & h1 & Hrun & Hp)
  end.
  rewrite Hrun. apply IH.
  - rewrite (var_data_prefix _ _ _ Hp); done.
  - apply prefix_length in Hp. cbn [program] in Hp. lia.
Qed.

(** X30: a variable without bindings has no bad matches, whatever the formal
    type and whatever the views. *)
Theorem bad_matches_nothing (fuel : nat) (var : nat) (other_type : Value) (h : Heap) :
  var_data var (program h) = [] → var < length (program h) →
  ∃ h', bad_matches (S fuel) var other_type h = (Ret [], h').
Proof.
  intros Hv Hlt. unfold bad_matches, bad_matches_with. run.
  destruct (_ || _); [by exists h|]. run. by apply bad_matches_loop_nothing.
Qed.

End Properties.

(** * The properties at work in the small world *)
Module Witnesses.
Import Example.

(** C1 fails as stated: the same call of compute_subst, twice on one matcher.
    The first call does not match the str against Json and leaves the pair
    in the cache of recursive annotations; the second call finds it there
    and succeeds. *)
Lemma caches_not_reset_counterexample :
  let formal_args := [("x", Json)] in
  let arg_dict : gmap string (Binding obj) := {["x" := mkBinding 2 a_str]} in
  let view : gmap nat obj := {[2 := a_str]} in
  let first := compute_subst 10 formal_args arg_dict view None heap0 in
  let second := compute_subst 10 formal_args arg_dict view None first.2 in
  first.1 = Ret (None, Some (mkBadParam "x" Json (mkErrorDetails None None None)))
  ∧ _recursive_annots_cache (matcher first.2) = [(a_str, Json)]
  ∧ second.1 = Ret (Some 2, None).
Proof. cbv zeta. repeat split; reflexivity. Qed.



(** C3 fails as stated: NoReturn matches the option NoReturn of
    Union[NoReturn, int], but not the union. *)
Lemma NoReturn_against_Union_counterexample :
  let value : Binding obj := mkBinding 4 NoReturn in
  NoReturn ∈ options Union_NoReturn_int
  ∧ (_match_value_against_type (methods 5) value NoReturn 0 ∅ heap1).1 = Ret (Some 0)
  ∧ (_match_value_against_type (methods 5) value Union_NoReturn_int 0 ∅ heap1).1
    = Ret None.
Proof. cbv zeta. split; [by apply list_elem_of_here|]. split; reflexivity. Qed.

(** C4 fails as stated: S is constrained, and is still matched against the
    bare T by the short circuit; with no fuel for a recursive call, the
    signature of f, whose return type is S, matches Callable[..., T]. *)
Lemma constrained_left_short_circuits_counterexample :
  constraints S_var = [str_cls; int_cls]
  ∧ (_get_param_matcher Callable_T_Any S_var T_var 0 heap1).1 = Ret (Some 1)
  ∧ (_match_signature_against_callable (methods 0) sig_f Callable_any_T 0 ∅ heap1).1
    = Ret (Some 1).
Proof. cbv zeta. repeat split; reflexivity. Qed.

(** The short circuit at work on Callable[[T], Any], where T occurs once:
    S, although constrained, is matched against the bare T by binding foo.T
    to a fresh variable holding the empty value; against S on the right the
    matcher gives way to normal matching.  The signature of f, (x: S) -> S:
    the return type S is matched against Any by normal matching, and the
    parameter x: S against the argument T by the short circuit.  An
    instance of the callable against the callable itself: after the return
    types, the argument T is matched against T by the short circuit. *)
Lemma single_TypeVar_short_circuit_witness :
  _get_param_matcher Callable_T_Any S_var T_var 0 heap1
  = (Ret (Some 1),
     mkHeap __init__ (program0 ++ [[Nothing]])
       [empty_dict; mkDict [] {["foo.T" := 8]} ["foo.T"]])
  ∧ _get_param_matcher Callable_T_Any T_var S_var 0 heap1 = (Ret None, heap1)
  ∧ _match_signature_against_callable (methods 9) sig_f Callable_T_Any 0 ∅ heap1
    = (Ret (Some 2),
       mkHeap __init__ (program0 ++ [[Any]] ++ [[Nothing]])
         [empty_dict; empty_dict; mkDict [] {["foo.T" := 9]} ["foo.T"]])
  ∧ _match_callable_instance (methods 9) Callable_T_Any a_callable Callable_T_Any
      0 ∅ heap1
    = (Ret (Some 1),
       mkHeap __init__ (program0 ++ [[]] ++ [[Nothing]])
         [empty_dict; mkDict [] {["foo.T" := 9]} ["foo.T"]]).
Proof.
  destruct (single_TypeVar_short_circuit (H:=world) (methods 9) Callable_T_Any ∅)
    as (Hmatcher & Hsig & Hinst).
  split; [exact (Hmatcher S_var T_var 0 heap1)|].
  split; [exact (Hmatcher T_var S_var 0 heap1)|].
  split.
  - assert (Hmax : ∀ m, maximum_param_count sig_f = Some m → num_args Callable_T_Any ≤ m)
      by (intros m Hm; injection Hm as <-; apply le_n).
    assert (Hpairs : ∀ i p, [(S_var, T_var)] !! i = Some p →
              ∃ name, param_names sig_f !! i = Some name
                      ∧ p.1 = default convert_unsolvable (annotations sig_f !! name)
                      ∧ formal_type_parameters Callable_T_Any i = Some p.2).
    { intros [|i] p Hp; [|discriminate Hp]. injection Hp as <-.
      exists "x". repeat split; reflexivity. }
    refine (proj2 (Hsig sig_f 0 heap1 (Some 1)
                     (mkHeap __init__ (program0 ++ [[Any]]) [empty_dict; empty_dict])
                     eq_refl)
              eq_refl (le_n 1) Hmax [(S_var, T_var)] _ _ eq_refl Hpairs _).
    refine (in_turn_match _ _ _ _ _ _ _ _ _ _ (in_turn_nil _ _ _)). reflexivity.
  - assert (Hpairs : ∀ i p, [(T_var, T_var)] !! i = Some p →
              formal_type_parameters Callable_T_Any i = Some p.1
              ∧ formal_type_parameters Callable_T_Any i = Some p.2).
    { intros [|i] p Hp; [|discriminate Hp]. injection Hp as <-. split; reflexivity. }
    refine (Hinst Callable_T_Any a_callable 0 heap1 0
              (mkHeap __init__ (program0 ++ [[]]) [empty_dict])
              eq_refl eq_refl eq_refl eq_refl eq_refl eq_refl
              [(T_var, T_var)] _ _ eq_refl Hpairs _).
    refine (in_turn_match _ _ _ _ _ _ _ _ _ _ (in_turn_nil _ _ _)). reflexivity.
Defined.

(** C5 fails as stated: an Unknown does not match NoReturn. *)
Lemma Unknown_against_NoReturn_counterexample :
  isinstance Unknown_1 abstract_Unknown = true
  ∧ (_match_value_against_type (methods 5) (mkBinding 5 Unknown_1) NoReturn 0 ∅ heap1).1
    = Ret None.
Proof. cbv zeta. repeat split; reflexivity. Qed.

(** An int against Union[T, int]: the option int is tried first and
    matches, T is not tried, and the result binds T to the empty value.  An
    int against the recursive annotation Json, met for the first time: the
    pair is added to the cache, and the option int matches. *)
Lemma union_match_witness :
  (∃ o' p',
     _match_value_against_type (methods 9) (mkBinding 3 an_int) Union_T_int 0 ∅ heap1
     = (Ret (Some 1), mkHeap __init__ p' [empty_dict; o'])
     ∧ extends ["T"] [Nothing] empty_dict program0 o' p')
  ∧ (∃ o' p',
       _match_value_against_type (methods 9) (mkBinding 3 an_int) Json 0 ∅ heap1
       = (Ret (Some 1),
          mkHeap (mkMatcher [] [(an_int, Json)] None None None None) p' [empty_dict; o'])
       ∧ extends [] [Nothing] empty_dict program0 o' p').
Proof.
  assert (Hnew : ∀ other,
            is_recursive_annotation other = true →
            (an_int, other) ∉ _recursive_annots_cache (matcher heap1))
    by (intros other _; apply not_elem_of_nil).
  split.
  - assert (Hts : (sorted_options Union_T_int).*2 = [] ++ int_cls :: [T_var])
      by reflexivity.
    assert (Ht : tries (methods 9) (mkBinding 3 an_int) 0 ∅ int_cls heap1
                 = (Ret (Some 0), heap1)) by reflexivity.
    exact (proj2 (proj2 (proj2
             (union_match (H:=world) (methods 9) (mkBinding 3 an_int) Union_T_int 0 ∅ heap1
                an_int Union_T_int heap1 heap1 eq_refl eq_refl (Hnew _)
                eq_refl eq_refl eq_refl eq_refl eq_refl eq_refl eq_refl)))
           [] int_cls [T_var] heap1 heap1 0 Hts (runs_nil _ _ heap1) Ht eq_refl eq_refl).
  - set (h0 := with_recursive_pair (H:=world) an_int Json heap1).
    assert (Hts : (sorted_options Json).*2 = [] ++ int_cls :: [List_Json])
      by reflexivity.
    assert (Ht : tries (methods 9) (mkBinding 3 an_int) 0 ∅ int_cls h0
                 = (Ret (Some 0), h0)) by reflexivity.
    exact (proj2 (proj2 (proj2
             (union_match (H:=world) (methods 9) (mkBinding 3 an_int) Json 0 ∅ heap1
                an_int Json heap1 heap1 eq_refl eq_refl (Hnew _)
                eq_refl eq_refl eq_refl eq_refl eq_refl eq_refl eq_refl)))
           [] int_cls [List_Json] h0 h0 0 Hts (runs_nil _ _ h0) Ht eq_refl eq_refl).
Defined.

(** NoReturn matches itself, with the substitution unchanged; an int does
    not match NoReturn; and NoReturn does not match the recursive annotation
    Json, met for the first time: the pair is added to the cache. *)
Lemma NoReturn_matches_itself_or_Any_witness :
  _match_value_against_type (methods 5) (mkBinding 4 NoReturn) NoReturn 0 ∅ heap1
  = (Ret (Some 0), heap1)
  ∧ _match_value_against_type (methods 5) (mkBinding 3 an_int) NoReturn 0 ∅ heap1
    = (Ret None, heap1)
  ∧ _match_value_against_type (methods 5) (mkBinding 4 NoReturn) Json 0 ∅ heap1
    = (Ret None,
       mkHeap (mkMatcher [] [(NoReturn, Json)] None None None None) program0
         [empty_dict]).
Proof.
  assert (Hnew : ∀ left other,
            is_recursive_annotation other = true →
            (left, other) ∉ _recursive_annots_cache (matcher heap1))
    by (intros left other _; apply not_elem_of_nil).
  split; [|split].
  - exact (NoReturn_matches_itself_or_Any (H:=world) (methods 5) (mkBinding 4 NoReturn)
             NoReturn 0 ∅ heap1 NoReturn NoReturn heap1 heap1 eq_refl eq_refl
             (Hnew _ _) eq_refl eq_refl eq_refl (or_introl eq_refl)).
  - exact (NoReturn_matches_itself_or_Any (H:=world) (methods 5) (mkBinding 3 an_int)
             NoReturn 0 ∅ heap1 an_int NoReturn heap1 heap1 eq_refl eq_refl
             (Hnew _ _) eq_refl eq_refl eq_refl (or_introl eq_refl)).
  - exact (NoReturn_matches_itself_or_Any (H:=world) (methods 5) (mkBinding 4 NoReturn)
             Json 0 ∅ heap1 NoReturn Json heap1 heap1 eq_refl eq_refl
             (Hnew _ _) eq_refl eq_refl eq_refl (or_intror eq_refl)).
Defined.

(** A str against Iterable[str] fails and the error is recorded; against
    the plain Iterable the guard lets it pass. *)
Lemma noniterable_str_guard_witness :
  (∃ h',
     _match_instance_against_type (methods 5) a_str Iterable_str 0 ∅ heap1
     = (Ret None, h')
     ∧ _noniterable_str_error (matcher h')
       = Some (mkNonIterableStrError str_cls Iterable_str)
     ∧ same_but_errors heap1 h'
     ∧ _protocol_error (matcher h') = None
     ∧ _typed_dict_error (matcher h') = None
     ∧ _error_subst (matcher h') = None)
  ∧ _satisfies_noniterable_str str_cls Iterable_cls = true.
Proof.
  assert (Hs : full_name (cls a_str) ∈ str_types) by repeat constructor.
  assert (Hi : full_name Iterable_str ∈ conflicting_iter_types) by repeat constructor.
  assert (He : full_name (get_formal_type_parameter Iterable_str "_T") ∈ str_types)
    by repeat constructor.
  split.
  - exact (proj1 (noniterable_str_guard (H:=world) (methods 5) a_str Iterable_str 0 ∅
                    heap1 eq_refl eq_refl eq_refl Hs Hi) eq_refl He).
  - exact (proj2 (noniterable_str_guard (H:=world) (methods 5) a_str Iterable_cls 0 ∅
                    heap1 eq_refl eq_refl eq_refl Hs Hi) (or_introl eq_refl)).
Defined.

(** C7 fails as stated: an instance of dict that is not a concrete dict, its
    items not being known, does not match Movie, and no TypedDictError is
    recorded. *)
Lemma instance_of_dict_against_typed_dict_counterexample :
  isinstance a_dict abstract_Instance = true
  ∧ cls a_dict = dict_cls
  ∧ isinstance a_dict abstract_Dict = false
  ∧ _match_instance_against_type (methods 9) a_dict Movie_cls 0 ∅ heap1
    = (Ret None, heap1)
  ∧ _typed_dict_error (matcher heap1) = None.
Proof. cbv zeta. repeat split; reflexivity. Qed.

(** The dict {"x": 1} has the declared key of Movie, with an int: it
    matches.  In the dict {"x": "a"} the str is a bad match for the int that
    Movie declares: the match fails and the TypedDictError recorded holds
    this bad match, no extra key and no missing key.  An instance of dict
    whose items are not known does not match, and no error is recorded. *)
Lemma typed_dict_match_witness :
  _match_instance_against_type (methods 9) a_movie Movie_cls 0 ∅ heap1
  = (Ret (Some 0), mkHeap __init__ program0 [empty_dict; empty_dict])
  ∧ (∃ h',
       _match_instance_against_type (methods 9) a_bad_movie Movie_cls 0 ∅ heap1
       = (Ret None, h')
       ∧ _typed_dict_error (matcher h')
         = Some (mkTypedDictError
                   [("x", 2, int_cls, [({[2 := a_str]}, mkErrorDetails None None None)])]
                   ∅ ∅)
       ∧ same_but_errors (mkHeap __init__ program0 [empty_dict; empty_dict]) h'
       ∧ _protocol_error (matcher h') = None
       ∧ _noniterable_str_error (matcher h') = None
       ∧ _error_subst (matcher h') = None)
  ∧ (∃ h',
       _match_instance_against_type (methods 9) a_dict Movie_cls 0 ∅ heap1
       = (Ret None, h')
       ∧ _typed_dict_error (matcher h') = None
       ∧ same_but_errors heap1 h'
       ∧ _protocol_error (matcher h') = None
       ∧ _noniterable_str_error (matcher h') = None
       ∧ _error_subst (matcher h') = None).
Proof.
  set (h1 := mkHeap (H:=world) __init__ program0 [empty_dict; empty_dict]).
  split; [|split].
  - assert (Hgood : bad_matches_with (methods 9) 1 int_cls (typed_dict_error_cleared heap1)
                    = (Ret [], h1)) by reflexivity.
    assert (Hchecks : checks_fields (methods 9) Movie_cls (dict_pyval a_movie)
                        (typed_dict_error_cleared heap1) [] h1).
    { exact (checks_fields_good (methods 9) Movie_cls "x" 1 [] 0 int_cls
               (typed_dict_error_cleared heap1) h1 [] h1
               eq_refl eq_refl Hgood (checks_fields_nil _ _ h1)). }
    refine (proj1 (proj2 (typed_dict_match (H:=world) (methods 9) a_movie Movie_cls 0 ∅
                            heap1 eq_refl eq_refl) eq_refl [] h1 Hchecks) _).
    repeat split; reflexivity.
  - set (b := [({[2 := a_str]}, mkErrorDetails (H:=world) None None None)]
              : list (gmap nat obj * ErrorDetails)).
    assert (Hbad : bad_matches_with (methods 9) 2 int_cls (typed_dict_error_cleared heap1)
                   = (Ret b, h1)) by reflexivity.
    assert (Hne : b ≠ []) by (intros Hb; discriminate Hb).
    assert (Hchecks : checks_fields (methods 9) Movie_cls (dict_pyval a_bad_movie)
                        (typed_dict_error_cleared heap1) [("x", 2, int_cls, b)] h1).
    { exact (checks_fields_bad (methods 9) Movie_cls "x" 2 [] 0 int_cls b
               (typed_dict_error_cleared heap1) h1 [] h1
               eq_refl eq_refl Hbad Hne (checks_fields_nil _ _ h1)). }
    refine (proj2 (proj2 (typed_dict_match (H:=world) (methods 9) a_bad_movie Movie_cls 0 ∅
                            heap1 eq_refl eq_refl) eq_refl _ h1 Hchecks) _).
    intros (_ & _ & Hnil). discriminate Hnil.
  - exact (proj1 (typed_dict_match (H:=world) (methods 9) a_dict Movie_cls 0 ∅
                    heap1 eq_refl eq_refl) eq_refl).
Defined.

(** An int has no attribute foo, which the protocol SupportsFoo requires:
    the match fails and the error recorded names foo as missing. *)
Lemma protocol_missing_attributes_witness :
  ∃ h' missing,
    _match_against_protocol (methods 5) an_int SupportsFoo 0 ∅ heap1 = (Ret None, h')
    ∧ _protocol_error (matcher h')
      = Some (ProtocolMissingAttributesError int_cls SupportsFoo missing)
    ∧ (∀ b, b ∈ missing
            ↔ b ∈ protocol_attributes SupportsFoo
              ∧ b ∉ explicit_attributes an_int
              ∧ ¬ (b = "__iter__" ∧ "__getitem__" ∈ explicit_attributes an_int))
    ∧ same_but_errors heap1 h'
    ∧ _noniterable_str_error (matcher h') = None
    ∧ _typed_dict_error (matcher h') = None
    ∧ _error_subst (matcher h') = None.
Proof.
  assert (Ha : "foo" ∈ protocol_attributes SupportsFoo)
    by (apply (bool_decide_unpack _); exact I).
  assert (Hn : "foo" ∉ explicit_attributes an_int)
    by (apply (bool_decide_unpack _); exact I).
  assert (Hi : "foo" = "__iter__" → "__getitem__" ∉ explicit_attributes an_int)
    by (intros Heq; discriminate Heq).
  exact (protocol_missing_attributes (H:=world) (methods 5) an_int SupportsFoo 0 ∅ heap1
           "foo" eq_refl eq_refl Ha Hn Hi).
Defined.

(** S, constrained to str and int, against itself matches; against the bare
    T it matches too, T having neither constraints nor a bound; T against S
    does not match. *)
Lemma type_param_against_type_param_witness :
  _match_type_param_against_type_param (methods 0) S_var S_var 0 ∅ heap1
  = (Ret (Some 0), heap1)
  ∧ _match_type_param_against_type_param (methods 0) S_var T_var 0 ∅ heap1
    = (Ret (Some 0), heap1)
  ∧ _match_type_param_against_type_param (methods 0) T_var S_var 0 ∅ heap1
    = (Ret None, heap1).
Proof.
  assert (Hc : constraints S_var ≠ []) by (intros Hc; discriminate Hc).
  split; [|split].
  - by rewrite (proj1 (type_param_against_type_param (H:=world) (methods 0) S_var S_var
                         0 ∅ heap1) Hc eq_refl).
  - exact (proj2 (proj2 (proj2 (type_param_against_type_param (H:=world) (methods 0)
                                  S_var T_var 0 ∅ heap1))) eq_refl eq_refl).
  - by rewrite (proj1 (type_param_against_type_param (H:=world) (methods 0) T_var S_var
                         0 ∅ heap1) Hc eq_refl).
Defined.


End Witnesses.

(** * More properties at work, in the first small world *)
Module Examples.
Import Example.

(** The heap with one more variable, 8, which holds an instance of
    typing.Generic. *)
Definition heap_generic : Heap :=
  mkHeap __init__ (program0 ++ [[a_generic]]) [empty_dict].

(** A heap where the pair of the str and Json is in the cache of recursive
    annotations. *)
Definition heap_seen : Heap :=
  mkHeap (mkMatcher [] [(a_str, Json)] None None None None) program0 [empty_dict].

(** A heap where substitution 0 has the aliases z and a of the name r, and
    binds nothing, and substitution 1 binds z to variable 1 and then a to
    variable 2. *)
Definition heap_aliases : Heap :=
  mkHeap __init__ program0
    [mkDict [("z", "r"); ("a", "r")] ∅ [];
     setitem "a" 2 (setitem "z" 1 empty_dict)].

(** The items of a dict come in the order of insertion, not in that of the
    keys; and so the merge binds r to the variable of z, the first item,
    and pastes the variable of a, the second one, into it. *)
Lemma merge_in_insertion_order :
  dict_items (dict_at heap_aliases 1) = [("z", 1); ("a", 2)]
  ∧ _merge_substs 0 [1] heap_aliases
    = (Ret 2,
       mkHeap __init__ (<[1 := [an_int; a_str]]> program0)
         (dicts heap_aliases ++ [mkDict [("z", "r"); ("a", "r")] {["r" := 1]} ["r"]])).
Proof. split; reflexivity. Qed.

(** Splitting a membership in a list that is given element by element. *)
Ltac elems H :=
  repeat (apply elem_of_cons in H as [H|H]; [try subst|]); try (by apply elem_of_nil in H).

(** object is found in the MRO of int with and without the compatible
    builtins. *)
Lemma match_from_mro_compat_monotone_witness :
  is_Some (match_from_mro int_cls object_cls true).
Proof.
  apply (match_from_mro_compat_monotone (H:=world)). exists object_cls. reflexivity.
Defined.

(** The match of int against object is an entry of the MRO of int. *)
Lemma match_from_mro_result_witness :
  ∃ base, base ∈ mro int_cls ∧ full_name (base_class base) = "builtins.object".
Proof.
  destruct (match_from_mro_result (H:=world) int_cls object_cls true object_cls eq_refl)
    as (base & Hin & Hcase).
  exists base. split; [exact Hin|].
  destruct Hcase as [(Hb & _ & _)|(Hb & Hc & _)].
  - rewrite <- Hb. reflexivity.
  - rewrite <- Hb in Hc. discriminate Hc.
Defined.

(** Two ints are of a single type, an int and a str are not. *)
Lemma _satisfies_single_type_same_class_witness :
  _satisfies_single_type [an_int; an_int] = true
  ∧ _satisfies_single_type [an_int; a_str] = false.
Proof.
  assert (Hno : ∀ values : list obj, (∀ v, v ∈ values → v = an_int ∨ v = a_str) →
            ∀ (p : string * string) (v w : obj), p ∈ _COMPATIBLE_BUILTINS →
              v ∈ values → w ∈ values →
              ¬ (full_name (cls v) = p.1 ∧ full_name (cls w) = p.2)).
  { intros values Hvs p v w Hp Hv Hw [_ H2].
    unfold _COMPATIBLE_BUILTINS in Hp. cbn in Hp. elems Hp;
      destruct (Hvs w Hw) as [-> | ->]; discriminate H2. }
  assert (Hints : ∀ v, v ∈ [an_int; an_int] → v = an_int ∨ v = a_str).
  { intros v Hv. elems Hv; by left. }
  assert (Hmixed : ∀ v, v ∈ [an_int; a_str] → v = an_int ∨ v = a_str).
  { intros v Hv. elems Hv; [by left|by right]. }
  split.
  - refine (proj2 (_satisfies_single_type_same_class (H:=world) [an_int; an_int]
                     (Hno _ Hints)) _).
    intros v w Hv Hw. elems Hv; elems Hw; reflexivity.
  - apply not_true_iff_false. intros Ht.
    pose proof (proj1 (_satisfies_single_type_same_class (H:=world) [an_int; a_str]
                         (Hno _ Hmixed)) Ht an_int a_str (list_elem_of_here _ _)
                  (list_elem_of_further _ _ _ (list_elem_of_here _ _))) as Heq.
    discriminate Heq.
Defined.

(** A str has __getitem__, and so __iter__. *)
Lemma _get_attribute_names_iter_witness : "__iter__" ∈ _get_attribute_names a_str.
Proof.
  apply (_get_attribute_names_iter (H:=world)). apply (bool_decide_unpack _). exact I.
Defined.

(** Merging substitution 1 into substitution 0 keeps foo.T bound to
    variable 1. *)
Lemma _merge_substs_result_witness :
  ∃ o' p',
    _merge_substs 0 [1] heap2 = (Ret 2, mkHeap __init__ p' (dicts heap2 ++ [o']))
    ∧ items o' !! "foo.T" = Some 1.
Proof.
  destruct (_merge_substs_result (H:=world) 0 [1] heap2) as (o' & p' & Hrun & _ & _ & Hk & _).
  { apply Forall_singleton. exact (Nat.lt_succ_diag_r 1). }
  exists o', p'. split; [exact Hrun|]. apply Hk. reflexivity.
Defined.

(** Merging substitution 0 into itself gives a copy of it. *)
Lemma _merge_substs_self_witness :
  _merge_substs 0 [0] heap2
  = (Ret 2, mkHeap __init__ program0 (dicts heap2 ++ [mkDict [] {["foo.T" := 1]} ["foo.T"]])).
Proof.
  apply (_merge_substs_self (H:=world) 0 heap2).
  - apply Nat.lt_0_succ.
  - intros k _. reflexivity.
Defined.

(** Any matches list[T], and T is bound afterwards. *)
Lemma ambiguous_type_matches_witness :
  ∃ d h',
    _match_type_against_type (methods 0) Any List_T 0 ∅ heap1 = (Ret (Some d), h')
    ∧ contains (dict_at h' d) "foo.T" = true.
Proof.
  destruct (ambiguous_type_matches (H:=world) (methods 0) Any List_T 0 ∅ heap1 eq_refl)
    as (d & h' & Hrun & _ & _ & _ & Hb).
  exists d, h'. split; [exact Hrun|].
  apply (Hb eq_refl T_var). apply list_elem_of_here.
Defined.

(** The class int matches object. *)
Lemma matches_builtins_object_witness :
  _match_type_against_type (methods 0) int_cls object_cls 0 ∅ heap1 = (Ret (Some 0), heap1).
Proof.
  exact (matches_builtins_object (H:=world) (methods 0) int_cls object_cls 0 ∅ heap1
           eq_refl eq_refl eq_refl).
Defined.

(** The union Json matches object by its first option, int. *)
Lemma union_on_the_left_witness :
  _match_type_against_type (methods 1) Json object_cls 0 ∅ heap1 = (Ret (Some 0), heap1).
Proof.
  exact (proj1 (union_on_the_left (H:=world) (methods 1) Json object_cls 0 ∅ heap1
                  eq_refl eq_refl eq_refl eq_refl eq_refl eq_refl eq_refl eq_refl eq_refl
                  eq_refl)
           [] int_cls [List_Json] 0 heap1 heap1 eq_refl (runs_nil _ _ heap1) eq_refl).
Defined.

(** An int is an object. *)
Lemma instance_matches_class_in_mro_witness :
  _match_instance_against_type (methods 0) an_int object_cls 0 ∅ heap1
  = (Ret (Some 0), heap1).
Proof.
  exact (instance_matches_class_in_mro (H:=world) (methods 0) an_int object_cls object_cls
           0 ∅ heap1 eq_refl eq_refl eq_refl eq_refl eq_refl eq_refl eq_refl eq_refl).
Defined.


(** Variable 3 holds an int: its one view matches int, and the substitution
    of that match is merged into a copy of the given one. *)
Lemma _match_all_bindings_collects_witness :
  _match_all_bindings (methods 3) 3 int_cls 0 ∅ heap1
  = (Ret (Some 1), mkHeap __init__ program0 [empty_dict; empty_dict]).
Proof.
  set (f := λ new_view : gmap nat obj,
              rec_match_var_against_type (H:=world) (methods 3) 3 int_cls 0 (∅ ∪ new_view)).
  assert (Hrun : f {[3 := an_int]} heap1 = (Ret (Some 0), heap1)) by reflexivity.
  assert (Hc : collects f (views_of (get_views [3] (program heap1))) heap1 [0] heap1).
  { exact (collects_cons f {[3 := an_int]} [] (Some 0) heap1 heap1 [] heap1 Hrun
             (collects_nil f heap1)). }
  refine (eq_trans (_match_all_bindings_collects (H:=world) (methods 3) 3 int_cls 0 ∅ heap1
                      [0] heap1 Hc) _).
  reflexivity.
Defined.

(** The str was matched against Json before: it matches at once. *)
Lemma recursive_annotation_cached_witness :
  _match_value_against_type (methods 0) (mkBinding 2 a_str) Json 0 ∅ heap_seen
  = (Ret (Some 0), heap_seen).
Proof.
  assert (Hl : not_Final a_str) by (split; reflexivity).
  assert (Ho : not_Final Json) by (split; reflexivity).
  exact (recursive_annotation_cached (H:=world) (methods 0) (mkBinding 2 a_str) Json 0 ∅
           heap_seen Hl Ho eq_refl (list_elem_of_here _ _)).
Defined.

(** Matching the str against Json leaves the pair in the cache. *)
Lemma recursive_annotation_recorded_witness :
  (a_str, Json)
  ∈ _recursive_annots_cache
      (matcher (_match_value_against_type (methods 5) (mkBinding 2 a_str) Json 0 ∅ heap1).2).
Proof.
  assert (Hl : not_Final a_str) by (split; reflexivity).
  assert (Ho : not_Final Json) by (split; reflexivity).
  exact (recursive_annotation_recorded (H:=world) 5 (mkBinding 2 a_str) Json 0 ∅ heap1
           Hl Ho eq_refl).
Defined.

(** NoReturn matches neither str nor int, the constraints of S: the match
    fails and the substitution 0 is recorded. *)
Lemma constrained_TypeVar_no_match_witness :
  ∃ h'',
    _match_value_against_type (methods 1) (mkBinding 4 NoReturn) S_var 0 ∅ heap1
    = (Ret None, h'')
    ∧ _error_subst (matcher h'') = Some 0
    ∧ same_but_errors heap1 h''
    ∧ _protocol_error (matcher h'') = None
    ∧ _noniterable_str_error (matcher h'') = None
    ∧ _typed_dict_error (matcher h'') = None.
Proof.
  assert (Hl : not_Final NoReturn) by (split; reflexivity).
  assert (Ho : not_Final S_var) by (split; reflexivity).
  assert (Hcs : constraints S_var ≠ []) by (intros Hcs; discriminate Hcs).
  assert (Hruns : runs (tries (methods 1) (mkBinding 4 NoReturn) 0 ∅) (λ r, r = None)
                    (constraints S_var) heap1 heap1).
  { exact (runs_cons _ _ str_cls [int_cls] None heap1 heap1 heap1 eq_refl eq_refl
             (runs_cons _ _ int_cls [] None heap1 heap1 heap1 eq_refl eq_refl
                (runs_nil _ _ heap1))). }
  exact (constrained_TypeVar_no_match (H:=world) (methods 1) (mkBinding 4 NoReturn) S_var
           0 ∅ heap1 heap1 Hl Ho eq_refl eq_refl eq_refl eq_refl Hcs Hruns).
Defined.

(** The int of variable 3 against T: T is bound to the new variable 8, which
    holds the int.  An instance of typing.Generic, whose class has no
    superclass but Generic itself and object, against T: the match fails
    and the substitution 0 is recorded. *)
Lemma bare_TypeVar_binds_witness :
  _match_value_against_type (methods 0) (mkBinding 3 an_int) T_var 0 ∅ heap1
  = (Ret (Some 1),
     mkHeap __init__ (program0 ++ [[an_int]])
       [empty_dict; mkDict [] {["foo.T" := 8]} ["foo.T"]])
  ∧ ∃ h',
      _match_value_against_type (methods 0) (mkBinding 8 a_generic) T_var 0 ∅ heap_generic
      = (Ret None, h')
      ∧ _error_subst (matcher h') = Some 0
      ∧ program h' = program heap_generic ++ [[a_generic]]
      ∧ dicts h' = dicts heap_generic
      ∧ _protocol_cache (matcher h') = []
      ∧ _recursive_annots_cache (matcher h') = []
      ∧ _protocol_error (matcher h') = None
      ∧ _noniterable_str_error (matcher h') = None
      ∧ _typed_dict_error (matcher h') = None.
Proof.
  assert (Hl : not_Final an_int) by (split; reflexivity).
  assert (Hg : not_Final a_generic) by (split; reflexivity).
  assert (Ho : not_Final T_var) by (split; reflexivity).
  split.
  - exact (proj1 (bare_TypeVar_binds (H:=world) (methods 0) (mkBinding 3 an_int) T_var 0 ∅
                    heap1 Hl Ho eq_refl eq_refl eq_refl eq_refl eq_refl eq_refl eq_refl
                    eq_refl) eq_refl).
  - exact (proj2 (bare_TypeVar_binds (H:=world) (methods 0) (mkBinding 8 a_generic) T_var
                    0 ∅ heap_generic Hg Ho eq_refl eq_refl eq_refl eq_refl eq_refl eq_refl
                    eq_refl eq_refl) eq_refl).
Defined.


(** f(y: int) called with x only: no argument for y. *)
Lemma compute_subst_missing_argument_witness :
  compute_subst 5 [("y", int_cls)] {["x" := mkBinding 2 a_str]} {[2 := a_str]} None heap0
  = (Raise KeyError, compute_subst_start None heap0).
Proof.
  exact (compute_subst_missing_argument (H:=world) 5 [("y", int_cls)]
           {["x" := mkBinding 2 a_str]} {[2 := a_str]} None heap0
           [] [] "y" int_cls 0 (compute_subst_start None heap0)
           (map_non_empty_singleton _ _) eq_refl (threads_nil _ _ _) eq_refl).
Defined.

(** f(x: int) called with an int: the substitution returned is empty. *)
Lemma compute_subst_success_witness :
  compute_subst 5 [("x", int_cls)] {["x" := mkBinding 3 an_int]} {[3 := an_int]} None heap0
  = (Ret (Some 1, None), mkHeap __init__ program0 [empty_dict; empty_dict]).
Proof.
  assert (Hself : "self" ∉ [("x", int_cls)].*1).
  { intros Hin. cbn in Hin. elems Hin. discriminate Hin. }
  assert (Ht : threads (match_arg 5 {["x" := mkBinding 3 an_int]} {[3 := an_int]})
                 [("x", int_cls)] (length (dicts heap0)) (compute_subst_start None heap0)
                 0 (compute_subst_start None heap0)).
  { exact (threads_cons _ ("x", int_cls) [] 0 0 _ (compute_subst_start None heap0) 0 _
             eq_refl (threads_nil _ _ _)). }
  refine (eq_trans (compute_subst_success (H:=world) 5 [("x", int_cls)]
                      {["x" := mkBinding 3 an_int]} {[3 := an_int]} None heap0 0
                      (compute_subst_start None heap0)
                      (map_non_empty_singleton _ _) Hself Ht) _).
  reflexivity.
Defined.

(** A call without arguments. *)
Lemma compute_subst_no_arguments_witness :
  compute_subst 0 [] ∅ ∅ None heap0
  = (Ret (Some 0, None), mkHeap __init__ program0 [empty_dict]).
Proof.
  exact (compute_subst_no_arguments (H:=world) 0 [] ∅ ∅ None heap0 eq_refl).
Defined.

(** Variable 7 has no bindings, and no bad matches against int. *)
Lemma bad_matches_nothing_witness : ∃ h', bad_matches 1 7 int_cls heap1 = (Ret [], h').
Proof.
  exact (bad_matches_nothing (H:=world) 0 7 int_cls heap1 eq_refl (Nat.lt_succ_diag_r 7)).
Defined.

End Examples.

(** * More properties at work, in the second small world *)
Module Examples2.
Import Example2.

Ltac elems H :=
  repeat (apply elem_of_cons in H as [H|H]; [try subst|]); try (by apply elem_of_nil in H).

(** The view of the pair's elements. *)
Definition pair_view : gmap nat obj := {[1 := an_int; 2 := a_float]}.

(** Foo has Any among its bases: it matches float. *)
Lemma match_from_mro_ambiguous_base_witness :
  is_Some (match_from_mro Foo_cls float_cls true).
Proof.
  apply (match_from_mro_ambiguous_base (H:=world)). exists Any. split.
  - apply list_elem_of_further, list_elem_of_here.
  - split; reflexivity.
Defined.

(** An int and a float are of a single type. *)
Lemma _satisfies_single_type_compatible_witness :
  _satisfies_single_type [an_int; a_float] = true.
Proof.
  apply (_satisfies_single_type_compatible (H:=world) [an_int; a_float]
           "builtins.int" "builtins.float").
  - apply list_elem_of_here.
  - intros v Hv. elems Hv; [by left|by right].
Defined.

(** An int and a float have float as a common superclass: int is compatible
    with it.  An int and a pair share object only, which does not count. *)
Lemma _satisfies_common_superclass_iff_witness :
  _satisfies_common_superclass [an_int; a_float] = true
  ∧ _satisfies_common_superclass [an_int; a_pair] = false.
Proof.
  assert (Htrans : ∀ a b c : string,
            (a, b) ∈ _COMPATIBLE_BUILTINS → (b, c) ∈ _COMPATIBLE_BUILTINS →
            (a, c) ∈ _COMPATIBLE_BUILTINS).
  { intros a b c Hab Hbc. unfold _COMPATIBLE_BUILTINS in Hab, Hbc. cbn in Hab, Hbc.
    elems Hab; injection Hab as -> ->; elems Hbc; discriminate Hbc. }
  split.
  - refine (proj2 (_satisfies_common_superclass_iff (H:=world) [an_int; a_float] Htrans) _).
    right. exists "builtins.float". split.
    + right. repeat split; intros Hn; discriminate Hn.
    + intros v Hv. elems Hv.
      * exists int_cls. split; [apply list_elem_of_here|]. right. apply list_elem_of_here.
      * exists float_cls. split; [apply list_elem_of_here|]. by left.
  - apply not_true_iff_false. intros Ht.
    pose proof (proj1 (_satisfies_common_superclass_iff (H:=world) [an_int; a_pair] Htrans)
                  Ht) as [Hnil|(n & Hcounts & Hvs)]; [discriminate Hnil|].
    destruct (Hvs an_int (list_elem_of_here _ _)) as (c & Hc & Hn).
    destruct (Hvs a_pair (list_elem_of_further _ _ _ (list_elem_of_here _ _)))
      as (d & Hd & Hm).
    assert (Hobj : n = "builtins.object").
    { cbn in Hc, Hd. unfold _COMPATIBLE_BUILTINS in Hn, Hm. cbn in Hn, Hm.
      clear Hvs Hcounts Htrans Ht.
      elems Hc; elems Hd; destruct Hn as [Hn|Hn]; destruct Hm as [Hm|Hm];
        try (elems Hn); try (elems Hm); cbn in *; by simplify_eq. }
    destruct Hcounts as [(v & Hv & Hcls)|(Hno & _)]; [|done].
    elems Hv; discriminate Hcls.
Defined.

(** The pair of an int and a float does not match Tuple[int], matches
    Tuple[int, float], and does not match Tuple[int, int]. *)
Lemma tuple_against_tuple_class_witness :
  _match_instance (methods 4) tuple_cls a_pair Tuple_int 0 pair_view heap1
  = (Ret None, heap1)
  ∧ _match_instance (methods 4) tuple_cls a_pair Tuple_int_float 0 pair_view heap1
    = (Ret (Some 0), heap1)
  ∧ _match_instance (methods 4) tuple_cls a_pair Tuple_int_int 0 pair_view heap1
    = (Ret None, heap1).
Proof.
  assert (Hpairs : ∀ (other_type c : obj),
            formal_type_parameters other_type 0 = Some int_cls →
            formal_type_parameters other_type 1 = Some c →
            ∀ i p, [(1, int_cls); (2, c)] !! i = Some p →
              tuple_pyval a_pair !! i = Some p.1
              ∧ formal_type_parameters other_type i = Some p.2).
  { intros other_type c H0 H1 [|[|i]] p Hp; [| |discriminate Hp];
      injection Hp as <-; by split. }
  split; [|split].
  - apply (proj1 (tuple_against_tuple_class (H:=world) (methods 4) tuple_cls a_pair
                    Tuple_int 0 pair_view heap1 eq_refl eq_refl)).
    intros Hlen. discriminate Hlen.
  - apply (proj1 (proj2 (tuple_against_tuple_class (H:=world) (methods 4) tuple_cls a_pair
                           Tuple_int_float 0 pair_view heap1 eq_refl eq_refl)
                    [(1, int_cls); (2, float_cls)] eq_refl
                    (Hpairs Tuple_int_float float_cls eq_refl eq_refl))).
    + reflexivity.
    + intros Hnil. discriminate Hnil.
    + exact (threads_cons _ (1, int_cls) [(2, float_cls)] 0 0 heap1 heap1 0 heap1 eq_refl
               (threads_cons _ (2, float_cls) [] 0 0 heap1 heap1 0 heap1 eq_refl
                  (threads_nil _ 0 heap1))).
  - apply (proj2 (proj2 (tuple_against_tuple_class (H:=world) (methods 4) tuple_cls a_pair
                           Tuple_int_int 0 pair_view heap1 eq_refl eq_refl)
                    [(1, int_cls); (2, int_cls)] eq_refl
                    (Hpairs Tuple_int_int int_cls eq_refl eq_refl))
             [(1, int_cls)] (2, int_cls) [] 0 heap1 heap1 eq_refl eq_refl).
    + exact (threads_cons _ (1, int_cls) [] 0 0 heap1 heap1 0 heap1 eq_refl
               (threads_nil _ 0 heap1)).
    + reflexivity.
Defined.

(** g takes one argument: it does not match Callable[[], Any]. *)
Lemma signature_arity_witness :
  (_match_signature_against_callable (methods 0) sig_g Callable_0 0 ∅ heap1).1
  ≠ Ret (Some 0).
Proof.
  apply (signature_arity (H:=world) (methods 0) sig_g Callable_0 0 ∅ heap1 0 eq_refl).
  left. exact (Nat.lt_succ_diag_r 0).
Defined.


(** int against SupportsAdd, the pair being in the protocol cache. *)
Lemma protocol_cache_hit_witness :
  _match_against_protocol (methods 0) an_int SupportsAdd 0 ∅ heap_cached
  = (Ret (Some 0), heap_cached).
Proof.
  assert (Hmiss : protocol_attributes SupportsAdd ∖ _get_attribute_names an_int = ∅).
  { apply (bool_decide_unpack _). exact I. }
  exact (protocol_cache_hit (H:=world) (methods 0) an_int SupportsAdd 0 ∅ heap_cached
           eq_refl eq_refl Hmiss (list_elem_of_here _ _)).
Defined.


End Examples2.
